(** * opentsdb/tsdb.go: a shallow embedding and its verified properties

    The file embeds the query parser and serializer, the tag-set model, the
    identifier sanitizer, the time and duration resolver and the two caches
    of [third_party/github.com/StackExchange/scollector/opentsdb/tsdb.go].

    Conventions.
    - A Go [string] is a sequence of bytes: Rocq's [string] of [ascii].
    - [int64] and [rune] values are integers of [Z]; arithmetic that can
      leave the 64-bit range is wrapped with [wrap64] where the source
      computes it.
    - [map[string]string] is [gmap string string]; iteration order, which Go
      leaves unspecified, is an explicit argument wherever a result could
      depend on it.
    - Code that reads the wall clock or talks to the network threads a
      [World] through a small state monad.
    - Collaborators whose code is not in this file ([ParseDuration],
      [time.Parse], [json.Marshal], the HTTP round trip, the Unicode range
      tables above Latin-1) are fields of an environment record; the
      decoders and encoders that only [ParseRequest], [Request.String] and
      [RequestFromJSON] call are arguments of these functions. *)

From Stdlib Require Import ZArith Lia Ascii String List Bool.
From Stdlib Require Import Numbers.DecimalString.
From stdpp Require Import gmap strings list fin_maps sorting.

Local Open Scope Z_scope.

#[local] Arguments String.append : simpl nomatch.

(* ===================================================================== *)
(** ** Errors and results *)
(* ===================================================================== *)

(** One constructor for each [errors.New] / [fmt.Errorf] site of the file,
    for the two error kinds of [strconv], and one for errors that come from
    a collaborator. *)
Inductive error : Type :=
| ErrCleanZeroInput                (* "Metric/Tagk/Tagv Cleaning Passed a Zero Length String" *)
| ErrCleanZeroResult               (* "Cleaning Metric/Tagk/Tagv resulted in a Zero Length String" *)
| ErrBadQueryFormat (query : string)  (* "tsdb: bad query format: %s" *)
| ErrBadTag (v : string)              (* "tsdb: bad tag: %s" *)
| ErrDuplicatedTag (v : string)       (* "tsdb: duplicated tag: %s" *)
| ErrSyntax (s : string)              (* strconv.ErrSyntax *)
| ErrRange (s : string)               (* strconv.ErrRange *)
| ErrTimeType                      (* "type must be string or int64" *)
| ErrStartMissing                  (* "start time must be provided" *)
| ErrTargetLength                  (* "tsaf: target length must be > 0" *)
| ErrExternal (msg : string).      (* raised by a collaborator *)

Inductive result (A : Type) : Type :=
| Ok (a : A)
| Err (e : error).
Arguments Ok {A} a.
Arguments Err {A} e.

Definition is_ok {A} (r : result A) : bool :=
  match r with Ok _ => true | Err _ => false end.

(* ===================================================================== *)
(** ** Bytes and strings *)
(* ===================================================================== *)

Definition byte_val (c : ascii) : Z := Z.of_N (N_of_ascii c).
Definition byte_of (z : Z) : ascii := ascii_of_N (Z.to_N z).

Definition in_range (lo hi : ascii) (c : ascii) : bool :=
  (byte_val lo <=? byte_val c) && (byte_val c <=? byte_val hi).

Fixpoint str_forall (p : ascii -> bool) (s : string) : bool :=
  match s with
  | EmptyString => true
  | String c s' => p c && str_forall p s'
  end.

Fixpoint str_drop (n : nat) (s : string) : string :=
  match n, s with
  | O, _ => s
  | S n', String _ s' => str_drop n' s'
  | S _, EmptyString => EmptyString
  end.

Fixpoint str_take (n : nat) (s : string) : string :=
  match n, s with
  | S n', String c s' => String c (str_take n' s')
  | _, _ => EmptyString
  end.

Definition is_empty (s : string) : bool :=
  match s with EmptyString => true | _ => false end.

(** [strings.HasPrefix(s, prefix)] *)
Fixpoint HasPrefix (s prefix : string) : bool :=
  match prefix, s with
  | EmptyString, _ => true
  | String p prefix', String c s' => Ascii.eqb c p && HasPrefix s' prefix'
  | String _ _, EmptyString => false
  end.

(** [strings.HasSuffix(s, suffix)] *)
Definition HasSuffix (s suffix : string) : bool :=
  (String.length suffix <=? String.length s)%nat &&
  String.eqb (str_drop (String.length s - String.length suffix) s) suffix.

(** [strings.TrimSuffix(s, suffix)] *)
Definition TrimSuffix (s suffix : string) : string :=
  if HasSuffix s suffix
  then str_take (String.length s - String.length suffix) s
  else s.

(** [strings.Split(s, sep)] for a separator of one byte, which is what every
    call site of the file passes. The result is never empty:
    [Split("", ",")] is the one-element slice holding the empty string. *)
Fixpoint Split (s : string) (sep : ascii) : list string :=
  match s with
  | EmptyString => [EmptyString]
  | String c s' =>
      if Ascii.eqb c sep then EmptyString :: Split s' sep
      else match Split s' sep with
           | hd :: tl => String c hd :: tl
           | [] => [String c EmptyString]
           end
  end.

(** [strings.SplitN(s, sep, 2)]: cut at the first separator only. *)
Fixpoint SplitN2 (s : string) (sep : ascii) : list string :=
  match s with
  | EmptyString => [EmptyString]
  | String c s' =>
      if Ascii.eqb c sep then [EmptyString; s']
      else match SplitN2 s' sep with
           | hd :: tl => String c hd :: tl
           | [] => [String c EmptyString]
           end
  end.

(** [strings.Join(l, sep)] with a one-byte separator. *)
Fixpoint Join (l : list string) (sep : ascii) : string :=
  match l with
  | [] => EmptyString
  | [x] => x
  | x :: l' => x +:+ String sep (Join l' sep)
  end.

(* ===================================================================== *)
(** ** 64-bit integers, [strconv] and [fmt] *)
(* ===================================================================== *)

Definition minInt64 : Z := - 2 ^ 63.
Definition maxInt64 : Z := 2 ^ 63 - 1.

(** The value an [int64] holds after an operation whose exact result is [z]. *)
Definition wrap64 (z : Z) : Z := (z + 2 ^ 63) mod 2 ^ 64 - 2 ^ 63.

Definition is_digit (c : ascii) : bool := in_range "0"%char "9"%char c.

(** Value of a string of decimal digits read left to right from [acc]; [None]
    at the first byte that is not a digit. *)
Fixpoint digits_value (acc : Z) (s : string) : option Z :=
  match s with
  | EmptyString => Some acc
  | String c s' =>
      if is_digit c then digits_value (10 * acc + (byte_val c - 48)) s'
      else None
  end.

(** [strconv.ParseInt(s, 10, 64)]: an optional sign, then at least one decimal
    digit; a value outside the 64-bit range is a range error. *)
Definition ParseInt (s : string) : result Z :=
  match s with
  | EmptyString => Err (ErrSyntax s)
  | String c s' =>
      let neg := Ascii.eqb c "-"%char in
      let body := if Ascii.eqb c "+"%char || neg then s' else s in
      match body with
      | EmptyString => Err (ErrSyntax s)
      | _ =>
          match digits_value 0 body with
          | None => Err (ErrSyntax s)
          | Some un =>
              if negb neg && (2 ^ 63 <=? un) then Err (ErrRange s)
              else if neg && (2 ^ 63 <? un) then Err (ErrRange s)
              else Ok (if neg then - un else un)
          end
      end
  end.

(** [fmt.Sprintf("%d", z)] *)
Definition format_int (z : Z) : string :=
  NilEmpty.string_of_int (Z.to_int z).

(* ===================================================================== *)
(** ** UTF-8 and the Unicode classes used by [Clean] *)
(* ===================================================================== *)

Definition RuneError : Z := 65533.      (* U+FFFD *)

Definition is_cont (b : Z) : bool := (128 <=? b) && (b <=? 191).

(** [utf8.DecodeRuneInString]: the first code point of [s] and its width in
    bytes; [(RuneError, 1)] for a byte sequence that is not a shortest-form
    encoding of a scalar value, [(RuneError, 0)] for the empty string. *)
Definition DecodeRuneInString (s : string) : Z * nat :=
  match s with
  | EmptyString => (RuneError, O)
  | String c0 t0 =>
      let s0 := byte_val c0 in
      if s0 <? 128 then (s0, 1%nat)
      else if (s0 <? 194) || (244 <? s0) then (RuneError, 1%nat)
      else
        let sz : nat := if s0 <? 224 then 2%nat else if s0 <? 240 then 3%nat else 4%nat in
        let lo := if s0 =? 224 then 160 else if s0 =? 240 then 144 else 128 in
        let hi := if s0 =? 237 then 159 else if s0 =? 244 then 143 else 191 in
        if (String.length s <? sz)%nat then (RuneError, 1%nat)
        else
          match t0 with
          | EmptyString => (RuneError, 1%nat)
          | String c1 t1 =>
              let s1 := byte_val c1 in
              if (s1 <? lo) || (hi <? s1) then (RuneError, 1%nat)
              else if (sz <=? 2)%nat
              then (Z.lor (Z.shiftl (Z.land s0 31) 6) (Z.land s1 63), 2%nat)
              else
                match t1 with
                | EmptyString => (RuneError, 1%nat)
                | String c2 t2 =>
                    let s2 := byte_val c2 in
                    if negb (is_cont s2) then (RuneError, 1%nat)
                    else if (sz <=? 3)%nat
                    then (Z.lor (Z.lor (Z.shiftl (Z.land s0 15) 12)
                                       (Z.shiftl (Z.land s1 63) 6))
                                (Z.land s2 63), 3%nat)
                    else
                      match t2 with
                      | EmptyString => (RuneError, 1%nat)
                      | String c3 _ =>
                          let s3 := byte_val c3 in
                          if negb (is_cont s3) then (RuneError, 1%nat)
                          else (Z.lor (Z.lor (Z.lor (Z.shiftl (Z.land s0 7) 18)
                                                    (Z.shiftl (Z.land s1 63) 12))
                                             (Z.shiftl (Z.land s2 63) 6))
                                      (Z.land s3 63), 4%nat)
                      end
                end
          end
  end.

Definition byte_str (z : Z) : string := String (byte_of z) EmptyString.

(** The conversion [string(r)] of a rune: its UTF-8 encoding, and the encoding
    of U+FFFD for a value that is not a Unicode scalar value. *)
Definition string_of_rune (r : Z) : string :=
  if (0 <=? r) && (r <? 128) then byte_str r
  else if (128 <=? r) && (r <? 2048) then
    byte_str (Z.lor 192 (Z.shiftr r 6)) +:+ byte_str (Z.lor 128 (Z.land r 63))
  else if (r <? 0) || (1114111 <? r) || ((55296 <=? r) && (r <=? 57343)) then
    byte_str 239 +:+ byte_str 191 +:+ byte_str 189
  else if r <? 65536 then
    byte_str (Z.lor 224 (Z.shiftr r 12))
      +:+ byte_str (Z.lor 128 (Z.land (Z.shiftr r 6) 63))
      +:+ byte_str (Z.lor 128 (Z.land r 63))
  else
    byte_str (Z.lor 240 (Z.shiftr r 18))
      +:+ byte_str (Z.lor 128 (Z.land (Z.shiftr r 12) 63))
      +:+ byte_str (Z.lor 128 (Z.land (Z.shiftr r 6) 63))
      +:+ byte_str (Z.lor 128 (Z.land r 63)).

(** The Unicode range tables [unicode.Letter] and [unicode.Digit] above
    Latin-1 belong to Go's library; they are parameters. Up to U+00FF the
    two predicates are decided by the library's fixed Latin-1 table. *)
Record UnicodeTables : Type := {
  Letter_table : Z -> bool;
  Digit_table : Z -> bool
}.

Definition latin1_letter (r : Z) : bool :=
  ((65 <=? r) && (r <=? 90)) || ((97 <=? r) && (r <=? 122))
  || (r =? 170) || (r =? 181) || (r =? 186)
  || ((192 <=? r) && (r <=? 214)) || ((216 <=? r) && (r <=? 246))
  || ((248 <=? r) && (r <=? 255)).

Definition IsLetter (U : UnicodeTables) (r : Z) : bool :=
  if (0 <=? r) && (r <=? 255) then latin1_letter r else Letter_table U r.

Definition IsDigit (U : UnicodeTables) (r : Z) : bool :=
  if (0 <=? r) && (r <=? 255) then (48 <=? r) && (r <=? 57) else Digit_table U r.

(* ===================================================================== *)
(** ** [Clean] *)
(* ===================================================================== *)

(** The test of line 166: a letter, a digit, or one of [- _ . /]. *)
Definition clean_keeps (U : UnicodeTables) (r : Z) : bool :=
  IsLetter U r || IsDigit U r || (r =? 45) || (r =? 95) || (r =? 46) || (r =? 47).

(** The loop [for len(s) > 0] of [Clean]; every round removes at least one
    byte, so [String.length s] rounds are enough. *)
Fixpoint Clean_loop (U : UnicodeTables) (fuel : nat) (s c : string) : string :=
  match fuel with
  | O => c
  | S fuel' =>
      if is_empty s then c
      else
        let '(r, size) := DecodeRuneInString s in
        let c' := if clean_keeps U r then c +:+ string_of_rune r else c in
        Clean_loop U fuel' (str_drop size s) c'
  end.

(** [Clean] returns its string and its error side by side, as the source. *)
Definition Clean (U : UnicodeTables) (s : string) : string * option error :=
  if (String.length s =? 0)%nat then (s, Some ErrCleanZeroInput)
  else
    let c := Clean_loop U (String.length s) s EmptyString in
    if (String.length c =? 0)%nat then (c, Some ErrCleanZeroResult)
    else (c, None).

(** The code points of a string, in order, as [DecodeRuneInString] reads
    them one after the other. *)
Fixpoint runes_of (fuel : nat) (s : string) : list Z :=
  match fuel with
  | O => []
  | S fuel' =>
      if is_empty s then []
      else let '(r, size) := DecodeRuneInString s in
           r :: runes_of fuel' (str_drop size s)
  end.

Definition runes (s : string) : list Z := runes_of (String.length s) s.

(** The UTF-8 text of a sequence of code points. *)
Definition encode_runes (l : list Z) : string :=
  fold_right (fun r acc => string_of_rune r +:+ acc) EmptyString l.

(* ===================================================================== *)
(** ** [strings.TrimSpace] *)
(* ===================================================================== *)

(** [unicode.IsSpace]: the Latin-1 cases and the [White_Space] property. *)
Definition IsSpace (r : Z) : bool :=
  ((9 <=? r) && (r <=? 13)) || (r =? 32) || (r =? 133) || (r =? 160)
  || (r =? 5760) || ((8192 <=? r) && (r <=? 8202))
  || (r =? 8232) || (r =? 8233) || (r =? 8239) || (r =? 8287) || (r =? 12288).

Definition byte_at (s : string) (i : nat) : Z :=
  match String.get i s with Some c => byte_val c | None => 0 end.

(** [utf8.RuneStart]: the byte is not a continuation byte. *)
Definition RuneStart (b : Z) : bool := negb (Z.land b 192 =? 128).

(** [utf8.DecodeLastRuneInString]: the last code point of [s] and its width.
    The backward scan looks at no more than three bytes before the last. *)
Definition DecodeLastRuneInString (s : string) : Z * nat :=
  let n := String.length s in
  if (n =? 0)%nat then (RuneError, O)
  else
    let r := byte_at s (n - 1) in
    if r <? 128 then (r, 1%nat)
    else
      let probe (k : nat) := (k <=? n)%nat && RuneStart (byte_at s (n - k)) in
      let start : nat :=
        if probe 2%nat then (n - 2)%nat
        else if probe 3%nat then (n - 3)%nat
        else if probe 4%nat then (n - 4)%nat
        else if (n <=? 4)%nat then O else (n - 5)%nat in
      let '(r', size) := DecodeRuneInString (str_drop start s) in
      if (start + size =? n)%nat then (r', size) else (RuneError, 1%nat).

Fixpoint TrimLeftSpace (fuel : nat) (s : string) : string :=
  match fuel with
  | O => s
  | S fuel' =>
      if is_empty s then s
      else let '(r, size) := DecodeRuneInString s in
           if IsSpace r then TrimLeftSpace fuel' (str_drop size s) else s
  end.

Fixpoint TrimRightSpace (fuel : nat) (s : string) : string :=
  match fuel with
  | O => s
  | S fuel' =>
      if is_empty s then s
      else let '(r, size) := DecodeLastRuneInString s in
           if IsSpace r
           then TrimRightSpace fuel' (str_take (String.length s - size) s)
           else s
  end.

(** [strings.TrimSpace(s)]: [s] without its leading and trailing white
    space, read code point by code point. *)
Definition TrimSpace (s : string) : string :=
  let l := TrimLeftSpace (String.length s) s in
  TrimRightSpace (String.length l) l.

(* ===================================================================== *)
(** ** Regular expressions: the fragment [qRE] is written in *)
(* ===================================================================== *)

(** Go's [regexp] returns the match a backtracking search finds first
    (leftmost-first). Every repetition in [qRE] is a greedy repetition of a
    one-character class, and every class other than [.] holds ASCII
    characters only, so matching byte by byte finds the same match and the
    same groups as matching code point by code point: a byte of a multi-byte
    sequence is matched by [.] alone, and the expression always follows [.*]
    with the ASCII character [:]. *)
Inductive regex : Type :=
| RChar (c : ascii)                       (* a literal character *)
| RSeq (r1 r2 : regex)                    (* r1 r2 *)
| RStar (p : ascii -> bool)               (* [class]*  greedy *)
| RPlus (p : ascii -> bool)               (* [class]+  greedy *)
| ROpt (r : regex)                        (* (?:r)?    greedy *)
| RGroup (n : nat) (r : regex)            (* (r), capture group number n *)
| REnd.                                   (* $ without the m flag: end of text *)

(** The text of each capture group; index 0 is unused, a group that took no
    part in the match reads as the empty string, as in
    [FindStringSubmatch]. *)
Abbreviation captures := (list string).

(** Greedy repetition: take one more character when the class allows it and
    the rest of the expression then matches, stop here otherwise. *)
Fixpoint star_match (p : ascii -> bool) (s : string)
    (k : string -> option captures) : option captures :=
  match s with
  | String c s' =>
      if p c then
        match star_match p s' k with
        | Some m => Some m
        | None => k s
        end
      else k s
  | EmptyString => k s
  end.

(** [rmatch r s caps k]: match [r] at the head of [s], then hand the rest of
    the text and the groups so far to [k]; alternatives are tried in the
    priority order of the backtracking search. *)
Fixpoint rmatch (r : regex) (s : string) (caps : captures)
    (k : string -> captures -> option captures) : option captures :=
  match r with
  | RChar c =>
      match s with
      | String c' s' => if Ascii.eqb c' c then k s' caps else None
      | EmptyString => None
      end
  | RSeq r1 r2 => rmatch r1 s caps (fun s' caps' => rmatch r2 s' caps' k)
  | RStar p => star_match p s (fun s' => k s' caps)
  | RPlus p =>
      match s with
      | String c s' => if p c then star_match p s' (fun s'' => k s'' caps) else None
      | EmptyString => None
      end
  | ROpt r' =>
      match rmatch r' s caps k with
      | Some m => Some m
      | None => k s caps
      end
  | RGroup n r' =>
      rmatch r' s caps
        (fun s' caps' =>
           k s' (<[n := str_take (String.length s - String.length s') s]> caps'))
  | REnd => if is_empty s then k s caps else None
  end.

Fixpoint RLit (s : string) : regex :=
  match s with
  | EmptyString => RStar (fun _ => false)
  | String c EmptyString => RChar c
  | String c s' => RSeq (RChar c) (RLit s')
  end.

(** [FindStringSubmatch] for an expression that opens with [^]: the only
    candidate start is the beginning of the text. [ngroups] is the number of
    capture groups. *)
Definition FindStringSubmatch (r : regex) (ngroups : nat) (s : string)
    : option captures :=
  rmatch r s (replicate (S ngroups) EmptyString) (fun _ caps => Some caps).

(** [\w] *)
Definition word_char (c : ascii) : bool :=
  in_range "0"%char "9"%char c || in_range "A"%char "Z"%char c
  || in_range "a"%char "z"%char c || Ascii.eqb c "_"%char.

(** [.] without the s flag *)
Definition any_char (c : ascii) : bool := negb (Ascii.eqb c "010"%char).

(** [[\w./]] *)
Definition metric_char (c : ascii) : bool :=
  word_char c || Ascii.eqb c "."%char || Ascii.eqb c "/"%char.

(** [[\w./,=*-|]]: inside the brackets [*-|] is the range from [*] to [|]. *)
Definition tag_char (c : ascii) : bool :=
  word_char c || Ascii.eqb c "."%char || Ascii.eqb c "/"%char
  || Ascii.eqb c ","%char || Ascii.eqb c "="%char
  || in_range "*"%char "|"%char c.

(** The text of the expression compiled into [qRE] at line 242. *)
Definition qRE_source : string :=
  "^(\w+):(?:(\w+-\w+):)?(?:(rate.*):)?([\w./]+)(?:\{([\w./,=*-|]+)\})?$".

(** [qRE], piece by piece as [qRE_source] spells it. *)

(** The optional downsample, group 2, and its colon. *)
Definition re_downsample : regex :=
  ROpt (RSeq (RGroup 2 (RSeq (RPlus word_char)
                       (RSeq (RChar "-"%char) (RPlus word_char))))
             (RChar ":"%char)).

(** The optional rate, group 3, and its colon. *)
Definition re_rate : regex :=
  ROpt (RSeq (RGroup 3 (RSeq (RLit "rate") (RStar any_char)))
             (RChar ":"%char)).

(** The optional tag block in braces, group 5. *)
Definition re_tags : regex :=
  ROpt (RSeq (RChar "{"%char)
       (RSeq (RGroup 5 (RPlus tag_char)) (RChar "}"%char))).

(** The metric, group 4, the tag block and the end of the text. *)
Definition re_metric : regex :=
  RSeq (RGroup 4 (RPlus metric_char)) (RSeq re_tags REnd).

Definition qRE : regex :=
  RSeq (RGroup 1 (RPlus word_char))
  (RSeq (RChar ":"%char)
  (RSeq re_downsample
  (RSeq re_rate re_metric))).

(* ===================================================================== *)
(** ** [TagSet] *)
(* ===================================================================== *)

Abbreviation TagSet := (gmap string string).

(** [TagSet.Equal] *)
Definition TagSet_Equal (t o : TagSet) : bool :=
  if negb (size t =? size o)%nat then false
  else forallb (fun kv : string * string =>
                  match o !! kv.1 with
                  | Some ov => String.eqb ov kv.2
                  | None => false
                  end) (map_to_list t).

(** [TagSet.Subset]: the loop over [o] returns [false] at the first pair that
    [t] lacks or maps to another value; whatever the iteration order, the
    result is [true] exactly when no pair makes it return. *)
Definition TagSet_Subset (t o : TagSet) : bool :=
  forallb (fun kv : string * string =>
             match t !! kv.1 with
             | Some tv => String.eqb tv kv.2
             | None => false
             end) (map_to_list o).

(* ===================================================================== *)
(** ** [Query], [ParseTags], [ParseQuery], [Query.String] *)
(* ===================================================================== *)

Record RateOptions : Type := mkRateOptions {
  Counter : bool;
  CounterMax : Z;
  ResetValue : Z
}.

Record Query : Type := mkQuery {
  Aggregator : string;
  Metric : string;
  Rate : bool;
  Rate_Options : RateOptions;
  Downsample : string;
  Tags : TagSet
}.

Definition zero_RateOptions : RateOptions := mkRateOptions false 0 0.

(** The loop of [ParseTags] over the comma-separated pieces. *)
Fixpoint ParseTags_loop (pieces : list string) (ts : TagSet) : result TagSet :=
  match pieces with
  | [] => Ok ts
  | v :: rest =>
      match SplitN2 v "="%char with
      | [sp0; sp1] =>
          let k := TrimSpace sp0 in
          let x := TrimSpace sp1 in
          match ts !! k with
          | Some _ => Err (ErrDuplicatedTag v)
          | None => ParseTags_loop rest (<[k := x]> ts)
          end
      | _ => Err (ErrBadTag v)
      end
  end.

Definition ParseTags (t : string) : result TagSet :=
  ParseTags_loop (Split t ","%char) ∅.

Definition submatch (m : captures) (i : nat) : string := nth i m EmptyString.

(** The rate options read from [m[3]], lines 256-269. *)
Definition parse_rate_options (m3 : string) : result RateOptions :=
  let sp := Split m3 ","%char in
  let counter := (1 <? length sp)%nat in
  let cmax : result Z :=
    if (2 <? length sp)%nat then
      if negb (is_empty (nth 2 sp EmptyString))
      then ParseInt (nth 2 sp EmptyString) else Ok 0
    else Ok 0 in
  match cmax with
  | Err e => Err e
  | Ok cm =>
      let reset : result Z :=
        if (3 <? length sp)%nat then ParseInt (nth 3 sp EmptyString) else Ok 0 in
      match reset with
      | Err e => Err e
      | Ok rv => Ok (mkRateOptions counter cm rv)
      end
  end.

Definition ParseQuery (query : string) : result Query :=
  match FindStringSubmatch qRE 5 query with
  | None => Err (ErrBadQueryFormat query)
  | Some m =>
      let rate := HasPrefix (submatch m 3) "rate" in
      match (if rate then parse_rate_options (submatch m 3)
             else Ok zero_RateOptions) with
      | Err e => Err e
      | Ok ro =>
          match (if negb (is_empty (submatch m 5)) then ParseTags (submatch m 5)
                 else Ok ∅) with
          | Err e => Err e
          | Ok tags =>
              Ok {| Aggregator := submatch m 1;
                    Metric := submatch m 4;
                    Rate := rate;
                    Rate_Options := ro;
                    Downsample := submatch m 2;
                    Tags := tags |}
          end
      end
  end.

(** The [for k, v := range q.Tags] loop of [Query.String], run over the pairs
    in the order the runtime happens to produce them. *)
Fixpoint String_tags (pairs : list (string * string)) (first : bool) (s : string)
    : string :=
  match pairs with
  | [] => s
  | (k, v) :: rest =>
      let s := if first then s else s +:+ "," in
      String_tags rest false (s +:+ k +:+ "=" +:+ v)
  end.

(** [Query.String]. [order] is the sequence of pairs the [range] loop visits:
    some arrangement of the pairs of [q.Tags]. *)
Definition Query_String (q : Query) (order : list (string * string)) : string :=
  let s := Aggregator q +:+ ":" in
  let s := if negb (is_empty (Downsample q)) then s +:+ Downsample q +:+ ":" else s in
  let s := if Rate q then s +:+ "rate:" else s in
  let s := s +:+ Metric q in
  if (0 <? size (Tags q))%nat
  then String_tags order true (s +:+ "{") +:+ "}"
  else s.

(** The arrangements a [range] loop over [m] can produce. *)
Definition range_order (m : TagSet) (order : list (string * string)) : Prop :=
  order ≡ₚ map_to_list m.

(* ===================================================================== *)
(** ** Time, durations and dynamically typed fields *)
(* ===================================================================== *)

(** A [time.Time] is the instant it denotes, in nanoseconds since the Unix
    epoch, with no bound on the instant (the 64-bit seconds field of the
    library reaches 292 billion years either way). Locations only affect
    printing ([UTC()] keeps the instant). A value carries its wall-clock
    reading only, so [Sub] is the difference of wall-clock instants. *)
Record Time : Type := mkTime { UnixNano : Z }.

(** A [Duration] ([time.Duration] under another name) is an [int64] count of
    nanoseconds. *)
Abbreviation Duration := Z.

Definition Nanosecond : Duration := 1.
Definition Millisecond : Duration := 1000000.
Definition Second : Duration := 1000000000.
Definition Minute : Duration := 60 * Second.
Definition Hour : Duration := 60 * Minute.

(** [time.Unix(sec, 0)] *)
Definition time_Unix (sec : Z) : Time := mkTime (sec * Second).

(** [t.Unix()]: whole seconds since the epoch, rounded towards the past. *)
Definition Time_Unix (t : Time) : Z := UnixNano t / Second.

(** [t.Add(d)] *)
Definition Time_Add (t : Time) (d : Duration) : Time := mkTime (UnixNano t + d).

(** [t.Sub(u)]: the difference, or the largest / smallest [Duration] when the
    difference does not fit one. *)
Definition Time_Sub (t u : Time) : Duration :=
  let d := UnixNano t - UnixNano u in
  if d <? minInt64 then minInt64
  else if maxInt64 <? d then maxInt64
  else d.

(** [time.Time{}]: January 1, year 1, 00:00:00 UTC. *)
Definition zero_Time : Time := time_Unix (-62135596800).

(** Modelled from the spec: the [Duration] type and its [Seconds] accessor are
    declared in another file of the package; the downsample interval is
    written as [<integer-seconds>s-avg], so [int64(d.Seconds())] is the number
    of whole seconds in [d]. *)
Definition Duration_whole_seconds (d : Duration) : Z := Z.quot d Second.

(** The dynamic types an [interface{}] field of a [Request] can hold. *)
Inductive Value : Type :=
| VNil                                  (* the nil interface *)
| VString (s : string)
| VInt64 (i : Z)
| VFloat64 (bits : Z)                   (* as left by [json.Unmarshal] *)
| VOther (type_name : string).          (* a value of any other type *)

#[global] Instance Value_eq_dec : EqDecision Value.
Proof. solve_decision. Defined.

Definition Value_is_nil (v : Value) : bool :=
  match v with VNil => true | _ => false end.

(* ===================================================================== *)
(** ** Requests, responses and the environment *)
(* ===================================================================== *)

(** [Queries] is a slice of pointers in the source; the properties below
    never look at one query through two paths, so the queries are held by
    value and an update of the pointed-to queries is an update of the
    list. *)
Record Request : Type := mkRequest {
  Start : Value;
  End_ : Value;
  Queries : list Query;
  NoAnnotations : bool;
  GlobalAnnotations : bool;
  MsResolution : bool;
  ShowTSUIDs : bool
}.

Definition set_Queries (r : Request) (qs : list Query) : Request :=
  mkRequest (Start r) (End_ r) qs (NoAnnotations r) (GlobalAnnotations r)
            (MsResolution r) (ShowTSUIDs r).

Definition set_window (r : Request) (s e : Value) : Request :=
  mkRequest s e (Queries r) (NoAnnotations r) (GlobalAnnotations r)
            (MsResolution r) (ShowTSUIDs r).

Definition set_Downsample (ds : string) (q : Query) : Query :=
  mkQuery (Aggregator q) (Metric q) (Rate q) (Rate_Options q) ds (Tags q).

(** A [Point] is a [float64]; it is only carried around, as its bit
    pattern. *)
Abbreviation Point := Z.

Record Response : Type := mkResponse {
  Response_Metric : string;
  Response_Tags : TagSet;
  AggregateTags : list string;
  DPS : gmap string Point
}.

Abbreviation ResponseSet := (list Response).

(** What [Query] methods return: a response set and an error, side by
    side. *)
Record cacheResult : Type := mkCacheResult {
  cr_ResponseSet : ResponseSet;
  cr_Err : option error
}.

(** The collaborators. [clock n] is what the [n]-th call of [time.Now]
    returns; [transport n host body] is the outcome of the [n]-th HTTP round
    trip, as decoded by [Request.Query]. *)
Record Env : Type := mkEnv {
  ParseDuration : string -> result Duration;
  time_Parse : string -> string -> result Time;
  json_Marshal : Request -> result string;
  clock : nat -> Time;
  transport : nat -> string -> string -> cacheResult
}.

(** The part of the outside world the code changes: how often the clock was
    read, and the requests posted so far (host and body, oldest first). *)
Record World : Type := mkWorld {
  ticks : nat;
  posts : list (string * string)
}.

Definition M (A : Type) : Type := World -> A * World.

Definition ret {A} (a : A) : M A := fun w => (a, w).

Definition bind {A B} (m : M A) (f : A -> M B) : M B :=
  fun w => let '(a, w') := m w in f a w'.

Notation "'let*' x := m 'in' k" := (bind m (fun x => k))
  (at level 10, x pattern, m at level 200, k at level 200).

Section Program.

Variable E : Env.

(** [time.Now()] *)
Definition time_Now : M Time :=
  fun w => (clock E (ticks w), mkWorld (S (ticks w)) (posts w)).

(** [ParseAbsTime]: the four layouts in order, then the epoch-seconds
    fallback. *)
Definition t_formats : list string :=
  ["2006/01/02-15:04:05"; "2006/01/02-15:04"; "2006/01/02-15"; "2006/01/02"].

Fixpoint first_layout (formats : list string) (s : string) : option Time :=
  match formats with
  | [] => None
  | f :: rest =>
      match time_Parse E f s with
      | Ok t => Some t
      | Err _ => first_layout rest s
      end
  end.

Definition ParseAbsTime (s : string) : Time * option error :=
  match first_layout t_formats s with
  | Some t => (t, None)
  | None =>
      match ParseInt s with
      | Err e => (zero_Time, Some e)
      | Ok i => (time_Unix i, None)
      end
  end.

(** [ParseTime] *)
Definition ParseTime (v : Value) : M (Time * option error) :=
  let* now := time_Now in
  match v with
  | VString i =>
      if negb (is_empty i) then
        if HasSuffix i "-ago" then
          let s := TrimSuffix i "-ago" in
          match ParseDuration E s with
          | Err e => ret (now, Some e)
          | Ok d => ret (Time_Add now (wrap64 (- d)), None)
          end
        else ret (ParseAbsTime i)
      else ret (now, None)
  | VInt64 i => ret (time_Unix i, None)
  | _ => ret (zero_Time, Some ErrTimeType)
  end.

(** The end of a request's window, as [GetDuration] and [DateCache.Query]
    both resolve it: [ParseTime] of the [End] field when there is one, a
    fresh reading of the clock otherwise. *)
Definition resolve_end (r : Request) : M (Time * option error) :=
  if negb (Value_is_nil (End_ r)) then ParseTime (End_ r)
  else let* t := time_Now in ret (t, None).

(** [GetDuration] *)
Definition GetDuration (r : Request) : M (Duration * option error) :=
  match Start r with
  | VString EmptyString => ret (0, Some ErrStartMissing)
  | _ =>
      let* (start, err) := ParseTime (Start r) in
      match err with
      | Some e => ret (0, Some e)
      | None =>
          let* (end_, err) := resolve_end r in
          match err with
          | Some e => ret (0, Some e)
          | None => ret (Time_Sub end_ start, None)
          end
      end
  end.

(** [Request.AutoDownsample]: the error, and the request as the call leaves
    it. *)
Definition AutoDownsample (r : Request) (l : Z) : M (option error * Request) :=
  if l =? 0 then ret (Some ErrTargetLength, r)
  else
    let* (cd, err) := GetDuration r in
    match err with
    | Some e => ret (Some e, r)
    | None =>
        let d := wrap64 (Z.quot cd l) in
        if d <? Second * 15 then ret (None, r)
        else
          let ds := format_int (Duration_whole_seconds d) +:+ "s-avg" in
          ret (None, set_Queries r (map (set_Downsample ds) (Queries r)))
    end.

(** [Request.Query]: one HTTP round trip, unless the request cannot be
    marshalled. *)
Definition Request_Query (r : Request) (host : string) : M cacheResult :=
  match json_Marshal E r with
  | Err e => ret (mkCacheResult [] (Some e))
  | Ok b =>
      fun w => (transport E (length (posts w)) host b,
                mkWorld (ticks w) (posts w ++ [(host, b)]))
  end.

Record Cache : Type := mkCache {
  host : string;
  cache : gmap string cacheResult
}.

(** [NewCache] *)
Definition NewCache (h : string) : Cache := mkCache h ∅.

(** [Cache.Query]: the pair returned, and the cache as the call leaves it. *)
Definition Cache_Query (c : Cache) (r : Request) : M (cacheResult * Cache) :=
  match json_Marshal E r with
  | Err e => ret (mkCacheResult [] (Some e), c)
  | Ok s =>
      match cache c !! s with
      | Some v => ret (mkCacheResult (cr_ResponseSet v) (cr_Err v), c)
      | None =>
          let* res := Request_Query r (host c) in
          ret (res, mkCache (host c) (<[s := res]> (cache c)))
      end
  end.

(** A run of [Cache.Query] calls on one cache, one request after the other;
    the answers are dropped. *)
Fixpoint Cache_Query_all (c : Cache) (rs : list Request) : M Cache :=
  match rs with
  | [] => ret c
  | r :: rs' =>
      let* (_, c') := Cache_Query c r in
      Cache_Query_all c' rs'
  end.

Record DateCache : Type := mkDateCache {
  dc_Cache : Cache;
  now : Time
}.

(** [NewDateCache] *)
Definition NewDateCache (h : string) (t : Time) : DateCache :=
  mkDateCache (NewCache h) t.

(** Lines 532-549 of [DateCache.Query]: the request with its window moved so
    that it ends at [c.now], or the error of the time resolver. *)
Definition DateCache_window (c : DateCache) (r : Request) : M (result Request) :=
  let* (start, err) := ParseTime (Start r) in
  match err with
  | Some e => ret (Err e)
  | None =>
      let* (end_, err) := resolve_end r in
      match err with
      | Some e => ret (Err e)
      | None =>
          let diff := Time_Sub (now c) end_ in
          let start := Time_Add start diff in
          let end_ := Time_Add end_ diff in
          ret (Ok (set_window r (VInt64 (Time_Unix start)) (VInt64 (Time_Unix end_))))
      end
  end.

(** [DateCache.Query] *)
Definition DateCache_Query (c : DateCache) (r : Request)
    : M (cacheResult * DateCache) :=
  let* nr := DateCache_window c r in
  match nr with
  | Err e => ret (mkCacheResult [] (Some e), c)
  | Ok r' =>
      let* (res, cc) := Cache_Query (dc_Cache c) r' in
      ret (res, mkDateCache cc (now c))
  end.

End Program.

(* ===================================================================== *)
(** ** Concrete collaborators for worked examples *)
(* ===================================================================== *)

(** The examples need some resolver of duration literals, some serializer
    and some remote end. These are small stand-ins with the interface of the
    real collaborators; no general theorem depends on them. *)

Fixpoint leading_digits (s : string) : string * string :=
  match s with
  | EmptyString => (EmptyString, EmptyString)
  | String c s' =>
      if is_digit c
      then let '(d, rest) := leading_digits s' in (String c d, rest)
      else (EmptyString, s)
  end.

Definition unit_value (u : string) : option Duration :=
  if String.eqb u "ms" then Some Millisecond
  else if String.eqb u "s" then Some Second
  else if String.eqb u "m" then Some Minute
  else if String.eqb u "h" then Some Hour
  else if String.eqb u "d" then Some (24 * Hour)
  else if String.eqb u "w" then Some (7 * 24 * Hour)
  else None.

(** Modelled from the spec: the duration-literal resolver [ParseDuration] is
    declared in another file of the package; the spec gives literals such as
    [1h] and [30m]. This one reads a decimal number followed by one unit. *)
Definition sample_ParseDuration (s : string) : result Duration :=
  let '(d, u) := leading_digits s in
  match (if is_empty d then None else digits_value 0 d), unit_value u with
  | Some n, Some x => Ok (n * x)
  | _, _ => Err (ErrExternal "invalid duration")
  end.

Definition render_Value (v : Value) : result string :=
  match v with
  | VNil => Ok "null"
  | VString s => Ok ("'" +:+ s +:+ "'")
  | VInt64 i => Ok (format_int i)
  | VFloat64 b => Ok ("f" +:+ format_int b)
  | VOther t => Err (ErrExternal ("unsupported type: " +:+ t))
  end.

Definition render_bool (b : bool) : string := if b then "1" else "0".

Definition render_Query (q : Query) : string :=
  Query_String q (map_to_list (Tags q)) +:+ "/"
  +:+ render_bool (Counter (Rate_Options q)) +:+ "/"
  +:+ format_int (CounterMax (Rate_Options q)) +:+ "/"
  +:+ format_int (ResetValue (Rate_Options q)).

(** A serializer that writes every field of the request, and fails on a
    window bound of a type it does not know. *)
Definition sample_Marshal (r : Request) : result string :=
  match render_Value (Start r), render_Value (End_ r) with
  | Ok s, Ok e =>
      Ok ("start=" +:+ s +:+ " end=" +:+ e +:+ " queries="
          +:+ Join (map render_Query (Queries r)) ";"%char
          +:+ " flags=" +:+ render_bool (NoAnnotations r)
          +:+ render_bool (GlobalAnnotations r)
          +:+ render_bool (MsResolution r) +:+ render_bool (ShowTSUIDs r))
  | Err e, _ => Err e
  | _, Err e => Err e
  end.

(** A remote end that answers the [n]-th request with one series named after
    [n], and fails every third request. *)
Definition sample_transport (n : nat) (h body : string) : cacheResult :=
  if (n mod 3 =? 2)%nat
  then mkCacheResult [] (Some (ErrExternal ("tsdb: " +:+ body)))
  else mkCacheResult
         [mkResponse (format_int (Z.of_nat n)) ∅ [] ∅] None.

(** A clock that returns the readings of [l] one after the other, and the
    last of them for ever after. *)
Definition clock_of (l : list Z) (n : nat) : Time :=
  mkTime (nth n l (List.last l 0)).

Definition sample_Env (readings : list Z) : Env :=
  mkEnv sample_ParseDuration (fun _ _ => Err (ErrExternal "parsing time"))
        sample_Marshal (clock_of readings) sample_transport.

Definition world0 : World := mkWorld O [].

Definition cpu_query : Query :=
  mkQuery "sum" "cpu" false zero_RateOptions "" ∅.

Definition request_of (s e : Value) : Request :=
  mkRequest s e [cpu_query] false false false false.

(* ===================================================================== *)
(** ** Vocabulary of the statements *)
(* ===================================================================== *)

(** The world after one reading of the clock. *)
Definition tick (w : World) : World := mkWorld (S (ticks w)) (posts w).

Definition reference_cache : DateCache := NewDateCache "h" (time_Unix 10000).

(** What a successful match of [r] against exactly the text [x] does to the
    groups. *)
Fixpoint rsem (r : regex) (x : string) (caps caps' : captures) : Prop :=
  match r with
  | RChar c => x = String c "" /\ caps' = caps
  | RSeq r1 r2 =>
      exists a b mid, x = a +:+ b /\ rsem r1 a caps mid /\ rsem r2 b mid caps'
  | RStar p => str_forall p x = true /\ caps' = caps
  | RPlus p => x <> "" /\ str_forall p x = true /\ caps' = caps
  | ROpt r' => (x = "" /\ caps' = caps) \/ rsem r' x caps caps'
  | RGroup n r' => exists mid, rsem r' x caps mid /\ caps' = <[n := x]> mid
  | REnd => x = "" /\ caps' = caps
  end.

(** [stops p rest]: a greedy repetition of [p] cannot go into [rest]. *)
Definition stops (p : ascii -> bool) (rest : string) : bool :=
  match rest with
  | EmptyString => true
  | String c _ => negb (p c)
  end.

Definition suffix_of (s' s : string) : Prop := exists x, s = x +:+ s'.

Definition not_char (c0 c : ascii) : bool := negb (Ascii.eqb c c0).

Definition kfin : string -> captures -> option captures :=
  fun _ caps => Some caps.

(** The tag block of a serialized query: nothing, or the pairs in braces. *)
Definition tail_text (T : string) : string :=
  if is_empty T then "" else "{" +:+ T +:+ "}".

Definition pair_text (kv : string * string) : string :=
  kv.1 +:+ "=" +:+ kv.2.

(** The pairs [ParseTags] can produce from a text matched by group 5 of
    [qRE]: made of tag characters, no comma, and no equals sign in the
    key. *)
Definition plain_pair (kv : string * string) : Prop :=
  str_forall tag_char kv.1 = true /\ str_forall tag_char kv.2 = true
  /\ str_forall (not_char ",") kv.1 = true
  /\ str_forall (not_char ",") kv.2 = true
  /\ str_forall (not_char "=") kv.1 = true.

(* ===================================================================== *)
(** ** More of the file: serializers, [ParseRequest] *)
(* ===================================================================== *)

(** [sort.Strings]: ascending, bytewise lexicographic order. *)
Definition sort_Strings (keys : list string) : list string :=
  merge_sort String.le keys.

(** The writing loop of [TagSet.Tags] over the sorted keys; [t[k]] reads as
    the empty string for a key the map lacks. *)
Fixpoint Tags_write (t : TagSet) (keys : list string) (first : bool) (b : string)
    : string :=
  match keys with
  | [] => b
  | k :: rest =>
      let b := if first then b else b +:+ "," in
      Tags_write t rest false (b +:+ k +:+ "=" +:+ default "" (t !! k))
  end.

(** [TagSet.Tags]. [order] is the order in which the [range] loop that
    collects the keys visits the map. *)
Definition TagSet_Tags (t : TagSet) (order : list (string * string)) : string :=
  Tags_write t (sort_Strings order.*1) true "".

(** [TagSet.String] *)
Definition TagSet_String (t : TagSet) (order : list (string * string)) : string :=
  "{" +:+ TagSet_Tags t order +:+ "}".

(** A key with the value [TagSet.Tags] writes for it. *)
Definition key_text (t : TagSet) (k : string) : string * string :=
  (k, default "" (t !! k)).

(** The pairs of [t] in ascending order of their keys. *)
Definition sorted_pairs (t : TagSet) : list (string * string) :=
  map (key_text t) (sort_Strings (map_to_list t).*1).

(** What one comma-separated piece contributes in [ParseTags]: the trimmed
    key and value around its first equals sign, if it has one. *)
Definition piece_pair (v : string) : option (string * string) :=
  match SplitN2 v "=" with
  | [sp0; sp1] => Some (TrimSpace sp0, TrimSpace sp1)
  | _ => None
  end.

(** The assignment [ts[k] = v] of [ParseTags], for a pair. *)
Definition put_pair (m : TagSet) (kv : string * string) : TagSet :=
  <[kv.1 := kv.2]> m.

(** The expression ends, after any sequence, with the end-of-text test. *)
Fixpoint ends_with_REnd (r : regex) : bool :=
  match r with
  | REnd => true
  | RSeq _ r2 => ends_with_REnd r2
  | _ => false
  end.

(** The text of an optional part followed by its colon. *)
Definition with_colon (x : string) : string :=
  if is_empty x then "" else x +:+ ":".

(** A query as [ParseQuery] would accept it back: aggregator, metric and
    downsample of the shapes [qRE] asks for, and tags of plain pairs without
    colons. *)
Definition well_formed_query (q : Query) : Prop :=
  (Aggregator q <> "" /\ str_forall word_char (Aggregator q) = true)
  /\ (Metric q <> "" /\ str_forall metric_char (Metric q) = true)
  /\ (Downsample q = ""
      \/ exists a b, Downsample q = a +:+ "-" +:+ b
                     /\ a <> "" /\ str_forall word_char a = true
                     /\ b <> "" /\ str_forall word_char b = true)
  /\ (forall k v, Tags q !! k = Some v ->
        plain_pair (k, v)
        /\ str_forall (not_char ":") k = true
        /\ str_forall (not_char ":") v = true).

(** The posts made so far are, without repetition, the entries of the cache:
    what holds of a cache that was new when the log of posts was empty. *)
Definition cache_matches_posts (c : Cache) (w : World) : Prop :=
  NoDup (posts w)
  /\ forall hb : string * string,
       hb ∈ posts w <-> hb.1 = host c /\ is_Some (cache c !! hb.2).

(** The shortest-form UTF-8 encodings of the Unicode scalar values: [p] is
    the encoding of [r]. *)
Inductive utf8_code : string -> Z -> Prop :=
| code1 (c0 : ascii) :
    byte_val c0 < 128 ->
    utf8_code (String c0 "") (byte_val c0)
| code2 (c0 c1 : ascii) :
    194 <= byte_val c0 < 224 ->
    128 <= byte_val c1 <= 191 ->
    utf8_code (String c0 (String c1 ""))
              ((byte_val c0 - 192) * 64 + (byte_val c1 - 128))
| code3 (c0 c1 c2 : ascii) :
    224 <= byte_val c0 < 240 ->
    128 <= byte_val c1 <= 191 ->
    (byte_val c0 = 224 -> 160 <= byte_val c1) ->
    (byte_val c0 = 237 -> byte_val c1 <= 159) ->
    128 <= byte_val c2 <= 191 ->
    utf8_code (String c0 (String c1 (String c2 "")))
              ((byte_val c0 - 224) * 4096 + (byte_val c1 - 128) * 64
               + (byte_val c2 - 128))
| code4 (c0 c1 c2 c3 : ascii) :
    240 <= byte_val c0 <= 244 ->
    128 <= byte_val c1 <= 191 ->
    (byte_val c0 = 240 -> 144 <= byte_val c1) ->
    (byte_val c0 = 244 -> byte_val c1 <= 143) ->
    128 <= byte_val c2 <= 191 ->
    128 <= byte_val c3 <= 191 ->
    utf8_code (String c0 (String c1 (String c2 (String c3 ""))))
              ((byte_val c0 - 240) * 262144 + (byte_val c1 - 128) * 4096
               + (byte_val c2 - 128) * 64 + (byte_val c3 - 128)).

(** The bytes of [s] that satisfy [p], in order. *)
Fixpoint str_filter (p : ascii -> bool) (s : string) : string :=
  match s with
  | EmptyString => EmptyString
  | String c s' => if p c then String c (str_filter p s') else str_filter p s'
  end.

Definition is_ascii (c : ascii) : bool := byte_val c <? 128.

(** The ASCII characters OpenTSDB allows in a metric or a tag: the letters
    [A-Z] and [a-z], the digits, and [- _ . /]. *)
Definition ascii_keeps (c : ascii) : bool :=
  in_range "A" "Z" c || in_range "a" "z" c || in_range "0" "9" c
  || Ascii.eqb c "-" || Ascii.eqb c "_" || Ascii.eqb c "." || Ascii.eqb c "/".

(** [url.Values]: every key with its values, in the order they were given. *)
Abbreviation Values := (gmap string (list string)).

(** [Values.Get]: the first value of the key, or the empty string. *)
Definition Values_Get (v : Values) (key : string) : string :=
  match v !! key with
  | Some (x :: _) => x
  | _ => ""
  end.

(** The errors of [ParseRequest]: its own two, and those it passes on. *)
Inductive request_error : Type :=
| ErrMissingStart (req : string)        (* "tsdb: missing start: %s" *)
| ErrMissingM (req : string)            (* "tsdb: missing m: %s" *)
| ErrPassed (e : error).                (* from url.ParseQuery or ParseQuery *)

(** The loop of [ParseRequest] over the values of [m]. *)
Fixpoint parse_queries (ms : list string) (acc : list Query) : result (list Query) :=
  match ms with
  | [] => Ok acc
  | m :: rest =>
      match ParseQuery m with
      | Err e => Err e
      | Ok q => parse_queries rest (acc ++ [q])
      end
  end.

Definition empty_Request : Request :=
  mkRequest VNil VNil [] false false false false.

(** [ParseRequest]. [url_ParseQuery] is the library's decoder of a URL query
    string. *)
Definition ParseRequest (url_ParseQuery : string -> result Values) (req : string)
    : Request + request_error :=
  match url_ParseQuery req with
  | Err e => inr (ErrPassed e)
  | Ok v =>
      let s := Values_Get v "start" in
      if is_empty s then inr (ErrMissingStart req)
      else
        match parse_queries (default [] (v !! "m")) [] with
        | Err e => inr (ErrPassed e)
        | Ok qs =>
            if (length qs =? 0)%nat then inr (ErrMissingM req)
            else inl (mkRequest (VString s) VNil qs false false false false)
        end
  end.

(** A stand-in for [url.ParseQuery] in worked examples: pairs separated by
    ampersands, key and value around the first equals sign, no escapes. *)
Definition add_value (v : Values) (piece : string) : Values :=
  match SplitN2 piece "=" with
  | [k; x] => <[k := default [] (v !! k) ++ [x]]> v
  | _ => <[piece := default [] (v !! piece) ++ [""]]> v
  end.

Definition sample_url_ParseQuery (req : string) : result Values :=
  Ok (foldl add_value ∅ (Split req "&")).

(** The conversion [int64(v)] of [RequestFromJSON], on one field: only a
    [float64] is touched. [int64_of_float64] is Go's conversion, from the bit
    pattern of the float. *)
Definition float_field (int64_of_float64 : Z -> Z) (v : Value) : Value :=
  match v with
  | VFloat64 bits => VInt64 (int64_of_float64 bits)
  | _ => v
  end.

(** [RequestFromJSON]. [json_Unmarshal] is the library's decoder into a
    [Request]. *)
Definition RequestFromJSON (json_Unmarshal : string -> result Request)
    (int64_of_float64 : Z -> Z) (b : string) : result Request :=
  match json_Unmarshal b with
  | Err e => Err e
  | Ok r =>
      Ok (set_window r (float_field int64_of_float64 (Start r))
                       (float_field int64_of_float64 (End_ r)))
  end.

(** [fmt.Sprint] of a field: a string as it is, an [int64] in decimal, the
    nil interface as [<nil>]; [other] prints the remaining types. *)
Definition fmt_Sprint (other : Value -> string) (v : Value) : string :=
  match v with
  | VString s => s
  | VInt64 i => format_int i
  | VNil => "<nil>"
  | _ => other v
  end.

(** [Values.Add] *)
Definition Values_Add (v : Values) (key x : string) : Values :=
  <[key := default [] (v !! key) ++ [x]]> v.

(** The first loop of [Request.String]. [orders] holds, query by query, the
    order in which [Query.String] visits the tags; a query without one is
    written in the order of [map_to_list]. *)
Fixpoint add_queries (v : Values) (qs : list Query)
    (orders : list (list (string * string))) : Values :=
  match qs with
  | [] => v
  | q :: qs' =>
      let o := match orders with o :: _ => o | [] => map_to_list (Tags q) end in
      add_queries (Values_Add v "m" (Query_String q o)) qs' (tail orders)
  end.

(** The values [Request.String] hands to [Values.Encode]. *)
Definition Request_values (other : Value -> string) (r : Request)
    (orders : list (list (string * string))) : Values :=
  let v := add_queries ∅ (Queries r) orders in
  let v := Values_Add v "start" (fmt_Sprint other (Start r)) in
  let e := fmt_Sprint other (End_ r) in
  if negb (Value_is_nil (End_ r)) && negb (is_empty e)
  then Values_Add v "end" e
  else v.

(** [Request.String]. [url_Encode] is the library's [Values.Encode]. *)
Definition Request_String (url_Encode : Values -> string)
    (other : Value -> string) (r : Request)
    (orders : list (list (string * string))) : string :=
  url_Encode (Request_values other r orders).

(** A query as [ParseQuery] returns it for a text without rate options. *)
Definition clear_rate_options (q : Query) : Query :=
  mkQuery (Aggregator q) (Metric q) (Rate q) zero_RateOptions
          (Downsample q) (Tags q).

(** A stand-in for [Values.Encode] in worked examples: every pair as
    [key=value], joined by ampersands, no escapes. *)
Definition sample_url_Encode (v : Values) : string :=
  Join (flat_map (fun kx => map (fun x => kx.1 +:+ "=" +:+ x) kx.2)
                 (map_to_list v)) "&".

(** Case analysis on the integer comparisons of a goal, dropping the cases
    that arithmetic rules out. *)
Ltac split_tests :=
  repeat match goal with
         | |- context [?a <=? ?b] =>
             destruct (Z.leb_spec a b); try (exfalso; lia)
         | |- context [?a <? ?b] =>
             destruct (Z.ltb_spec a b); try (exfalso; lia)
         end.

Ltac split_all_tests :=
  repeat match goal with
         | |- context [?a =? ?b] =>
             destruct (Z.eqb_spec a b); try (exfalso; lia)
         end;
  split_tests.

(* ===================================================================== *)
(** * Properties *)
(* ===================================================================== *)

(** ** Strings *)

Lemma str_app_nil_r (s : string) : s +:+ "" = s.
Proof. induction s as [|c s IH]; simpl; [reflexivity | now rewrite IH]. Qed.

Lemma str_app_assoc (a b c : string) : (a +:+ b) +:+ c = a +:+ (b +:+ c).
Proof. induction a as [|x a IH]; simpl; [reflexivity | now rewrite IH]. Qed.

Lemma str_length_app (a b : string) :
  String.length (a +:+ b) = (String.length a + String.length b)%nat.
Proof. induction a as [|x a IH]; simpl; [reflexivity | now rewrite IH]. Qed.

Lemma str_length_zero (s : string) : (String.length s =? 0)%nat = is_empty s.
Proof. destruct s; reflexivity. Qed.

Lemma is_empty_true (s : string) : is_empty s = true <-> s = "".
Proof. destruct s; simpl; split; intros; congruence. Qed.

Lemma str_app_empty (a b : string) : a +:+ b = "" -> a = "" /\ b = "".
Proof. destruct a; simpl; intros H; [auto | discriminate]. Qed.

Lemma str_drop_length (n : nat) (s : string) :
  String.length (str_drop n s) = (String.length s - n)%nat.
Proof.
  revert s; induction n as [|n IH]; intros [|c s]; simpl; auto with arith.
Qed.

Lemma str_take_app (a b : string) : str_take (String.length a) (a +:+ b) = a.
Proof. induction a as [|x a IH]; simpl; [now destruct b | now rewrite IH]. Qed.

Lemma str_drop_app (a b : string) : str_drop (String.length a) (a +:+ b) = b.
Proof. induction a as [|x a IH]; simpl; auto. Qed.

(** ** [Clean] *)

Lemma DecodeRuneInString_size (c : ascii) (s : string) :
  (1 <= snd (DecodeRuneInString (String c s)))%nat.
Proof.
  unfold DecodeRuneInString.
  repeat match goal with
         | |- context [if ?b then _ else _] => destruct b
         | |- context [match ?t with EmptyString => _ | String _ _ => _ end] =>
             destruct t
         end; simpl; lia.
Qed.

Lemma string_of_rune_not_empty (r : Z) : is_empty (string_of_rune r) = false.
Proof.
  unfold string_of_rune.
  repeat match goal with |- context [if ?b then _ else _] => destruct b end;
    reflexivity.
Qed.

Lemma encode_runes_empty (l : list Z) : is_empty (encode_runes l) = true -> l = [].
Proof.
  destruct l as [|r l]; [reflexivity|]. simpl. intros H.
  apply is_empty_true, str_app_empty in H as [H _].
  apply is_empty_true in H. now rewrite string_of_rune_not_empty in H.
Qed.

(** The loop appends to [c] the encodings of the code points it keeps. *)
Lemma Clean_loop_filter (U : UnicodeTables) (fuel : nat) :
  forall s c,
    Clean_loop U fuel s c =
    c +:+ encode_runes (List.filter (clean_keeps U) (runes_of fuel s)).
Proof.
  induction fuel as [|fuel IH]; intros s c; simpl.
  - now rewrite str_app_nil_r.
  - destruct (is_empty s); [simpl; now rewrite str_app_nil_r|].
    destruct (DecodeRuneInString s) as [r size]. rewrite IH. simpl.
    destruct (clean_keeps U r); simpl; [now rewrite str_app_assoc | reflexivity].
Qed.

(** Decoding with more rounds than the string has bytes reads the same code
    points: [runes] reads the whole string. *)
Lemma runes_of_fuel (f1 : nat) :
  forall f2 s, (String.length s <= f1)%nat -> (String.length s <= f2)%nat ->
               runes_of f1 s = runes_of f2 s.
Proof.
  induction f1 as [|f1 IH]; intros f2 s H1 H2.
  - destruct s; [now destruct f2 | simpl in H1; lia].
  - destruct s as [|c s]; [now destruct f2|].
    destruct f2 as [|f2]; [simpl in H2; lia|].
    cbn [runes_of is_empty].
    pose proof (DecodeRuneInString_size c s) as Hsz.
    destruct (DecodeRuneInString (String c s)) as [r size]. simpl in Hsz.
    f_equal.
    assert (Hd : (String.length (str_drop size (String c s)) <= String.length s)%nat).
    { rewrite str_drop_length. simpl. lia. }
    simpl in H1, H2. apply IH; lia.
Qed.

Lemma runes_cons (c : ascii) (s : string) :
  runes (String c s) =
  fst (DecodeRuneInString (String c s))
  :: runes (str_drop (snd (DecodeRuneInString (String c s))) (String c s)).
Proof.
  unfold runes. cbn [String.length runes_of is_empty].
  pose proof (DecodeRuneInString_size c s) as Hsz.
  destruct (DecodeRuneInString (String c s)) as [r size]. simpl in *.
  f_equal. apply runes_of_fuel; [|lia].
  rewrite str_drop_length. simpl. lia.
Qed.

(** C4. For every input, [Clean] returns the code points of the input that
    are letters, digits or one of [- _ . /], in their order and re-encoded
    as UTF-8. It fails with the empty-input error exactly when the input is
    empty, and with the (different) empty-result error exactly when the input
    is not empty but no code point is kept. [Clean("")] and [Clean("#$%")]
    fail, and [Clean("cpu#1")] is ["cpu1"]. *)
Theorem Clean_filters_code_points (U : UnicodeTables) (s : string) :
  Clean U s =
    (if is_empty s then ("", Some ErrCleanZeroInput)
     else match List.filter (clean_keeps U) (runes s) with
          | [] => ("", Some ErrCleanZeroResult)
          | kept => (encode_runes kept, None)
          end)
  /\ ErrCleanZeroInput <> ErrCleanZeroResult
  /\ (snd (Clean U s) = Some ErrCleanZeroInput <-> s = "")
  /\ (snd (Clean U s) = Some ErrCleanZeroResult <->
      s <> "" /\ List.filter (clean_keeps U) (runes s) = [])
  /\ Clean U "" = ("", Some ErrCleanZeroInput)
  /\ Clean U "#$%" = ("", Some ErrCleanZeroResult)
  /\ Clean U "cpu#1" = ("cpu1", None).
Proof.
  assert (Heq : Clean U s =
    (if is_empty s then ("", Some ErrCleanZeroInput)
     else match List.filter (clean_keeps U) (runes s) with
          | [] => ("", Some ErrCleanZeroResult)
          | kept => (encode_runes kept, None)
          end)).
  { unfold Clean. rewrite str_length_zero.
    destruct (is_empty s) eqn:Hs.
    - apply is_empty_true in Hs. now subst.
    - rewrite Clean_loop_filter. cbn [String.append]. fold (runes s).
      rewrite str_length_zero.
      destruct (List.filter (clean_keeps U) (runes s)) as [|r kept] eqn:Hk.
      + reflexivity.
      + destruct (is_empty (encode_runes (r :: kept))) eqn:He; [|reflexivity].
        apply encode_runes_empty in He. discriminate. }
  split; [exact Heq|]. split; [discriminate|].
  split; [|split].
  - rewrite Heq. destruct (is_empty s) eqn:Hs.
    + apply is_empty_true in Hs. subst. simpl. tauto.
    + split; [|intros ->; discriminate].
      destruct (List.filter _ _); simpl; discriminate.
  - rewrite Heq. destruct (is_empty s) eqn:Hs.
    + apply is_empty_true in Hs. subst. simpl.
      split; [discriminate | intros [H _]; congruence].
    + assert (s <> "") by (intros ->; discriminate).
      destruct (List.filter _ _); simpl; split; try tauto; try discriminate.
      intros [_ ?]; discriminate.
  - repeat split; reflexivity.
Qed.

(** ** [strings.HasSuffix] and [strings.TrimSuffix] *)

Lemma str_take_drop (n : nat) (s : string) : str_take n s +:+ str_drop n s = s.
Proof.
  revert s; induction n as [|n IH]; intros [|c s]; simpl; try reflexivity.
  now rewrite IH.
Qed.

Lemma HasSuffix_app (p suffix : string) : HasSuffix (p +:+ suffix) suffix = true.
Proof.
  unfold HasSuffix. rewrite str_length_app.
  replace (String.length p + String.length suffix - String.length suffix)%nat
    with (String.length p) by lia.
  rewrite str_drop_app, String.eqb_refl, andb_true_r.
  apply Nat.leb_le. lia.
Qed.

Lemma HasSuffix_inv (s suffix : string) :
  HasSuffix s suffix = true -> exists p, s = p +:+ suffix.
Proof.
  unfold HasSuffix. intros [_ H]%andb_prop. apply String.eqb_eq in H.
  exists (str_take (String.length s - String.length suffix) s).
  transitivity (str_take (String.length s - String.length suffix) s
                +:+ str_drop (String.length s - String.length suffix) s).
  - symmetry. apply str_take_drop.
  - now rewrite H.
Qed.

Lemma TrimSuffix_app (p suffix : string) : TrimSuffix (p +:+ suffix) suffix = p.
Proof.
  unfold TrimSuffix. rewrite HasSuffix_app, str_length_app.
  replace (String.length p + String.length suffix - String.length suffix)%nat
    with (String.length p) by lia.
  apply str_take_app.
Qed.

(** ** [TagSet.Subset] *)

Lemma TagSet_Subset_true (t o : TagSet) :
  TagSet_Subset t o = true <-> (forall k v, o !! k = Some v -> t !! k = Some v).
Proof.
  unfold TagSet_Subset. rewrite forallb_forall. split.
  - intros H k v Hkv.
    apply elem_of_map_to_list, list_elem_of_In in Hkv.
    specialize (H _ Hkv). simpl in H.
    destruct (t !! k) as [tv|]; [|discriminate].
    apply String.eqb_eq in H. now subst.
  - intros H [k v] Hin. simpl.
    apply list_elem_of_In, elem_of_map_to_list in Hin.
    rewrite (H _ _ Hin). apply String.eqb_refl.
Qed.

(** C9. [t.Subset(o)] is true exactly when every pair of [o] is a pair of [t];
    so it is true when [o] is made of some of [t]'s pairs, and false as soon
    as one key of [o] has another value in [t]. *)
Theorem TagSet_Subset_iff (t o : TagSet) :
  (TagSet_Subset t o = true <->
   forall k v, o !! k = Some v -> t !! k = Some v)
  /\ (o ⊆ t -> TagSet_Subset t o = true)
  /\ (forall k v v', o !! k = Some v -> t !! k = Some v' -> v <> v' ->
                     TagSet_Subset t o = false).
Proof.
  split; [apply TagSet_Subset_true|]. split.
  - intros Hsub. apply TagSet_Subset_true. intros k v Hkv.
    eapply lookup_weaken; eauto.
  - intros k v v' Ho Ht Hne.
    destruct (TagSet_Subset t o) eqn:Hs; [|reflexivity].
    pose proof (proj1 (TagSet_Subset_true t o) Hs k v Ho). congruence.
Qed.

Lemma TagSet_Subset_iff_witness :
  let t : TagSet := <["host" := "web01"]> (<["dc" := "ny"]> ∅) in
  let o : TagSet := <["host" := "web01"]> ∅ in
  let o' : TagSet := <["host" := "web02"]> ∅ in
  (o ⊆ t /\ TagSet_Subset t o = true)
  /\ (o' !! "host" = Some "web02" /\ t !! "host" = Some "web01"
      /\ TagSet_Subset t o' = false).
Proof.
  intros t o o'.
  assert (Ho : o ⊆ t).
  { apply map_subseteq_spec. intros k v. unfold o, t.
    destruct (decide (k = "host")) as [->|Hne].
    - rewrite !lookup_insert_eq. auto.
    - rewrite lookup_insert_ne, lookup_empty by congruence. discriminate. }
  split.
  - split; [exact Ho|].
    exact (proj1 (proj2 (TagSet_Subset_iff t o)) Ho).
  - assert (H1 : o' !! "host" = Some "web02") by reflexivity.
    assert (H2 : t !! "host" = Some "web01") by reflexivity.
    split; [exact H1|]. split; [exact H2|].
    refine (proj2 (proj2 (TagSet_Subset_iff t o')) "host" "web02" "web01" H1 H2 _).
    discriminate.
Defined.

(** ** [Cache.Query] *)

Section CacheProperties.

Variable E : Env.

Lemma cacheResult_eta (v : cacheResult) :
  mkCacheResult (cr_ResponseSet v) (cr_Err v) = v.
Proof. now destruct v. Qed.

(** A hit leaves the cache and the world as they are. *)
Lemma Cache_Query_hit (c : Cache) (r : Request) (s : string) (v : cacheResult)
    (w : World) :
  json_Marshal E r = Ok s -> cache c !! s = Some v ->
  Cache_Query E c r w = ((v, c), w).
Proof.
  intros Hm Hc. unfold Cache_Query. rewrite Hm, Hc, cacheResult_eta. reflexivity.
Qed.

(** A miss posts the request once and stores what came back under the key. *)
Lemma Cache_Query_miss (c : Cache) (r : Request) (s : string) (w : World) :
  json_Marshal E r = Ok s -> cache c !! s = None ->
  Cache_Query E c r w =
    ((transport E (length (posts w)) (host c) s,
      mkCache (host c)
        (<[s := transport E (length (posts w)) (host c) s]> (cache c))),
     mkWorld (ticks w) (posts w ++ [(host c, s)])).
Proof.
  intros Hm Hc. unfold Cache_Query, Request_Query, bind, ret.
  rewrite Hm, Hc. reflexivity.
Qed.

(** A request that cannot be marshalled is answered without touching the
    cache or the network. *)
Lemma Cache_Query_marshal_error (c : Cache) (r : Request) (e : error) (w : World) :
  json_Marshal E r = Err e ->
  Cache_Query E c r w = ((mkCacheResult [] (Some e), c), w).
Proof. intros Hm. unfold Cache_Query. now rewrite Hm. Qed.

(** Entries are never evicted or overwritten. *)
Lemma Cache_Query_keeps (c : Cache) (r : Request) (w : World) (k : string)
    (v : cacheResult) :
  cache c !! k = Some v ->
  cache (snd (fst (Cache_Query E c r w))) !! k = Some v.
Proof.
  intros Hk. unfold Cache_Query.
  destruct (json_Marshal E r) as [s|e] eqn:Hm; [|exact Hk].
  destruct (cache c !! s) as [v'|] eqn:Hc; [exact Hk|].
  unfold Request_Query, bind, ret. rewrite Hm. simpl.
  rewrite lookup_insert_ne; [exact Hk | congruence].
Qed.

Lemma Cache_Query_all_keeps (rs : list Request) :
  forall (c : Cache) (w : World) (k : string) (v : cacheResult),
    cache c !! k = Some v ->
    cache (fst (Cache_Query_all E c rs w)) !! k = Some v.
Proof.
  induction rs as [|r rs IH]; intros c w k v Hk; [exact Hk|].
  cbn [Cache_Query_all]. unfold bind.
  pose proof (Cache_Query_keeps c r w k v Hk) as Hk'.
  destruct (Cache_Query E c r w) as [[res c'] w']. simpl in Hk'.
  now apply IH.
Qed.

(** C2. Two calls of [Cache.Query] with requests that serialize alike, with
    any number of other queries on the same cache in between, invoke the
    transport at most once between them: the first at most once, the second
    never. The second returns exactly the pair (response set and error) the
    first returned, which is the pair the cache holds under their key: a
    stored error is replayed, not retried. *)
Theorem Cache_Query_idempotent (c : Cache) (r1 r2 : Request)
    (between : list Request) (w : World) :
  json_Marshal E r1 = json_Marshal E r2 ->
  exists (res : cacheResult) (c1 c2 : Cache) (w1 w2 : World),
    Cache_Query E c r1 w = ((res, c1), w1)
    /\ Cache_Query_all E c1 between w1 = (c2, w2)
    /\ Cache_Query E c2 r2 w2 = ((res, c2), w2)
    /\ (length (posts w1) <= length (posts w) + 1)%nat
    /\ (forall s, json_Marshal E r1 = Ok s ->
          cache c1 !! s = Some res /\ cache c2 !! s = Some res).
Proof.
  intros Heq.
  destruct (Cache_Query E c r1 w) as [[res c1] w1] eqn:Hfirst.
  destruct (Cache_Query_all E c1 between w1) as [c2 w2] eqn:Hmid.
  exists res, c1, c2, w1, w2.
  split; [reflexivity|]. split; [exact Hmid|].
  assert (Hkeep : forall s, cache c1 !! s = Some res -> cache c2 !! s = Some res).
  { intros s Hs.
    pose proof (Cache_Query_all_keeps between c1 w1 s res Hs) as H.
    now rewrite Hmid in H. }
  destruct (json_Marshal E r1) as [s|e] eqn:H1; symmetry in Heq.
  - assert (Hstored : cache c1 !! s = Some res
                      /\ (length (posts w1) <= length (posts w) + 1)%nat).
    { destruct (cache c !! s) as [v|] eqn:Hc.
      - rewrite (Cache_Query_hit c r1 s v w H1 Hc) in Hfirst.
        injection Hfirst as <- <- <-. split; [exact Hc | lia].
      - rewrite (Cache_Query_miss c r1 s w H1 Hc) in Hfirst.
        injection Hfirst as <- <- <-. simpl.
        split; [apply lookup_insert_eq | rewrite length_app; simpl; lia]. }
    destruct Hstored as [Hs Hlen].
    split; [apply Cache_Query_hit with (s := s); auto|].
    split; [exact Hlen|].
    intros s' [= <-]. auto.
  - rewrite (Cache_Query_marshal_error c r1 e w H1) in Hfirst.
    injection Hfirst as <- <- <-.
    split; [apply Cache_Query_marshal_error; exact Heq|].
    split; [lia | discriminate].
Qed.

End CacheProperties.

(** The second of two identical failing queries replays the stored error,
    also after a query for another window: the remote end is asked once for
    the repeated request. *)
Lemma Cache_Query_idempotent_witness :
  let E := sample_Env [0] in
  let r := request_of (VInt64 0) (VInt64 3600) in
  let w := mkWorld O [("h", "a"); ("h", "b")] in
  exists res c1 c2 w1 w2,
    Cache_Query E (NewCache "h") r w = ((res, c1), w1)
    /\ Cache_Query_all E c1 [request_of (VInt64 0) (VInt64 60)] w1 = (c2, w2)
    /\ Cache_Query E c2 r w2 = ((res, c2), w2)
    /\ (length (posts w1) <= length (posts w) + 1)%nat
    /\ (forall s, json_Marshal E r = Ok s ->
          cache c1 !! s = Some res /\ cache c2 !! s = Some res).
Proof.
  intros E r w.
  exact (Cache_Query_idempotent E (NewCache "h") r r
           [request_of (VInt64 0) (VInt64 60)] w eq_refl).
Defined.

Lemma Cache_Query_replays_error :
  let E := sample_Env [0] in
  let r := request_of (VInt64 0) (VInt64 3600) in
  let w := mkWorld O [("h", "a"); ("h", "b")] in
  let first := Cache_Query E (NewCache "h") r w in
  let second := Cache_Query E (snd (fst first)) r (snd first) in
  cr_Err (fst (fst first))
    = Some (ErrExternal "tsdb: start=0 end=3600 queries=sum:cpu/0/0/0 flags=0000")
  /\ fst (fst second) = fst (fst first)
  /\ length (posts (snd second)) = 3%nat.
Proof. vm_compute. repeat split. Qed.

(** ** 64-bit arithmetic *)

Lemma wrap64_id (z : Z) : minInt64 <= z <= maxInt64 -> wrap64 z = z.
Proof.
  unfold wrap64, minInt64, maxInt64. intros H.
  rewrite Z.mod_small; lia.
Qed.

Lemma Time_Sub_range (t u : Time) : minInt64 <= Time_Sub t u <= maxInt64.
Proof.
  unfold Time_Sub, minInt64, maxInt64.
  destruct (Z.ltb_spec (UnixNano t - UnixNano u) (- 2 ^ 63)); [lia|].
  destruct (Z.ltb_spec (2 ^ 63 - 1) (UnixNano t - UnixNano u)); lia.
Qed.

Lemma Time_Sub_exact (t u : Time) :
  minInt64 <= UnixNano t - UnixNano u <= maxInt64 ->
  Time_Sub t u = UnixNano t - UnixNano u.
Proof.
  unfold Time_Sub. intros H.
  destruct (Z.ltb_spec (UnixNano t - UnixNano u) minInt64); [lia|].
  destruct (Z.ltb_spec maxInt64 (UnixNano t - UnixNano u)); lia.
Qed.

Lemma Time_Sub_negative (t u : Time) :
  UnixNano t < UnixNano u -> Time_Sub t u < 0.
Proof.
  unfold Time_Sub, minInt64, maxInt64. intros H.
  destruct (Z.ltb_spec (UnixNano t - UnixNano u) (- 2 ^ 63)); [lia|].
  destruct (Z.ltb_spec (2 ^ 63 - 1) (UnixNano t - UnixNano u)); lia.
Qed.

(** ** [ParseTime] *)

Section TimeProperties.

Variable E : Env.

Lemma ParseTime_unfold (v : Value) (w : World) :
  ParseTime E v w =
    (match v with
     | VString i =>
         if negb (is_empty i) then
           if HasSuffix i "-ago" then
             match ParseDuration E (TrimSuffix i "-ago") with
             | Err e => (clock E (ticks w), Some e)
             | Ok d => (Time_Add (clock E (ticks w)) (wrap64 (- d)), None)
             end
           else ParseAbsTime E i
         else (clock E (ticks w), None)
     | VInt64 i => (time_Unix i, None)
     | _ => (zero_Time, Some ErrTimeType)
     end, tick w).
Proof.
  unfold ParseTime, bind, time_Now, ret, tick. simpl.
  destruct v as [|i|i|b|t]; try reflexivity.
  destruct (negb (is_empty i)); [|reflexivity].
  destruct (HasSuffix i "-ago"); [|reflexivity].
  destruct (ParseDuration E (TrimSuffix i "-ago")); reflexivity.
Qed.

(** C6. [ParseTime] reads the clock once. With [now] that reading: the empty
    string gives [now]; [p-ago] gives [now] minus the duration the resolver
    returns for [p], or the resolver's error; any other non-empty string
    gives [ParseAbsTime] of it; an [int64] gives that many seconds after the
    epoch; a value of any other type gives the type error. *)
Theorem ParseTime_cases (v : Value) (w : World) :
  (v = VString "" -> ParseTime E v w = ((clock E (ticks w), None), tick w))
  /\ (forall p, v = VString (p +:+ "-ago") ->
        ParseTime E v w =
          (match ParseDuration E p with
           | Ok d => (Time_Add (clock E (ticks w)) (wrap64 (- d)), None)
           | Err e => (clock E (ticks w), Some e)
           end, tick w))
  /\ (forall p d, v = VString (p +:+ "-ago") -> ParseDuration E p = Ok d ->
        minInt64 < d <= maxInt64 ->
        snd (fst (ParseTime E v w)) = None
        /\ UnixNano (fst (fst (ParseTime E v w))) = UnixNano (clock E (ticks w)) - d)
  /\ (forall i, v = VString i -> i <> "" -> (forall p, i <> p +:+ "-ago") ->
        ParseTime E v w = (ParseAbsTime E i, tick w))
  /\ (forall i, v = VInt64 i ->
        ParseTime E v w = ((time_Unix i, None), tick w)
        /\ Time_Unix (time_Unix i) = i)
  /\ ((forall s, v <> VString s) -> (forall i, v <> VInt64 i) ->
        ParseTime E v w = ((zero_Time, Some ErrTimeType), tick w)).
Proof.
  rewrite ParseTime_unfold.
  assert (Hago : forall p, is_empty (p +:+ "-ago") = false).
  { intros p. destruct (is_empty (p +:+ "-ago")) eqn:He; [|reflexivity].
    apply is_empty_true, str_app_empty in He as [_ He]. discriminate. }
  split; [intros ->; reflexivity|].
  split.
  { intros p ->. rewrite Hago, HasSuffix_app, TrimSuffix_app. simpl.
    destruct (ParseDuration E p); reflexivity. }
  split.
  { intros p d -> Hd Hr. rewrite Hago, HasSuffix_app, TrimSuffix_app, Hd. simpl.
    split; [reflexivity|]. rewrite wrap64_id; unfold minInt64, maxInt64 in *; lia. }
  split.
  { intros i -> Hne Hsuf.
    destruct (is_empty i) eqn:He; [apply is_empty_true in He; contradiction|].
    simpl. destruct (HasSuffix i "-ago") eqn:Hs; [|reflexivity].
    apply HasSuffix_inv in Hs as [p Hp]. now destruct (Hsuf p). }
  split.
  { intros i ->. split; [reflexivity|].
    unfold Time_Unix, time_Unix. simpl. apply Z.div_mul. discriminate. }
  intros Hs Hi. destruct v as [|s|i|b|t]; try reflexivity.
  - now destruct (Hs s).
  - now destruct (Hi i).
Qed.

(** ** [GetDuration] *)

Lemma GetDuration_unfold (r : Request) (w : World) :
  GetDuration E r w =
    match Start r with
    | VString EmptyString => ((0, Some ErrStartMissing), w)
    | _ =>
        let '((start, err), w1) := ParseTime E (Start r) w in
        match err with
        | Some e => ((0, Some e), w1)
        | None =>
            let '((end_, err'), w2) := resolve_end E r w1 in
            match err' with
            | Some e => ((0, Some e), w2)
            | None => ((Time_Sub end_ start, None), w2)
            end
        end
    end.
Proof.
  unfold GetDuration, bind, ret.
  destruct (Start r) as [|[|c s]|i|b|t]; try reflexivity;
    destruct (ParseTime E _ w) as [[start [e|]] w1]; try reflexivity;
    destruct (resolve_end E r w1) as [[end_ [e|]] w2]; reflexivity.
Qed.

(** C7. [GetDuration] fails exactly when the start is the empty string, or
    [ParseTime] fails on the start, or there is an end and [ParseTime] fails
    on it; an absent end is the clock's reading at that moment. When it
    succeeds it returns [end.Sub(start)]: the difference of the two instants
    (exactly so whenever the difference fits a [Duration]), negative when the
    end is before the start, and still no error. *)
Theorem GetDuration_spec (r : Request) (w : World) :
  let st := ParseTime E (Start r) w in
  let en := resolve_end E r (snd st) in
  (snd (fst (GetDuration E r w)) <> None <->
     Start r = VString ""
     \/ snd (fst st) <> None
     \/ (End_ r <> VNil /\ snd (fst (ParseTime E (End_ r) (snd st))) <> None))
  /\ (End_ r = VNil ->
      en = ((clock E (ticks (snd st)), None), tick (snd st)))
  /\ (End_ r <> VNil -> en = ParseTime E (End_ r) (snd st))
  /\ (snd (fst (GetDuration E r w)) = None ->
      GetDuration E r w = ((Time_Sub (fst (fst en)) (fst (fst st)), None), snd en)
      /\ (minInt64 <= UnixNano (fst (fst en)) - UnixNano (fst (fst st)) <= maxInt64 ->
          fst (fst (GetDuration E r w))
          = UnixNano (fst (fst en)) - UnixNano (fst (fst st)))
      /\ (UnixNano (fst (fst en)) < UnixNano (fst (fst st)) ->
          fst (fst (GetDuration E r w)) < 0)).
Proof.
  cbv zeta. rewrite GetDuration_unfold.
  destruct (ParseTime E (Start r) w) as [[start es] w1] eqn:Hst. simpl.
  assert (Hnil : End_ r = VNil ->
                 resolve_end E r w1 = ((clock E (ticks w1), None), tick w1)).
  { intros H. unfold resolve_end. rewrite H. reflexivity. }
  assert (Hsome : End_ r <> VNil -> resolve_end E r w1 = ParseTime E (End_ r) w1).
  { intros H. unfold resolve_end. destruct (End_ r); [contradiction|..]; reflexivity. }
  split; [|split; [exact Hnil|split; [exact Hsome|]]].
  - destruct (decide (Start r = VString "")) as [Heq|Hne].
    { rewrite Heq. simpl. split; [auto | discriminate]. }
    assert (Hskip : forall (X : Duration * option error * World),
               match Start r with
               | VString EmptyString => (0, Some ErrStartMissing, w)
               | _ => X
               end = X).
    { intros X. destruct (Start r) as [|[|c s]|i|b|t]; try reflexivity.
      now destruct Hne. }
    rewrite Hskip. destruct es as [e|]; simpl.
    { split; [intros _; right; left; discriminate | discriminate]. }
    destruct (resolve_end E r w1) as [[end_ [e|]] w2] eqn:Hen; simpl.
    + split; [|discriminate]. intros _. right. right.
      destruct (decide (End_ r = VNil)) as [Hn|Hn].
      * specialize (Hnil Hn). discriminate.
      * split; [exact Hn|]. rewrite <- (Hsome Hn). simpl. discriminate.
    + split; [intros H; now destruct H|].
      intros [H|[H|[Hn H]]]; [contradiction | now destruct H |].
      rewrite <- (Hsome Hn) in H. now destruct H.
  - intros Hok.
    destruct (Start r) as [|[|c s]|i|b|t] eqn:HS; try (simpl in Hok; discriminate);
      (destruct es as [e|]; simpl in Hok |- *; [discriminate|];
       destruct (resolve_end E r w1) as [[end_ [e|]] w2];
       simpl in Hok |- *; [discriminate|];
       split; [reflexivity|]; split;
       [apply Time_Sub_exact | apply Time_Sub_negative]).
Qed.

End TimeProperties.

Lemma ParseTime_cases_witness :
  let E := sample_Env [50000 * Second] in
  let v := VString ("1h" +:+ "-ago") in
  snd (fst (ParseTime E v world0)) = None
  /\ UnixNano (fst (fst (ParseTime E v world0)))
     = UnixNano (clock E (ticks world0)) - 3600 * Second.
Proof.
  intros E v.
  refine (proj1 (proj2 (proj2 (ParseTime_cases E v world0)))
            "1h" (3600 * Second) eq_refl eq_refl _).
  unfold minInt64, maxInt64, Second. lia.
Defined.

Lemma GetDuration_spec_witness :
  let E := sample_Env [0] in
  let r := request_of (VInt64 100) (VInt64 50) in
  GetDuration E r world0 = ((-50 * Second, None), tick (tick world0))
  /\ fst (fst (GetDuration E r world0)) < 0.
Proof.
  intros E r.
  destruct (proj2 (proj2 (proj2 (GetDuration_spec E r world0))) eq_refl)
    as (Heq & _ & Hneg).
  split; [exact Heq|]. apply Hneg. simpl. unfold Second. lia.
Defined.

(** ** [AutoDownsample] *)

Section DownsampleProperties.

Variable E : Env.

Lemma GetDuration_range (r : Request) (w w' : World) (cd : Duration) :
  GetDuration E r w = ((cd, None), w') -> minInt64 <= cd <= maxInt64.
Proof.
  rewrite GetDuration_unfold. intros H.
  destruct (Start r) as [|[|c s]|i|b|t]; try discriminate;
    destruct (ParseTime E _ w) as [[start [e|]] w1]; try discriminate;
    destruct (resolve_end E r w1) as [[end_ [e|]] w2]; try discriminate;
    injection H as <- _; apply Time_Sub_range.
Qed.

Lemma quot_nonneg (cd l : Z) :
  0 < l -> 0 <= cd -> Z.quot cd l = cd / l /\ 0 <= cd / l <= cd.
Proof.
  intros Hl Hc. split; [apply Z.quot_div_nonneg; lia|].
  split; [apply Z.div_pos; lia|].
  apply Z.div_le_upper_bound; [lia | nia].
Qed.

Lemma quot_neg (cd l : Z) : 0 < l -> cd < 0 -> cd <= Z.quot cd l <= 0.
Proof.
  intros Hl Hc.
  replace cd with (- (- cd)) by lia. rewrite Z.quot_opp_l by lia.
  destruct (quot_nonneg (- cd) l Hl) as [-> ?]; lia.
Qed.

(** The two quotients Go computes by truncation are the floors the interval
    is specified with, because the interval is only used when it is at least
    15 seconds. *)
Lemma bucket_arith (cd l : Z) :
  0 < l -> minInt64 <= cd <= maxInt64 ->
  wrap64 (Z.quot cd l) = Z.quot cd l
  /\ (Z.quot cd l <? Second * 15) = (cd <? l * (15 * Second))
  /\ (Second * 15 <= Z.quot cd l ->
      Duration_whole_seconds (Z.quot cd l) = cd / (l * Second)).
Proof.
  intros Hl Hr. unfold Duration_whole_seconds, Second.
  destruct (Z.le_gt_cases 0 cd) as [Hc|Hc].
  - destruct (quot_nonneg cd l Hl Hc) as [Hq Hb]. rewrite Hq.
    split; [apply wrap64_id; unfold minInt64, maxInt64 in *; lia|].
    split.
    + destruct (Z.ltb_spec (cd / l) (1000000000 * 15)) as [H|H];
        destruct (Z.ltb_spec cd (l * (15 * 1000000000))) as [H'|H'];
        try reflexivity; exfalso.
      * assert (l * (15 * 1000000000) / l <= cd / l)
          by (apply Z.div_le_mono; lia).
        rewrite Z.mul_comm, Z.div_mul in H0 by lia. lia.
      * assert (cd / l < 15 * 1000000000)
          by (apply Z.div_lt_upper_bound; lia). lia.
    + intros Hge. rewrite Z.quot_div_nonneg by lia.
      rewrite Z.div_div by lia. reflexivity.
  - pose proof (quot_neg cd l Hl Hc) as Hb.
    split; [apply wrap64_id; unfold minInt64, maxInt64 in *; lia|].
    split; [|lia].
    destruct (Z.ltb_spec (Z.quot cd l) (1000000000 * 15));
      destruct (Z.ltb_spec cd (l * (15 * 1000000000))); try reflexivity; lia.
Qed.

(** A target of zero points is refused before anything else is looked at. *)
Lemma AutoDownsample_zero (r : Request) (w : World) :
  AutoDownsample E r 0 w = ((Some ErrTargetLength, r), w).
Proof. reflexivity. Qed.

(** C5. When the window's duration [cd] resolves and the target count [l] is
    positive: if [cd / l] is below 15 seconds the call succeeds and leaves
    the request as it is; otherwise it succeeds and every query's downsample
    becomes the whole number of seconds in [cd / l] followed by [s-avg],
    whatever it was before. *)
Theorem AutoDownsample_spec (r : Request) (l : Z) (w w' : World) (cd : Duration) :
  0 < l ->
  GetDuration E r w = ((cd, None), w') ->
  AutoDownsample E r l w =
    ((None,
      if cd <? l * (15 * Second) then r
      else set_Queries r
             (map (set_Downsample (format_int (cd / (l * Second)) +:+ "s-avg"))
                  (Queries r))),
     w').
Proof.
  intros Hl Hgd.
  pose proof (GetDuration_range r w w' cd Hgd) as Hr.
  destruct (bucket_arith cd l Hl Hr) as (Hw & Hlt & Hsec).
  unfold AutoDownsample.
  destruct (Z.eqb_spec l 0) as [->|_]; [lia|].
  unfold bind, ret. rewrite Hgd, Hw, Hlt.
  destruct (Z.ltb_spec cd (l * (15 * Second))) as [Hc|Hc]; [reflexivity|].
  rewrite Hsec; [reflexivity|].
  destruct (Z.ltb_spec (Z.quot cd l) (Second * 15)) as [H|H]; [|exact H].
  destruct (Z.ltb_spec cd (l * (15 * Second))); [lia | discriminate].
Qed.

End DownsampleProperties.

(** A one-hour window with 4 target points gets [900s-avg], replacing the
    downsample that was there; a ten-second window with 1000 target points is
    left alone. *)
Lemma AutoDownsample_spec_witness :
  let E := sample_Env [0] in
  let q := set_Downsample "1m-max" cpu_query in
  let hour := mkRequest (VInt64 0) (VInt64 3600) [q; cpu_query] false false false false in
  let ten := request_of (VInt64 0) (VInt64 10) in
  AutoDownsample E hour 4 world0 =
    ((None, set_Queries hour [set_Downsample "900s-avg" q;
                              set_Downsample "900s-avg" cpu_query]),
     tick (tick world0))
  /\ AutoDownsample E ten 1000 world0 = ((None, ten), tick (tick world0)).
Proof.
  intros E q hour ten. split.
  - refine (AutoDownsample_spec E hour 4 world0 (tick (tick world0))
              (3600 * Second) _ eq_refl). lia.
  - refine (AutoDownsample_spec E ten 1000 world0 (tick (tick world0))
              (10 * Second) _ eq_refl). lia.
Defined.

(** ** [DateCache.Query] *)

Section DateCacheProperties.

Variable E : Env.

Lemma DateCache_window_unfold (c : DateCache) (r : Request) (w : World) :
  DateCache_window E c r w =
    let '((start, err), w1) := ParseTime E (Start r) w in
    match err with
    | Some e => (Err e, w1)
    | None =>
        let '((end_, err'), w2) := resolve_end E r w1 in
        match err' with
        | Some e => (Err e, w2)
        | None =>
            (Ok (set_window r
                   (VInt64 (Time_Unix (Time_Add start (Time_Sub (now c) end_))))
                   (VInt64 (Time_Unix (Time_Add end_ (Time_Sub (now c) end_))))),
             w2)
        end
    end.
Proof.
  unfold DateCache_window, bind, ret.
  destruct (ParseTime E (Start r) w) as [[start [e|]] w1]; [reflexivity|].
  destruct (resolve_end E r w1) as [[end_ [e|]] w2]; reflexivity.
Qed.

(** The difference of two floors of instants [W] nanoseconds apart lies
    between the floor and the ceiling of [W] in seconds. *)
Lemma floor_difference (a W : Z) :
  W / Second <= a / Second - (a - W) / Second <= - ((- W) / Second)
  /\ (W mod Second = 0 -> a / Second - (a - W) / Second = W / Second).
Proof.
  unfold Second. split; [split|intros H]; Z.div_mod_to_equations; lia.
Qed.

(** C10, as the code has it. When the start and the end of the window
    resolve, and the shift from the resolved end to the reference instant
    fits a [Duration], the normalized [End] is the reference instant in epoch
    seconds. The normalized length [End - Start] is the resolved length in
    seconds when that is a whole number of seconds; otherwise it is that
    length rounded down or rounded up, depending on where the reference
    instant falls within its second. *)
Theorem DateCache_window_spec (c : DateCache) (r : Request) (w w1 w2 : World)
    (st en : Time) :
  ParseTime E (Start r) w = ((st, None), w1) ->
  resolve_end E r w1 = ((en, None), w2) ->
  minInt64 <= UnixNano (now c) - UnixNano en <= maxInt64 ->
  exists s' e' : Z,
    DateCache_window E c r w = (Ok (set_window r (VInt64 s') (VInt64 e')), w2)
    /\ e' = Time_Unix (now c)
    /\ (UnixNano en - UnixNano st) / Second <= e' - s'
       <= - ((- (UnixNano en - UnixNano st)) / Second)
    /\ ((UnixNano en - UnixNano st) mod Second = 0 ->
        e' - s' = (UnixNano en - UnixNano st) / Second).
Proof.
  intros Hst Hen Hfit.
  rewrite DateCache_window_unfold, Hst, Hen.
  rewrite (Time_Sub_exact _ _ Hfit).
  eexists _, _. split; [reflexivity|].
  unfold Time_Unix, Time_Add. cbn [UnixNano].
  replace (UnixNano en + (UnixNano (now c) - UnixNano en))
    with (UnixNano (now c)) by lia.
  replace (UnixNano st + (UnixNano (now c) - UnixNano en))
    with (UnixNano (now c) - (UnixNano en - UnixNano st)) by lia.
  split; [reflexivity|]. apply floor_difference.
Qed.

(** A relative start with no end: the normalized start depends on how far
    the clock moved between the reading [t1] that [ParseTime] takes and the
    reading [t2] taken for the end. *)
Lemma DateCache_window_relative (c : DateCache) (r : Request) (w : World)
    (p : string) (d : Duration) :
  Start r = VString (p +:+ "-ago") -> End_ r = VNil ->
  ParseDuration E p = Ok d -> minInt64 < d <= maxInt64 ->
  let t1 := UnixNano (clock E (ticks w)) in
  let t2 := UnixNano (clock E (S (ticks w))) in
  minInt64 <= UnixNano (now c) - t2 <= maxInt64 ->
  DateCache_window E c r w =
    (Ok (set_window r
           (VInt64 ((UnixNano (now c) - d - (t2 - t1)) / Second))
           (VInt64 (UnixNano (now c) / Second))),
     tick (tick w)).
Proof.
  intros HS HE Hd Hr t1 t2 Hfit.
  rewrite DateCache_window_unfold, ParseTime_unfold, HS.
  assert (Hne : is_empty (p +:+ "-ago") = false).
  { destruct (is_empty (p +:+ "-ago")) eqn:He; [|reflexivity].
    apply is_empty_true, str_app_empty in He as [_ He]. discriminate. }
  rewrite Hne, HasSuffix_app, TrimSuffix_app, Hd. cbn [negb].
  unfold resolve_end. rewrite HE. cbn -[Time_Sub Z.div Z.sub].
  rewrite Time_Sub_exact by exact Hfit.
  rewrite wrap64_id by (unfold minInt64, maxInt64 in *; lia).
  unfold Time_Unix, Time_Add. cbn [UnixNano]. fold t1 t2.
  repeat f_equal; lia.
Qed.

End DateCacheProperties.

(** A window of half a second, resolved at one instant, is normalized to a
    window one second long. *)
Lemma DateCache_window_spec_witness :
  let E := sample_Env [50000 * Second] in
  let r := request_of (VString "500ms-ago") VNil in
  exists s' e' : Z,
    DateCache_window E reference_cache r world0
      = (Ok (set_window r (VInt64 s') (VInt64 e')), tick (tick world0))
    /\ e' = Time_Unix (now reference_cache)
    /\ (500 * Millisecond) / Second <= e' - s'
       <= - ((- (500 * Millisecond)) / Second)
    /\ ((500 * Millisecond) mod Second = 0 ->
        e' - s' = (500 * Millisecond) / Second).
Proof.
  intros E r.
  refine (DateCache_window_spec E reference_cache r world0 (tick world0)
            (tick (tick world0))
            (mkTime (50000 * Second - 500 * Millisecond))
            (mkTime (50000 * Second)) eq_refl eq_refl _).
  split; vm_compute; discriminate.
Defined.

(** The statement of C10 fails. A resolved window of 0.5 seconds, which
    truncates to 0, is normalized to [End - Start] = 1; and a window that
    resolves to one hour and one nanosecond, because the clock advanced by a
    nanosecond between the two readings, is normalized to 3601 seconds. *)
Lemma DateCache_window_length_counterexample :
  (let E := sample_Env [50000 * Second] in
   let r := request_of (VString "500ms-ago") VNil in
   ~ (forall st en w1 w2 s' e',
        ParseTime E (Start r) world0 = ((st, None), w1) ->
        resolve_end E r w1 = ((en, None), w2) ->
        DateCache_window E reference_cache r world0
          = (Ok (set_window r (VInt64 s') (VInt64 e')), w2) ->
        e' = Time_Unix (now reference_cache)
        /\ e' - s' = Z.quot (UnixNano en - UnixNano st) Second))
  /\ (let E := sample_Env [50000 * Second; 50000 * Second + 1] in
      let r := request_of (VString "1h-ago") VNil in
      ~ (forall st en w1 w2 s' e',
           ParseTime E (Start r) world0 = ((st, None), w1) ->
           resolve_end E r w1 = ((en, None), w2) ->
           DateCache_window E reference_cache r world0
             = (Ok (set_window r (VInt64 s') (VInt64 e')), w2) ->
           e' = Time_Unix (now reference_cache)
           /\ e' - s' = Z.quot (UnixNano en - UnixNano st) Second)).
Proof.
  split; intros E r H.
  - specialize (H (mkTime (50000 * Second - 500 * Millisecond))
                  (mkTime (50000 * Second)) (tick world0) (tick (tick world0))
                  9999 10000 eq_refl eq_refl eq_refl).
    destruct H as [_ H]. vm_compute in H. discriminate.
  - specialize (H (mkTime (50000 * Second - Hour))
                  (mkTime (50000 * Second + 1)) (tick world0) (tick (tick world0))
                  6399 10000 eq_refl eq_refl eq_refl).
    destruct H as [_ H]. vm_compute in H. discriminate.
Qed.

(** Beyond the range of a [Duration] the shift saturates, and the normalized
    end is no longer the reference instant: a window ending in the year 1653
    is moved by 292 years only. *)
Lemma DateCache_window_saturated_shift :
  let E := sample_Env [0] in
  let r := request_of (VInt64 (-10000003600)) (VInt64 (-10000000000)) in
  exists s' e',
    fst (DateCache_window E reference_cache r world0)
      = Ok (set_window r (VInt64 s') (VInt64 e'))
    /\ Time_Sub (now reference_cache) (time_Unix (-10000000000)) = maxInt64
    /\ e' <> Time_Unix (now reference_cache).
Proof.
  do 2 eexists. split; [vm_compute; reflexivity|].
  split; [reflexivity | discriminate].
Qed.

(** C1 at a failing input. One [DateCache] with reference instant 10000 s
    receives the request "start 1h-ago, no end" twice. During the first call
    the two readings of the clock coincide; during the second the clock
    advances by one nanosecond between them. The normalized starts are 6400
    and 6399, the cache keys differ, and the transport is invoked twice. *)
Lemma DateCache_Query_relative_window_two_keys :
  let E := sample_Env [50000 * Second; 50000 * Second;
                       60000 * Second; 60000 * Second + 1] in
  let r := request_of (VString "1h-ago") VNil in
  let w1 := snd (DateCache_Query E reference_cache r world0) in
  let c1 := snd (fst (DateCache_Query E reference_cache r world0)) in
  let w2 := snd (DateCache_Query E c1 r w1) in
  fst (DateCache_window E reference_cache r world0)
    = Ok (set_window r (VInt64 6400) (VInt64 10000))
  /\ fst (DateCache_window E c1 r w1)
    = Ok (set_window r (VInt64 6399) (VInt64 10000))
  /\ posts w2 = [("h", "start=6400 end=10000 queries=sum:cpu/0/0/0 flags=0000");
                 ("h", "start=6399 end=10000 queries=sum:cpu/0/0/0 flags=0000")].
Proof. vm_compute. repeat split. Qed.

(** ** [ParseQuery] on the rate options *)

(** The statement of C3 fails: the third comma-separated field of the rate
    group of ["sum:rate{counter,100,0}:cpu"] is ["0}"], which is not an
    integer, so the query is rejected. *)
Lemma ParseQuery_rate_braces_counterexample :
  ~ (exists q, ParseQuery "sum:rate{counter,100,0}:cpu" = Ok q
               /\ Rate q = true
               /\ Counter (Rate_Options q) = true
               /\ CounterMax (Rate_Options q) = 100
               /\ ResetValue (Rate_Options q) = 0).
Proof. intros (q & H & _). vm_compute in H. discriminate. Qed.

(** C3, as the code has it. The rate group is cut at its commas: a second
    field switches counter mode on, the third is the counter maximum and the
    fourth the reset value. So ["sum:rate,counter,100,0:cpu"] parses with rate
    and counter set, maximum 100 and reset value 0, while
    ["sum:rate{counter,100,0}:cpu"] has the groups [sum], [rate{counter,100,0}]
    and [cpu], the fields [rate{counter], [100] and [0}], and is rejected with
    the syntax error of [strconv.ParseInt] on [0}]. *)
Theorem ParseQuery_rate_options :
  (exists q, ParseQuery "sum:rate,counter,100,0:cpu" = Ok q
             /\ Aggregator q = "sum" /\ Metric q = "cpu"
             /\ Rate q = true
             /\ Counter (Rate_Options q) = true
             /\ CounterMax (Rate_Options q) = 100
             /\ ResetValue (Rate_Options q) = 0)
  /\ FindStringSubmatch qRE 5 "sum:rate{counter,100,0}:cpu"
     = Some [""; "sum"; ""; "rate{counter,100,0}"; "cpu"; ""]
  /\ Split "rate{counter,100,0}" "," = ["rate{counter"; "100"; "0}"]
  /\ ParseQuery "sum:rate{counter,100,0}:cpu" = Err (ErrSyntax "0}").
Proof.
  split; [|repeat split; vm_compute; reflexivity].
  eexists. split; [vm_compute; reflexivity|]. repeat split.
Qed.

(** ** The regular-expression matcher *)

Lemma star_match_sound (p : ascii -> bool) (s : string)
    (k : string -> option captures) (res : captures) :
  star_match p s k = Some res ->
  exists x s', s = x +:+ s' /\ str_forall p x = true /\ k s' = Some res.
Proof.
  induction s as [|c s IH]; simpl; intros H.
  - exists "", "". auto.
  - destruct (p c) eqn:Hp.
    + destruct (star_match p s k) as [m|] eqn:Hs.
      * injection H as ->. destruct (IH eq_refl) as (x & s' & -> & Hx & Hk).
        exists (String c x), s'. simpl. rewrite Hp, Hx. auto.
      * exists "", (String c s). auto.
    + exists "", (String c s). auto.
Qed.

Lemma str_take_prefix (x s' : string) :
  str_take (String.length (x +:+ s') - String.length s') (x +:+ s') = x.
Proof.
  rewrite str_length_app.
  replace (String.length x + String.length s' - String.length s')%nat
    with (String.length x) by lia.
  apply str_take_app.
Qed.

(** A successful run of the matcher consumed a prefix that [r] matches, and
    handed the rest to the continuation. *)
Lemma rmatch_sound (r : regex) :
  forall s caps k res,
    rmatch r s caps k = Some res ->
    exists x s' caps',
      s = x +:+ s' /\ rsem r x caps caps' /\ k s' caps' = Some res.
Proof.
  induction r as [c|r1 IH1 r2 IH2|p|p|r IH|n r IH|]; intros s caps k res H; simpl in H.
  - destruct s as [|c' s]; [discriminate|].
    destruct (Ascii.eqb_spec c' c) as [->|]; [|discriminate].
    exists (String c ""), s, caps. simpl. auto.
  - apply IH1 in H as (a & s1 & mid & -> & Ha & H).
    apply IH2 in H as (b & s2 & caps' & -> & Hb & H).
    exists (a +:+ b), s2, caps'. rewrite str_app_assoc.
    split; [reflexivity|]. split; [|exact H]. simpl. eauto 6.
  - apply star_match_sound in H as (x & s' & -> & Hx & H).
    exists x, s', caps. simpl. auto.
  - destruct s as [|c s]; [discriminate|].
    destruct (p c) eqn:Hp; [|discriminate].
    apply star_match_sound in H as (x & s' & -> & Hx & H).
    exists (String c x), s', caps. simpl. rewrite Hp, Hx.
    repeat split; auto; discriminate.
  - destruct (rmatch r s caps k) as [m|] eqn:Hr.
    + injection H as ->. apply IH in Hr as (x & s' & caps' & -> & Hx & Hk).
      exists x, s', caps'. simpl. auto.
    + exists "", s, caps. simpl. auto.
  - apply IH in H as (x & s' & mid & -> & Hx & H).
    rewrite str_take_prefix in H.
    exists x, s', (<[n := x]> mid). simpl. eauto.
  - destruct s; [|discriminate]. exists "", "", caps. simpl. auto.
Qed.

(** The groups of a successful match of [qRE]. *)
Lemma qRE_match_shape (s : string) (m : captures) :
  FindStringSubmatch qRE 5 s = Some m ->
  exists agg ds m3 metric T,
    m = [""; agg; ds; m3; metric; T]
    /\ agg <> "" /\ str_forall word_char agg = true
    /\ (ds = "" \/ exists a b, ds = a +:+ "-" +:+ b
                               /\ a <> "" /\ str_forall word_char a = true
                               /\ b <> "" /\ str_forall word_char b = true)
    /\ (m3 = "" \/ exists y, m3 = "rate" +:+ y)
    /\ metric <> "" /\ str_forall metric_char metric = true
    /\ str_forall tag_char T = true.
Proof.
  unfold FindStringSubmatch. intros H.
  apply rmatch_sound in H as (x & s' & caps' & -> & Hsem & H).
  injection H as <-. cbn in Hsem.
  repeat match goal with
         | H : exists _, _ |- _ => destruct H
         | H : _ /\ _ |- _ => destruct H
         | H : _ \/ _ |- _ => destruct H
         end; subst; simpl.
  all: do 5 eexists; (split; [reflexivity|]);
    (split; [assumption|]); (split; [assumption|]);
    (split; [first [now left
                   | right; do 2 eexists; split; [reflexivity|]; auto]|]);
    (split; [first [now left | right; eexists; reflexivity]|]);
    (split; [assumption|]); (split; [assumption|]);
    first [assumption | reflexivity].
Qed.

Lemma suffix_of_refl (s : string) : suffix_of s s.
Proof. now exists "". Qed.

Lemma suffix_of_trans (a b c : string) :
  suffix_of a b -> suffix_of b c -> suffix_of a c.
Proof.
  intros [x ->] [y ->]. exists (y +:+ x). now rewrite str_app_assoc.
Qed.

Lemma suffix_of_cons (c : ascii) (s' s : string) :
  suffix_of s' s -> suffix_of s' (String c s).
Proof. intros [x ->]. now exists (String c x). Qed.

Lemma str_forall_app (p : ascii -> bool) (a b : string) :
  str_forall p (a +:+ b) = str_forall p a && str_forall p b.
Proof.
  induction a as [|c a IH]; simpl; [reflexivity|].
  now rewrite IH, andb_assoc.
Qed.

Lemma star_match_greedy (p : ascii -> bool) (x rest : string)
    (k : string -> option captures) (res : captures) :
  str_forall p x = true -> stops p rest = true -> k rest = Some res ->
  star_match p (x +:+ rest) k = Some res.
Proof.
  intros Hx Hstop Hk. induction x as [|c x IH]; simpl in *.
  - destruct rest as [|c rest]; simpl in *; [exact Hk|].
    destruct (p c); [discriminate | exact Hk].
  - apply andb_prop in Hx as [Hc Hx]. rewrite Hc, (IH Hx). reflexivity.
Qed.

(** A greedy [+] takes the whole run when the rest of the expression accepts
    what follows the run. *)
Lemma rmatch_plus_greedy (p : ascii -> bool) (x rest : string) (caps : captures)
    (k : string -> captures -> option captures) (res : captures) :
  x <> "" -> str_forall p x = true -> stops p rest = true ->
  k rest caps = Some res ->
  rmatch (RPlus p) (x +:+ rest) caps k = Some res.
Proof.
  intros Hne Hx Hstop Hk. destruct x as [|c x]; [contradiction|].
  simpl in *. apply andb_prop in Hx as [Hc Hx]. rewrite Hc.
  now apply star_match_greedy.
Qed.

Lemma rmatch_seq (r1 r2 : regex) (s : string) (caps : captures)
    (k : string -> captures -> option captures) :
  rmatch (RSeq r1 r2) s caps k
  = rmatch r1 s caps (fun s' caps' => rmatch r2 s' caps' k).
Proof. reflexivity. Qed.

Lemma rmatch_group (n : nat) (r : regex) (s : string) (caps : captures)
    (k : string -> captures -> option captures) :
  rmatch (RGroup n r) s caps k
  = rmatch r s caps
      (fun s' caps' =>
         k s' (<[n := str_take (String.length s - String.length s') s]> caps')).
Proof. reflexivity. Qed.

Lemma rmatch_opt (r : regex) (s : string) (caps : captures)
    (k : string -> captures -> option captures) :
  rmatch (ROpt r) s caps k
  = match rmatch r s caps k with
    | Some m => Some m
    | None => k s caps
    end.
Proof. reflexivity. Qed.

Lemma rmatch_char (c : ascii) (s : string) (caps : captures)
    (k : string -> captures -> option captures) :
  rmatch (RChar c) (String c s) caps k = k s caps.
Proof. simpl. now rewrite Ascii.eqb_refl. Qed.

Lemma rmatch_group_plus (n : nat) (p : ascii -> bool) (x rest : string)
    (caps : captures) (k : string -> captures -> option captures)
    (res : captures) :
  x <> "" -> str_forall p x = true -> stops p rest = true ->
  k rest (<[n := x]> caps) = Some res ->
  rmatch (RGroup n (RPlus p)) (x +:+ rest) caps k = Some res.
Proof.
  intros Hne Hx Hstop Hk. rewrite rmatch_group.
  apply rmatch_plus_greedy; auto. now rewrite str_take_prefix.
Qed.

(** A repetition fails when the rest of the expression fails after every
    run it can take. *)
Lemma star_match_none (p : ascii -> bool) (s : string)
    (k : string -> option captures) :
  (forall x s', s = x +:+ s' -> str_forall p x = true -> k s' = None) ->
  star_match p s k = None.
Proof.
  induction s as [|c s IH]; intros H; simpl.
  - apply (H "" ""); reflexivity.
  - assert (Hk : k (String c s) = None) by (apply (H "" (String c s)); reflexivity).
    destruct (p c) eqn:Hc; [|exact Hk].
    rewrite IH; [exact Hk|].
    intros x s' -> Hx. apply (H (String c x) s'); [reflexivity|].
    simpl. now rewrite Hc.
Qed.

Lemma rmatch_plus_none (p : ascii -> bool) (s : string) (caps : captures)
    (k : string -> captures -> option captures) :
  (forall x s', s = x +:+ s' -> x <> "" -> str_forall p x = true ->
                k s' caps = None) ->
  rmatch (RPlus p) s caps k = None.
Proof.
  intros H. destruct s as [|c s]; [reflexivity|]. simpl.
  destruct (p c) eqn:Hc; [|reflexivity].
  apply star_match_none. intros x s' -> Hx.
  apply (H (String c x) s'); [reflexivity | discriminate |].
  simpl. now rewrite Hc.
Qed.

(** A repetition takes nothing when the rest of the expression fails after
    every non-empty run. *)
Lemma star_match_first (p : ascii -> bool) (s : string)
    (k : string -> option captures) :
  (forall x s', s = x +:+ s' -> x <> "" -> k s' = None) ->
  star_match p s k = k s.
Proof.
  intros H. destruct s as [|c s]; [reflexivity|]. simpl.
  destruct (p c); [|reflexivity].
  rewrite star_match_none; [reflexivity|].
  intros x s' -> _. apply (H (String c x) s'); [reflexivity | discriminate].
Qed.

(** The matcher only ever hands suffixes of its input to the continuation. *)
Lemma rmatch_none (r : regex) :
  forall s caps k,
    (forall s' caps', suffix_of s' s -> k s' caps' = None) ->
    rmatch r s caps k = None.
Proof.
  induction r as [c|r1 IH1 r2 IH2|p|p|r IH|n r IH|]; intros s caps k H; simpl.
  - destruct s as [|c' s]; [reflexivity|].
    destruct (Ascii.eqb c' c); [|reflexivity].
    apply H. now exists (String c' "").
  - apply IH1. intros s' caps' Hs'. apply IH2. intros s'' caps'' Hs''.
    apply H. eapply suffix_of_trans; eauto.
  - apply star_match_none. intros x s' -> _. apply H. now exists x.
  - apply rmatch_plus_none. intros x s' -> _ _. apply H. now exists x.
  - rewrite IH by exact H. apply H, suffix_of_refl.
  - apply IH. intros s' caps' Hs'. now apply H.
  - destruct s; [|reflexivity]. apply H, suffix_of_refl.
Qed.

Lemma rmatch_char_none (c : ascii) (s : string) (caps : captures)
    (k : string -> captures -> option captures) :
  (forall t, s <> String c t) -> rmatch (RChar c) s caps k = None.
Proof.
  intros H. destruct s as [|c' s]; [reflexivity|]. simpl.
  destruct (Ascii.eqb_spec c' c) as [->|]; [|reflexivity]. now destruct (H s).
Qed.

Lemma suffix_head_not (c : ascii) (s s' : string) :
  str_forall (not_char c) s = true -> suffix_of s' s ->
  forall t, s' <> String c t.
Proof.
  intros Hs [x ->] t ->. rewrite str_forall_app in Hs.
  apply andb_prop in Hs as [_ Hs]. simpl in Hs. unfold not_char in Hs.
  now rewrite Ascii.eqb_refl in Hs.
Qed.

(** ** [qRE] on the text that [Query.String] writes *)

Lemma rmatch_lit (l s : string) (caps : captures)
    (k : string -> captures -> option captures) :
  rmatch (RLit l) (l +:+ s) caps k = k s caps.
Proof.
  destruct l as [|c l]; [now destruct s|].
  revert c. induction l as [|c' l IH]; intros c.
  - simpl. now rewrite Ascii.eqb_refl.
  - change (RLit (String c (String c' l)))
      with (RSeq (RChar c) (RLit (String c' l))).
    rewrite rmatch_seq.
    change (String c (String c' l) +:+ s) with (String c (String c' l +:+ s)).
    rewrite rmatch_char. apply IH.
Qed.

Lemma rmatch_star (p : ascii -> bool) (s : string) (caps : captures)
    (k : string -> captures -> option captures) :
  rmatch (RStar p) s caps k = star_match p s (fun s' => k s' caps).
Proof. reflexivity. Qed.

Lemma match_metric (metric T c0 c1 c2 c3 c4 c5 : string) :
  metric <> "" -> str_forall metric_char metric = true ->
  str_forall tag_char T = true ->
  rmatch re_metric (metric +:+ tail_text T) [c0; c1; c2; c3; c4; c5] kfin
  = Some [c0; c1; c2; c3; metric; if is_empty T then c5 else T].
Proof.
  intros Hne Hm HT. unfold re_metric. rewrite rmatch_seq.
  apply rmatch_group_plus; auto.
  { unfold tail_text. now destruct T. }
  cbn [insert list_insert]. unfold tail_text, re_tags.
  destruct T as [|c T]; [reflexivity|].
  cbn [is_empty]. rewrite rmatch_seq, rmatch_opt.
  change ("{" +:+ String c T +:+ "}") with (String "{" (String c T +:+ "}")).
  rewrite rmatch_seq, rmatch_char, rmatch_seq.
  erewrite rmatch_group_plus; [reflexivity | discriminate | exact HT | reflexivity |].
  reflexivity.
Qed.

Lemma match_rate_true (X c0 c1 c2 c3 c4 c5 : string) (res : captures) :
  str_forall (not_char ":") X = true ->
  rmatch re_metric X [c0; c1; c2; "rate"; c4; c5] kfin = Some res ->
  rmatch (RSeq re_rate re_metric) ("rate:" +:+ X) [c0; c1; c2; c3; c4; c5] kfin
  = Some res.
Proof.
  intros Hcolon Hm. rewrite rmatch_seq. unfold re_rate. rewrite rmatch_opt.
  rewrite rmatch_seq, rmatch_group, rmatch_seq.
  change ("rate:" +:+ X) with ("rate" +:+ String ":" X).
  rewrite rmatch_lit, rmatch_star, star_match_first.
  - rewrite str_take_prefix. cbn [insert list_insert].
    rewrite rmatch_char, Hm. reflexivity.
  - intros x s' Hsplit Hx. apply rmatch_char_none.
    apply suffix_head_not with (s := X); [exact Hcolon|].
    destruct x as [|c x]; [contradiction|]. injection Hsplit as _ ->.
    now exists x.
Qed.

Lemma match_rate_false (X : string) (caps : captures) :
  str_forall (not_char ":") X = true ->
  rmatch (RSeq re_rate re_metric) X caps kfin = rmatch re_metric X caps kfin.
Proof.
  intros Hcolon. rewrite rmatch_seq. unfold re_rate. rewrite rmatch_opt.
  rewrite rmatch_seq, rmatch_none; [reflexivity|].
  intros s' caps' Hs'. apply rmatch_char_none.
  now apply suffix_head_not with (s := X).
Qed.

(** After a run of word characters taken from the front of [m +:+ t] there
    is no hyphen, when [m] has none and [t] starts with neither a word
    character nor a hyphen. *)
Lemma no_dash_after_words (m t : string) :
  str_forall (not_char "-") m = true ->
  stops (fun c => word_char c || Ascii.eqb c "-") t = true ->
  forall x s', m +:+ t = x +:+ s' -> str_forall word_char x = true ->
               forall u, s' <> String "-" u.
Proof.
  revert t. induction m as [|c m IH]; intros t Hm Ht x s' Hsplit Hx u ->.
  - simpl in Hsplit. subst t. destruct x as [|c x].
    + simpl in Ht. discriminate.
    + simpl in Hx, Ht. apply andb_prop in Hx as [Hc _].
      rewrite Hc in Ht. discriminate.
  - simpl in Hm. apply andb_prop in Hm as [Hc Hm].
    destruct x as [|c' x]; simpl in Hsplit.
    + injection Hsplit as -> _. unfold not_char in Hc. discriminate.
    + injection Hsplit as <- Hsplit. simpl in Hx.
      apply andb_prop in Hx as [_ Hx].
      exact (IH t Hm Ht x _ Hsplit Hx u eq_refl).
Qed.

Lemma match_downsample_skip (R : regex) (text : string) (caps : captures)
    (k : string -> captures -> option captures) :
  (forall x s', text = x +:+ s' -> str_forall word_char x = true ->
                forall u, s' <> String "-" u) ->
  rmatch (RSeq re_downsample R) text caps k = rmatch R text caps k.
Proof.
  intros H. rewrite rmatch_seq. unfold re_downsample. rewrite rmatch_opt.
  rewrite rmatch_seq, rmatch_group, rmatch_seq, rmatch_plus_none; [reflexivity|].
  intros x s' Hsplit _ Hx. rewrite rmatch_seq. apply rmatch_char_none.
  exact (H x s' Hsplit Hx).
Qed.

Lemma match_downsample (R : regex) (a b text c0 c1 c2 c3 c4 c5 : string)
    (k : string -> captures -> option captures) (res : captures) :
  a <> "" -> str_forall word_char a = true ->
  b <> "" -> str_forall word_char b = true ->
  rmatch R text [c0; c1; a +:+ "-" +:+ b; c3; c4; c5] k = Some res ->
  rmatch (RSeq re_downsample R) ((a +:+ "-" +:+ b) +:+ ":" +:+ text)
         [c0; c1; c2; c3; c4; c5] k
  = Some res.
Proof.
  intros Ha Hwa Hb Hwb HR. rewrite rmatch_seq. unfold re_downsample.
  rewrite rmatch_opt, rmatch_seq, rmatch_group, rmatch_seq.
  assert (Hshape : (a +:+ "-" +:+ b) +:+ ":" +:+ text
                   = a +:+ String "-" (b +:+ String ":" text)).
  { rewrite str_app_assoc. f_equal. }
  rewrite Hshape at 1.
  erewrite rmatch_plus_greedy; [reflexivity | exact Ha | exact Hwa | reflexivity |].
  rewrite rmatch_seq, rmatch_char.
  apply rmatch_plus_greedy; [exact Hb | exact Hwb | reflexivity |].
  replace (String.length ((a +:+ "-" +:+ b) +:+ ":" +:+ text)
           - String.length (String ":" text))%nat
    with (String.length (a +:+ "-" +:+ b)).
  - rewrite str_take_app. cbn [insert list_insert].
    rewrite rmatch_char. exact HR.
  - rewrite (str_length_app (a +:+ "-" +:+ b)). simpl. lia.
Qed.

Lemma match_aggregator (agg text : string) (res : captures) :
  agg <> "" -> str_forall word_char agg = true ->
  rmatch (RSeq re_downsample (RSeq re_rate re_metric)) text
         [""; agg; ""; ""; ""; ""] kfin = Some res ->
  FindStringSubmatch qRE 5 (agg +:+ ":" +:+ text) = Some res.
Proof.
  intros Ha Hw H. unfold FindStringSubmatch, qRE. rewrite rmatch_seq.
  apply rmatch_group_plus; [exact Ha | exact Hw | reflexivity |].
  cbn [replicate insert list_insert]. rewrite rmatch_seq.
  change (":" +:+ text) with (String ":" text). rewrite rmatch_char. exact H.
Qed.

(** ** [ParseTags] and the tag block of [Query.String] *)

Lemma tag_char_ascii (c : ascii) :
  tag_char c = true -> (byte_val c <? 128) = true /\ IsSpace (byte_val c) = false.
Proof.
  destruct c as [[] [] [] [] [] [] [] []]; intros H;
    solve [discriminate H | split; reflexivity].
Qed.

Lemma str_forall_get (p : ascii -> bool) (s : string) (i : nat) (c : ascii) :
  str_forall p s = true -> String.get i s = Some c -> p c = true.
Proof.
  revert i. induction s as [|c' s IH]; intros i Hs Hg; [discriminate|].
  simpl in Hs. apply andb_prop in Hs as [Hc Hs].
  destruct i as [|i]; simpl in Hg; [now injection Hg as <- | eauto].
Qed.

Lemma str_get_last (c : ascii) (s : string) :
  exists c', String.get (String.length s) (String c s) = Some c'.
Proof.
  revert c. induction s as [|c' s IH]; intros c; simpl; eauto.
Qed.

Lemma TrimSpace_tag_chars (x : string) :
  str_forall tag_char x = true -> TrimSpace x = x.
Proof.
  intros Hx. unfold TrimSpace.
  assert (Hl : forall fuel, TrimLeftSpace fuel x = x).
  { intros [|fuel]; [reflexivity|]. destruct x as [|c x]; [reflexivity|].
    simpl in Hx. apply andb_prop in Hx as [Hc _].
    apply tag_char_ascii in Hc as [Hlt Hsp].
    cbn [TrimLeftSpace is_empty]. unfold DecodeRuneInString.
    now rewrite Hlt, Hsp. }
  rewrite Hl.
  destruct x as [|c x]; [reflexivity|].
  cbn [String.length TrimRightSpace is_empty].
  unfold DecodeLastRuneInString. cbn [String.length Nat.eqb].
  replace (S (String.length x) - 1)%nat with (String.length x) by lia.
  destruct (str_get_last c x) as [c' Hc'].
  unfold byte_at. rewrite Hc'.
  apply (str_forall_get _ _ _ _ Hx), tag_char_ascii in Hc' as [Hlt Hsp].
  now rewrite Hlt, Hsp.
Qed.

Lemma Split_not_nil (s : string) (sep : ascii) : Split s sep <> [].
Proof.
  destruct s as [|c s]; simpl; [discriminate|].
  destruct (Ascii.eqb c sep); [discriminate|].
  destruct (Split s sep); discriminate.
Qed.

Lemma Split_pieces (p : ascii -> bool) (sep : ascii) (s : string) :
  str_forall p s = true ->
  Forall (fun x => str_forall p x = true /\ str_forall (not_char sep) x = true)
         (Split s sep).
Proof.
  induction s as [|c s IH]; intros Hs; simpl.
  - repeat constructor.
  - simpl in Hs. apply andb_prop in Hs as [Hc Hs]. specialize (IH Hs).
    destruct (Ascii.eqb c sep) eqn:Hsep.
    + constructor; [split; reflexivity | exact IH].
    + destruct (Split s sep) as [|hd tl] eqn:Hsplit.
      * now destruct (Split_not_nil s sep).
      * inversion IH as [|? ? [H1 H2] Htl]; subst.
        constructor; [|exact Htl]. simpl. unfold not_char at 1.
        now rewrite Hc, Hsep, H1, H2.
Qed.

Lemma Split_no_sep (sep : ascii) (x : string) :
  str_forall (not_char sep) x = true -> Split x sep = [x].
Proof.
  induction x as [|c x IH]; intros Hx; simpl; [reflexivity|].
  simpl in Hx. apply andb_prop in Hx as [Hc Hx]. unfold not_char in Hc.
  apply negb_true_iff in Hc. now rewrite Hc, (IH Hx).
Qed.

Lemma Split_app_sep (sep : ascii) (x rest : string) :
  str_forall (not_char sep) x = true ->
  Split (x +:+ String sep rest) sep = x :: Split rest sep.
Proof.
  induction x as [|c x IH]; intros Hx; simpl.
  - now rewrite Ascii.eqb_refl.
  - simpl in Hx. apply andb_prop in Hx as [Hc Hx]. unfold not_char in Hc.
    apply negb_true_iff in Hc. now rewrite Hc, (IH Hx).
Qed.

Lemma Split_Join (sep : ascii) (pieces : list string) :
  pieces <> [] ->
  Forall (fun x => str_forall (not_char sep) x = true) pieces ->
  Split (Join pieces sep) sep = pieces.
Proof.
  induction pieces as [|x pieces IH]; intros Hne Hall; [contradiction|].
  inversion Hall as [|? ? Hx Hrest]; subst.
  destruct pieces as [|y pieces].
  - simpl. now apply Split_no_sep.
  - change (Join (x :: y :: pieces) sep)
      with (x +:+ String sep (Join (y :: pieces) sep)).
    rewrite Split_app_sep by exact Hx. f_equal. now apply IH.
Qed.

Lemma SplitN2_pair (k v : string) :
  str_forall (not_char "=") k = true ->
  SplitN2 (k +:+ String "=" v) "=" = [k; v].
Proof.
  induction k as [|c k IH]; intros Hk; simpl; [reflexivity|].
  simpl in Hk. apply andb_prop in Hk as [Hc Hk]. unfold not_char in Hc.
  apply negb_true_iff in Hc. now rewrite Hc, (IH Hk).
Qed.

Lemma SplitN2_inv (v a b : string) :
  SplitN2 v "=" = [a; b] ->
  v = a +:+ String "=" b /\ str_forall (not_char "=") a = true.
Proof.
  revert a. induction v as [|c v IH]; intros a H; simpl in H; [discriminate|].
  destruct (Ascii.eqb_spec c "=") as [->|Hne].
  - injection H as <- <-. auto.
  - destruct (SplitN2 v "=") as [|hd [|hd' [|? ?]]]; try discriminate.
    injection H as <- <-. destruct (IH hd eq_refl) as [-> Hhd].
    split; [reflexivity|]. simpl. rewrite Hhd. unfold not_char.
    apply Ascii.eqb_neq in Hne. now rewrite Hne.
Qed.

(** Every pair that [ParseTags] returns for a text of tag characters is a
    plain pair. *)
Lemma ParseTags_loop_plain (pieces : list string) :
  forall (ts T : TagSet),
    ParseTags_loop pieces ts = Ok T ->
    Forall (fun x => str_forall tag_char x = true
                     /\ str_forall (not_char ",") x = true) pieces ->
    (forall k v, ts !! k = Some v -> plain_pair (k, v)) ->
    forall k v, T !! k = Some v -> plain_pair (k, v).
Proof.
  induction pieces as [|x pieces IH]; intros ts T H Hall Hts k v HT.
  - injection H as <-. eauto.
  - inversion Hall as [|? ? [Htag Hcomma] Hrest]; subst. simpl in H.
    destruct (SplitN2 x "=") as [|a [|b [|? ?]]] eqn:Hsp; try discriminate.
    apply SplitN2_inv in Hsp as [-> Heq].
    rewrite str_forall_app in Htag, Hcomma. simpl in Htag, Hcomma.
    apply andb_prop in Htag as [Ha Hb].
    apply andb_prop in Hcomma as [Ha' Hb'].
    rewrite (TrimSpace_tag_chars a Ha), (TrimSpace_tag_chars b Hb) in H.
    destruct (ts !! a) eqn:Hlook; [discriminate|].
    apply (IH _ _ H Hrest); [|exact HT].
    intros k' v' Hk'. destruct (decide (a = k')) as [<-|Hne].
    + rewrite lookup_insert_eq in Hk'. injection Hk' as <-.
      repeat split; assumption.
    + rewrite lookup_insert_ne in Hk' by exact Hne. eauto.
Qed.

Lemma ParseTags_plain (t : string) (T : TagSet) :
  str_forall tag_char t = true -> ParseTags t = Ok T ->
  forall k v, T !! k = Some v -> plain_pair (k, v).
Proof.
  intros Ht H. eapply ParseTags_loop_plain; [exact H | | ].
  - now apply Split_pieces.
  - intros k v Hk. rewrite lookup_empty in Hk. discriminate.
Qed.

(** Parsing the text of plain pairs with distinct keys stores them all. *)
Lemma ParseTags_loop_pairs (order : list (string * string)) :
  forall ts : TagSet,
    NoDup order.*1 ->
    (forall kv, kv ∈ order -> ts !! kv.1 = None) ->
    Forall plain_pair order ->
    ParseTags_loop (map pair_text order) ts
    = Ok (foldl (fun m kv => <[kv.1 := kv.2]> m) ts order).
Proof.
  induction order as [|[k v] order IH]; intros ts Hnd Hfresh Hplain;
    [reflexivity|].
  inversion Hplain as [|? ? (Hk & Hv & _ & _ & Heq) Hrest]; subst.
  simpl in Hk, Hv, Heq.
  apply NoDup_cons in Hnd as [Hnotin Hnd].
  cbn [map ParseTags_loop foldl]. unfold pair_text at 1. cbn [fst snd].
  change (k +:+ "=" +:+ v) with (k +:+ String "=" v).
  rewrite (SplitN2_pair k v Heq).
  rewrite (TrimSpace_tag_chars k Hk), (TrimSpace_tag_chars v Hv).
  assert (Hk0 : ts !! k = None) by (apply (Hfresh (k, v)); left).
  rewrite Hk0.
  apply IH; [exact Hnd | | exact Hrest].
  intros [k' v'] Hin. simpl.
  rewrite lookup_insert_ne.
  - apply (Hfresh (k', v')). now right.
  - intros <-. apply Hnotin. apply list_elem_of_fmap. now exists (k, v').
Qed.

Lemma foldl_insert_lookup (order : list (string * string)) :
  forall (ts : TagSet) (k : string),
    NoDup order.*1 ->
    foldl (fun m kv => <[kv.1 := kv.2]> m) ts order !! k
    = match (list_to_map order : TagSet) !! k with
      | Some v => Some v
      | None => ts !! k
      end.
Proof.
  induction order as [|[k1 v1] order IH]; intros ts k Hnd; [reflexivity|].
  apply NoDup_cons in Hnd as [Hnotin Hnd].
  cbn [foldl list_to_map foldr uncurry fst snd]. rewrite (IH _ _ Hnd).
  destruct (decide (k1 = k)) as [<-|Hne].
  - rewrite !lookup_insert_eq.
    now rewrite (not_elem_of_list_to_map_1 order k1 Hnotin).
  - rewrite !lookup_insert_ne by exact Hne. reflexivity.
Qed.

Lemma ParseTags_Join (T : TagSet) (order : list (string * string)) :
  order <> [] -> range_order T order -> Forall plain_pair order ->
  ParseTags (Join (map pair_text order) ",") = Ok T.
Proof.
  intros Hne Hperm Hplain. unfold range_order in Hperm.
  assert (Hnd : NoDup order.*1).
  { rewrite Hperm. apply NoDup_fst_map_to_list. }
  unfold ParseTags. rewrite Split_Join.
  - rewrite ParseTags_loop_pairs; auto.
    f_equal. apply map_eq. intros k.
    rewrite foldl_insert_lookup, lookup_empty by exact Hnd.
    rewrite (list_to_map_proper order (map_to_list T) Hnd Hperm).
    rewrite list_to_map_to_list. now destruct (T !! k).
  - destruct order; [contradiction | discriminate].
  - apply Forall_map. eapply Forall_impl; [exact Hplain|].
    intros [k v] (_ & _ & Hk & Hv & _). unfold pair_text. simpl in *.
    rewrite str_forall_app, Hk. simpl. exact Hv.
Qed.

(** ** [Query.String] followed by [ParseQuery] *)

Lemma str_forall_impl (p p' : ascii -> bool) (s : string) :
  (forall c, p c = true -> p' c = true) ->
  str_forall p s = true -> str_forall p' s = true.
Proof.
  intros Himp. induction s as [|c s IH]; simpl; [reflexivity|].
  intros [Hc Hs]%andb_prop. now rewrite (Himp c Hc), (IH Hs).
Qed.

Lemma metric_char_plain (c : ascii) :
  metric_char c = true -> not_char ":" c = true /\ not_char "-" c = true.
Proof.
  destruct c as [[] [] [] [] [] [] [] []]; intros H;
    solve [discriminate H | split; reflexivity].
Qed.

Lemma Join_forall (p : ascii -> bool) (sep : ascii) (l : list string) :
  p sep = true -> Forall (fun x => str_forall p x = true) l ->
  str_forall p (Join l sep) = true.
Proof.
  intros Hsep. induction l as [|x l IH]; intros Hall; [reflexivity|].
  inversion Hall as [|? ? Hx Hl]; subst.
  destruct l as [|y l]; [exact Hx|].
  change (Join (x :: y :: l) sep) with (x +:+ String sep (Join (y :: l) sep)).
  rewrite str_forall_app, Hx. simpl. rewrite Hsep. now apply IH.
Qed.

Lemma pair_text_forall (p : ascii -> bool) (kv : string * string) :
  p "="%char = true -> str_forall p kv.1 = true -> str_forall p kv.2 = true ->
  str_forall p (pair_text kv) = true.
Proof.
  intros He Hk Hv. unfold pair_text. rewrite str_forall_app, Hk. simpl.
  now rewrite He, Hv.
Qed.

Lemma Join_pairs_empty (order : list (string * string)) :
  is_empty (Join (map pair_text order) ",") = true -> order = [].
Proof.
  destruct order as [|[k v] order]; [reflexivity|]. intros H.
  apply is_empty_true in H. exfalso.
  destruct order as [|kv order]; simpl in H.
  - unfold pair_text in H. apply str_app_empty in H as [_ H]. discriminate.
  - apply str_app_empty in H as [H _]. unfold pair_text in H.
    apply str_app_empty in H as [_ H]. discriminate.
Qed.

Lemma String_tags_more (pairs : list (string * string)) :
  forall s,
    String_tags pairs false s
    = s +:+ fold_right (fun kv acc => "," +:+ pair_text kv +:+ acc) "" pairs.
Proof.
  induction pairs as [|[k v] pairs IH]; intros s; simpl.
  - now rewrite str_app_nil_r.
  - rewrite IH. unfold pair_text. simpl. now rewrite !str_app_assoc.
Qed.

Lemma Join_cons (x : string) (l : list string) :
  Join (x :: l) "," = x +:+ fold_right (fun y acc => "," +:+ y +:+ acc) "" l.
Proof.
  revert x. induction l as [|y l IH]; intros x.
  - simpl. now rewrite str_app_nil_r.
  - change (Join (x :: y :: l) ",") with (x +:+ String "," (Join (y :: l) ",")).
    rewrite IH. reflexivity.
Qed.

Lemma String_tags_Join (pairs : list (string * string)) (s : string) :
  String_tags pairs true s = s +:+ Join (map pair_text pairs) ",".
Proof.
  destruct pairs as [|[k v] pairs]; simpl String_tags.
  - simpl. now rewrite str_app_nil_r.
  - rewrite String_tags_more. cbn [map]. rewrite Join_cons.
    unfold pair_text at 2. cbn [fst snd]. rewrite !str_app_assoc.
    do 2 f_equal. simpl. do 2 f_equal.
    induction pairs as [|kv pairs IH]; [reflexivity|].
    simpl. now rewrite IH.
Qed.

(** The text written by [Query.String], by parts. *)
Lemma Query_String_text (q : Query) (order : list (string * string)) :
  range_order (Tags q) order ->
  Query_String q order
  = Aggregator q +:+ ":"
    +:+ ((if is_empty (Downsample q) then "" else Downsample q +:+ ":")
    +:+ ((if Rate q then "rate:" else "")
    +:+ (Metric q +:+ tail_text (Join (map pair_text order) ",")))).
Proof.
  intros Hperm. unfold range_order in Hperm. unfold Query_String.
  assert (Hsize : size (Tags q) = length order).
  { rewrite <- length_map_to_list. symmetry. now apply Permutation_length. }
  rewrite Hsize.
  destruct (is_empty (Downsample q)), (Rate q); cbn [negb];
    destruct order as [|kv order]; cbn [length Nat.ltb Nat.leb].
  all: try (cbn [map Join tail_text is_empty];
            rewrite ?str_app_nil_r, ?str_app_assoc; reflexivity).
  all: rewrite String_tags_Join; unfold tail_text;
    destruct (is_empty (Join (map pair_text (kv :: order)) ",")) eqn:He;
    [apply Join_pairs_empty in He; discriminate|];
    rewrite ?str_app_assoc; reflexivity.
Qed.

(** C8, as the code has it. Take a query [q] that [ParseQuery] produced,
    whose tag keys and values contain no colon, and any order in which the
    [range] loop of [String] may visit its tags. Parsing [q.String()] again
    succeeds and gives back the aggregator, the downsample, the rate flag,
    the metric and the tags of [q]. The rate options do not survive:
    [String] writes [rate:] without them, so they come back as zero. *)
Theorem Query_String_roundtrip (s : string) (q : Query)
    (order : list (string * string)) :
  ParseQuery s = Ok q ->
  range_order (Tags q) order ->
  (forall k v, Tags q !! k = Some v ->
               str_forall (not_char ":") k = true
               /\ str_forall (not_char ":") v = true) ->
  ParseQuery (Query_String q order)
  = Ok (mkQuery (Aggregator q) (Metric q) (Rate q) zero_RateOptions
                (Downsample q) (Tags q)).
Proof.
  intros Hparse Hperm Hcolon.
  unfold ParseQuery in Hparse.
  destruct (FindStringSubmatch qRE 5 s) as [m|] eqn:Hm; [|discriminate].
  apply qRE_match_shape in Hm
    as (agg & ds & m3 & metric & T & -> & Hagg & Hwagg & Hds & Hm3 & Hmet & Hwmet & HT).
  unfold submatch in Hparse. cbn [nth] in Hparse.
  destruct (if HasPrefix m3 "rate" then _ else _) as [ro|]; [|discriminate].
  set (b := HasPrefix m3 "rate") in *. clearbody b. clear Hm3 m3.
  assert (Htags : exists tags : TagSet,
             q = mkQuery agg metric b ro ds tags
             /\ forall k v, tags !! k = Some v -> plain_pair (k, v)).
  { destruct (is_empty T); cbn [negb] in Hparse.
    - injection Hparse as <-. exists ∅. split; [reflexivity|].
      intros k v Hk. rewrite lookup_empty in Hk. discriminate.
    - destruct (ParseTags T) as [tags|] eqn:HPT; [|discriminate].
      injection Hparse as <-. exists tags. split; [reflexivity|].
      now apply (ParseTags_plain T). }
  clear Hparse. destruct Htags as (tags & -> & Hplain).
  cbn [Tags] in Hperm, Hcolon.
  assert (Hin : forall kv, kv ∈ order -> tags !! kv.1 = Some kv.2).
  { intros [k v] Hkv. unfold range_order in Hperm. rewrite Hperm in Hkv.
    now apply elem_of_map_to_list in Hkv. }
  assert (Hord : Forall plain_pair order).
  { apply Forall_forall. intros [k v] Hkv. apply Hplain. exact (Hin _ Hkv). }
  set (J := Join (map pair_text order) ",").
  assert (HJtag : str_forall tag_char J = true).
  { apply Join_forall; [reflexivity|]. apply Forall_map.
    eapply Forall_impl; [exact Hord|]. intros kv (Hk & Hv & _).
    now apply pair_text_forall. }
  assert (HJcolon : str_forall (not_char ":") J = true).
  { apply Join_forall; [reflexivity|]. apply Forall_map.
    apply Forall_forall. intros [k v] Hkv.
    destruct (Hcolon k v (Hin _ Hkv)) as [Hk Hv].
    now apply pair_text_forall. }
  set (X := metric +:+ tail_text J).
  assert (HX : str_forall (not_char ":") X = true).
  { unfold X. rewrite str_forall_app.
    rewrite (str_forall_impl metric_char (not_char ":") metric)
      by (exact Hwmet || (intros c Hc; apply metric_char_plain, Hc)).
    unfold tail_text. destruct (is_empty J); [reflexivity|].
    cbn. rewrite str_forall_app, HJcolon. reflexivity. }
  set (rtext := (if b then "rate:" else "") +:+ X).
  assert (Hrate : forall c0 c1 c2,
             rmatch (RSeq re_rate re_metric) rtext [c0; c1; c2; ""; ""; ""] kfin
             = Some [c0; c1; c2; if b then "rate" else ""; metric;
                     if is_empty J then "" else J]).
  { intros c0 c1 c2. unfold rtext. destruct b.
    - apply match_rate_true; [exact HX|]. now apply match_metric.
    - change ("" +:+ X) with X. rewrite match_rate_false by exact HX.
      now apply match_metric. }
  assert (Hnodash : forall x s', rtext = x +:+ s' ->
             str_forall word_char x = true -> forall u, s' <> String "-" u).
  { unfold rtext. destruct b.
    - change ("rate:" +:+ X) with ("rate" +:+ String ":" X).
      now apply no_dash_after_words.
    - change ("" +:+ X) with X. unfold X. apply no_dash_after_words.
      + apply (str_forall_impl metric_char); [|exact Hwmet].
        intros c Hc. apply metric_char_plain, Hc.
      + unfold tail_text. now destruct (is_empty J). }
  assert (Hfind : FindStringSubmatch qRE 5 (Query_String
                      (mkQuery agg metric b ro ds tags) order)
                  = Some [""; agg; ds; if b then "rate" else ""; metric;
                          if is_empty J then "" else J]).
  { rewrite (Query_String_text (mkQuery agg metric b ro ds tags) order Hperm).
    cbn [Aggregator Downsample Rate Metric]. fold J X rtext.
    apply match_aggregator; [exact Hagg | exact Hwagg |].
    destruct Hds as [->|(x & y & -> & Hx & Hwx & Hy & Hwy)].
    - cbn [is_empty]. change ("" +:+ rtext) with rtext.
      rewrite match_downsample_skip by exact Hnodash. apply Hrate.
    - assert (He : is_empty (x +:+ "-" +:+ y) = false).
      { destruct x; [contradiction | reflexivity]. }
      rewrite He, str_app_assoc.
      apply match_downsample; auto. }
  unfold ParseQuery. rewrite Hfind. unfold submatch. cbn [nth].
  assert (Hb : HasPrefix (if b then "rate" else "") "rate" = b) by now destruct b.
  rewrite Hb.
  assert (Hro : (if b then parse_rate_options (if b then "rate" else "")
                 else Ok zero_RateOptions) = Ok zero_RateOptions)
    by now destruct b.
  rewrite Hro.
  destruct (is_empty J) eqn:HeJ.
  - apply Join_pairs_empty in HeJ. subst order.
    unfold range_order in Hperm.
    apply Permutation_nil, map_to_list_empty_iff in Hperm. subst tags.
    reflexivity.
  - rewrite HeJ. cbn [negb]. fold J.
    unfold J. rewrite (ParseTags_Join tags order); auto.
    intros ->. discriminate.
Qed.

Lemma Query_String_roundtrip_witness :
  let q := mkQuery "avg" "cpu.load" true (mkRateOptions true 100 0) "15s-avg"
                   (<["host" := "web01"]> (<["dc" := "ny"]> ∅)) in
  ParseQuery (Query_String q [("host", "web01"); ("dc", "ny")])
  = Ok (mkQuery "avg" "cpu.load" true zero_RateOptions "15s-avg"
                (<["host" := "web01"]> (<["dc" := "ny"]> ∅))).
Proof.
  intros q.
  refine (Query_String_roundtrip
            "avg:15s-avg:rate,counter,100:cpu.load{dc=ny,host=web01}" q
            [("host", "web01"); ("dc", "ny")] _ _ _).
  - vm_compute. reflexivity.
  - unfold range_order.
    change (map_to_list (Tags q)) with [("dc", "ny"); ("host", "web01")].
    apply perm_swap.
  - intros k v H. apply elem_of_map_to_list in H.
    change (map_to_list (Tags q)) with [("dc", "ny"); ("host", "web01")] in H.
    apply elem_of_cons in H as [H|H]; [injection H as -> ->; split; reflexivity|].
    apply elem_of_cons in H as [H|H]; [injection H as -> ->; split; reflexivity|].
    now apply elem_of_nil in H.
Defined.

(** The statement of C8 fails: the rate options of a parsed query are not in
    its textual form, so parsing the text again does not give them back. *)
Lemma Query_String_roundtrip_counterexample :
  exists q,
    ParseQuery "sum:rate,counter,100,0:cpu" = Ok q
    /\ range_order (Tags q) []
    /\ Query_String q [] = "sum:rate:cpu"
    /\ ParseQuery (Query_String q []) <> Ok q
    /\ (forall q', ParseQuery (Query_String q []) = Ok q' ->
                   Rate_Options q' <> Rate_Options q).
Proof.
  eexists. split; [vm_compute; reflexivity|].
  split; [unfold range_order; reflexivity|].
  split; [reflexivity|].
  split; [vm_compute; discriminate|].
  intros q' H. vm_compute in H. injection H as <-. discriminate.
Qed.

(** Without the condition on colons the second parse can even fail, and
    whether it does depends on the order the tags are written in. *)
Lemma Query_String_colon_in_tag :
  exists q,
    ParseQuery "avg:rate.x{a=1,k=x:m{}" = Ok q
    /\ range_order (Tags q) [("k", "x:m{"); ("a", "1")]
    /\ range_order (Tags q) [("a", "1"); ("k", "x:m{")]
    /\ ParseQuery (Query_String q [("k", "x:m{"); ("a", "1")]) = Err (ErrBadTag "")
    /\ ParseQuery (Query_String q [("a", "1"); ("k", "x:m{")]) = Ok q.
Proof.
  eexists. split; [vm_compute; reflexivity|].
  split; [unfold range_order; reflexivity|].
  split; [unfold range_order; apply perm_swap|].
  split; vm_compute; reflexivity.
Qed.

(* ===================================================================== *)
(** * Further properties *)
(* ===================================================================== *)

(** ** [TagSet.Equal] and [TagSet.Subset] *)

Lemma TagSet_Equal_pairs (t o : TagSet) :
  TagSet_Equal t o = true <->
  size t = size o /\ forall k v, t !! k = Some v -> o !! k = Some v.
Proof.
  unfold TagSet_Equal.
  destruct (Nat.eqb_spec (size t) (size o)) as [Hsz|Hsz]; cbn [negb].
  - rewrite forallb_forall. split.
    + intros H. split; [exact Hsz|]. intros k v Hkv.
      apply elem_of_map_to_list, list_elem_of_In in Hkv.
      specialize (H _ Hkv). simpl in H.
      destruct (o !! k) as [ov|]; [|discriminate].
      apply String.eqb_eq in H. now subst.
    + intros [_ H] [k v] Hin. simpl.
      apply list_elem_of_In, elem_of_map_to_list in Hin.
      rewrite (H _ _ Hin). apply String.eqb_refl.
  - split; [discriminate | intros [H _]; contradiction].
Qed.

(** X1. [t.Equal(o)] is true exactly when the two tag sets are the same map:
    the same keys with the same values. *)
Theorem TagSet_Equal_iff (t o : TagSet) : TagSet_Equal t o = true <-> t = o.
Proof.
  rewrite TagSet_Equal_pairs. split.
  - intros [Hsz Hsub]. apply map_subseteq_size_eq; [|lia].
    apply map_subseteq_spec. exact Hsub.
  - intros ->. auto.
Qed.

(** X2. Equality is inclusion both ways: [t.Equal(o)] has the value of
    [t.Subset(o) && o.Subset(t)]. *)
Theorem TagSet_Equal_Subset (t o : TagSet) :
  TagSet_Equal t o = TagSet_Subset t o && TagSet_Subset o t.
Proof.
  assert (Heq : TagSet_Equal t o = true <-> t = o).
  { rewrite TagSet_Equal_pairs. split.
    - intros [Hsz Hsub]. apply map_subseteq_size_eq; [|lia].
      apply map_subseteq_spec. exact Hsub.
    - intros ->. auto. }
  apply eq_true_iff_eq. rewrite andb_true_iff, Heq.
  rewrite !TagSet_Subset_true. split.
  - intros ->. auto.
  - intros [H1 H2]. apply map_eq. intros k.
    destruct (t !! k) as [v|] eqn:Ht.
    + symmetry. now apply H2.
    + destruct (o !! k) as [v|] eqn:Ho; [|reflexivity].
      rewrite (H1 _ _ Ho) in Ht. discriminate.
Qed.

(** X3. [Subset] is a preorder on tag sets: every tag set includes itself and
    the empty one, and inclusion chains. *)
Theorem TagSet_Subset_preorder (t o u : TagSet) :
  TagSet_Subset t t = true
  /\ TagSet_Subset t ∅ = true
  /\ (TagSet_Subset t o = true -> TagSet_Subset o u = true ->
      TagSet_Subset t u = true).
Proof.
  rewrite !TagSet_Subset_true. split; [auto|]. split.
  - intros k v H. rewrite lookup_empty in H. discriminate.
  - intros H1 H2 k v Hk. auto.
Qed.

Lemma TagSet_Subset_preorder_witness :
  let t : TagSet := <["host" := "web01"]> (<["dc" := "ny"]> (<["os" := "bsd"]> ∅)) in
  let o : TagSet := <["host" := "web01"]> (<["dc" := "ny"]> ∅) in
  let u : TagSet := <["dc" := "ny"]> ∅ in
  TagSet_Subset t u = true.
Proof.
  intros t o u.
  exact (proj2 (proj2 (TagSet_Subset_preorder t o u)) eq_refl eq_refl).
Defined.

(** ** [TagSet.Tags] *)

Lemma Tags_write_more (t : TagSet) (keys : list string) :
  forall b,
    Tags_write t keys false b
    = b +:+ fold_right (fun k acc => "," +:+ pair_text (key_text t k) +:+ acc) "" keys.
Proof.
  induction keys as [|k keys IH]; intros b; simpl.
  - now rewrite str_app_nil_r.
  - rewrite IH. unfold pair_text, key_text. simpl. now rewrite !str_app_assoc.
Qed.

Lemma fold_right_map_sep {A} (f : A -> string) (l : list A) :
  fold_right (fun y acc => "," +:+ y +:+ acc) "" (map f l)
  = fold_right (fun k acc => "," +:+ f k +:+ acc) "" l.
Proof.
  induction l as [|x l IH]; [reflexivity|].
  cbn [fold_right map]. now rewrite IH.
Qed.

Lemma Tags_write_Join (t : TagSet) (keys : list string) :
  Tags_write t keys true "" = Join (map pair_text (map (key_text t) keys)) ",".
Proof.
  destruct keys as [|k keys]; [reflexivity|].
  cbn [Tags_write map]. rewrite Tags_write_more, Join_cons.
  rewrite map_map, fold_right_map_sep.
  unfold pair_text at 2. unfold key_text at 2. cbn [fst snd].
  change ("" +:+ k +:+ "=" +:+ default "" (t !! k))
    with (k +:+ "=" +:+ default "" (t !! k)).
  reflexivity.
Qed.

Lemma key_text_pairs (t : TagSet) (pairs : list (string * string)) :
  (forall kv, kv ∈ pairs -> t !! kv.1 = Some kv.2) ->
  map (key_text t) pairs.*1 = pairs.
Proof.
  induction pairs as [|[k v] pairs IH]; intros H; [reflexivity|].
  cbn [fmap list_fmap map fst]. rewrite IH.
  - unfold key_text. assert (Hk : t !! k = Some v) by (apply (H (k, v)); left).
    now rewrite Hk.
  - intros kv Hkv. apply H. now right.
Qed.

Lemma sort_Strings_order (t : TagSet) (order : list (string * string)) :
  range_order t order ->
  sort_Strings order.*1 = sort_Strings (map_to_list t).*1.
Proof.
  intros Hperm. unfold sort_Strings.
  apply (Sorted_unique String.le); try apply Sorted_merge_sort; try apply _.
  rewrite !merge_sort_Permutation. unfold range_order in Hperm. now rewrite Hperm.
Qed.

Lemma sorted_pairs_order (t : TagSet) : range_order t (sorted_pairs t).
Proof.
  unfold range_order, sorted_pairs, sort_Strings.
  rewrite merge_sort_Permutation. rewrite key_text_pairs; [reflexivity|].
  intros [k v] H. now apply elem_of_map_to_list in H.
Qed.

Lemma sorted_pairs_keys (t : TagSet) :
  (sorted_pairs t).*1 = sort_Strings (map_to_list t).*1.
Proof.
  unfold sorted_pairs. generalize (sort_Strings (map_to_list t).*1).
  intros l. induction l as [|k l IH]; [reflexivity|]. cbn. f_equal. exact IH.
Qed.

(** X4. [TagSet.Tags] does not depend on the order in which the map is
    traversed: whatever that order, the text is the pairs [k=v] of the map
    joined by commas in ascending bytewise order of the keys. *)
Theorem TagSet_Tags_sorted (t : TagSet) :
  exists pairs : list (string * string),
    pairs ≡ₚ map_to_list t
    /\ Sorted String.le pairs.*1
    /\ forall order, range_order t order ->
         TagSet_Tags t order = Join (map pair_text pairs) ","
         /\ TagSet_String t order = "{" +:+ Join (map pair_text pairs) "," +:+ "}".
Proof.
  exists (sorted_pairs t). split; [apply sorted_pairs_order|]. split.
  - rewrite sorted_pairs_keys. apply Sorted_merge_sort; apply _.
  - intros order Hord.
    assert (H : TagSet_Tags t order = Join (map pair_text (sorted_pairs t)) ",").
    { unfold TagSet_Tags. rewrite Tags_write_Join, (sort_Strings_order t order Hord).
      reflexivity. }
    unfold TagSet_String. now rewrite H.
Qed.

Lemma TagSet_Tags_sorted_witness :
  let t : TagSet := <["host" := "web01"]> (<["dc" := "ny"]> ∅) in
  TagSet_Tags t [("host", "web01"); ("dc", "ny")] = "dc=ny,host=web01"
  /\ TagSet_Tags t [("dc", "ny"); ("host", "web01")] = "dc=ny,host=web01".
Proof.
  intros t.
  destruct (TagSet_Tags_sorted t) as (pairs & _ & _ & H).
  assert (H1 : range_order t [("host", "web01"); ("dc", "ny")]).
  { unfold range_order.
    change (map_to_list t) with [("dc", "ny"); ("host", "web01")]. apply perm_swap. }
  assert (H2 : range_order t [("dc", "ny"); ("host", "web01")]).
  { unfold range_order.
    change (map_to_list t) with [("dc", "ny"); ("host", "web01")]. reflexivity. }
  destruct (H _ H1) as [E1 _]. destruct (H _ H2) as [E2 _].
  assert (E : TagSet_Tags t [("dc", "ny"); ("host", "web01")] = "dc=ny,host=web01")
    by (vm_compute; reflexivity).
  split; [|exact E]. rewrite E1, <- E2. exact E.
Defined.

(** X5. [ParseTags] undoes [TagSet.Tags]: for a non-empty tag set whose keys
    and values are made of tag characters, with no comma and with no equals
    sign in a key, parsing the text that [Tags] writes gives the tag set
    back. *)
Theorem ParseTags_Tags (t : TagSet) (order : list (string * string)) :
  t <> ∅ ->
  (forall k v, t !! k = Some v -> plain_pair (k, v)) ->
  range_order t order ->
  ParseTags (TagSet_Tags t order) = Ok t.
Proof.
  intros Hne Hplain Hord.
  unfold TagSet_Tags.
  rewrite Tags_write_Join, (sort_Strings_order t order Hord).
  fold (sorted_pairs t).
  pose proof (sorted_pairs_order t) as Hsorted.
  apply ParseTags_Join; [|exact Hsorted|].
  - intros Hnil. rewrite Hnil in Hsorted. unfold range_order in Hsorted.
    apply Permutation_nil, map_to_list_empty_iff in Hsorted. contradiction.
  - apply Forall_forall. intros [k v] Hkv. apply Hplain.
    unfold range_order in Hsorted. rewrite Hsorted in Hkv.
    now apply elem_of_map_to_list in Hkv.
Qed.

Lemma ParseTags_Tags_witness :
  let t : TagSet := <["host" := "web01"]> (<["dc" := "ny"]> ∅) in
  ParseTags (TagSet_Tags t [("host", "web01"); ("dc", "ny")]) = Ok t.
Proof.
  intros t. apply ParseTags_Tags.
  - intros H. apply (f_equal (fun m : TagSet => m !! "dc")) in H. discriminate H.
  - intros k v H. apply elem_of_map_to_list in H.
    change (map_to_list t) with [("dc", "ny"); ("host", "web01")] in H.
    apply elem_of_cons in H as [H|H];
      [injection H as -> ->; repeat split; reflexivity|].
    apply elem_of_cons in H as [H|H];
      [injection H as -> ->; repeat split; reflexivity|].
    now apply elem_of_nil in H.
  - unfold range_order.
    change (map_to_list t) with [("dc", "ny"); ("host", "web01")]. apply perm_swap.
Defined.

(** ** [ParseTags] *)

Lemma foldl_put_fresh (pairs : list (string * string)) :
  forall (ts : TagSet) (k : string),
    k ∉ pairs.*1 -> foldl put_pair ts pairs !! k = ts !! k.
Proof.
  induction pairs as [|[k1 v1] pairs IH]; intros ts k Hk; [reflexivity|].
  cbn [foldl]. rewrite IH.
  - unfold put_pair. simpl. apply lookup_insert_ne. intros ->. apply Hk. left.
  - intros H. apply Hk. now right.
Qed.

Lemma foldl_put_size (pairs : list (string * string)) :
  forall ts : TagSet,
    NoDup pairs.*1 -> Forall (fun kv => ts !! kv.1 = None) pairs ->
    size (foldl put_pair ts pairs) = (size ts + length pairs)%nat.
Proof.
  induction pairs as [|[k v] pairs IH]; intros ts Hnd Hfresh; simpl; [lia|].
  apply NoDup_cons in Hnd as [Hk Hnd].
  inversion Hfresh as [|? ? Hk0 Hrest]; subst. simpl in Hk0.
  rewrite IH; [|exact Hnd|].
  - unfold put_pair. simpl. rewrite map_size_insert_None by exact Hk0. lia.
  - apply Forall_forall. intros [k' v'] Hin. unfold put_pair. simpl.
    rewrite lookup_insert_ne.
    + rewrite Forall_forall in Hrest. exact (Hrest _ Hin).
    + intros <-. apply Hk. apply list_elem_of_fmap. now exists (k, v').
Qed.

(** What the loop of [ParseTags] accepts, and what it then returns. *)
Lemma ParseTags_loop_Ok (pieces : list string) :
  forall (ts T : TagSet),
    ParseTags_loop pieces ts = Ok T <->
    exists pairs,
      Forall2 (fun v kv => piece_pair v = Some kv) pieces pairs
      /\ NoDup pairs.*1
      /\ Forall (fun kv => ts !! kv.1 = None) pairs
      /\ T = foldl put_pair ts pairs.
Proof.
  induction pieces as [|v pieces IH]; intros ts T; cbn [ParseTags_loop].
  - split.
    + intros [= <-]. exists []. repeat split; constructor.
    + intros (pairs & H & _ & _ & ->). inversion H; subst. reflexivity.
  - unfold piece_pair at 1.
    destruct (SplitN2 v "=") as [|a [|b [|c l]]] eqn:Hsp.
    1,2,4: split; [discriminate|];
      intros (pairs & H & _); inversion H as [|? ? ? ? Hp]; subst;
      unfold piece_pair in Hp; rewrite Hsp in Hp; discriminate.
    destruct (ts !! TrimSpace a) as [x|] eqn:Hlook.
    + split; [discriminate|].
      intros (pairs & H & _ & Hfresh & _).
      inversion H as [|? kv ? ? Hp Hrest]; subst.
      unfold piece_pair in Hp. rewrite Hsp in Hp. injection Hp as <-.
      inversion Hfresh as [|? ? Hk]; subst. simpl in Hk. congruence.
    + rewrite IH. split.
      * intros (pairs & H & Hnd & Hfresh & ->).
        exists ((TrimSpace a, TrimSpace b) :: pairs).
        assert (Hnotin : TrimSpace a ∉ pairs.*1).
        { intros Hin. apply list_elem_of_fmap in Hin as ([k x] & Hk & Hin).
          simpl in Hk. subst k. rewrite Forall_forall in Hfresh.
          specialize (Hfresh _ Hin). simpl in Hfresh.
          rewrite lookup_insert_eq in Hfresh. discriminate. }
        split; [constructor; [unfold piece_pair; now rewrite Hsp | exact H]|].
        split; [cbn; apply NoDup_cons; auto|].
        split; [|reflexivity].
        constructor; [exact Hlook|].
        apply Forall_forall. intros [k x] Hin.
        rewrite Forall_forall in Hfresh. specialize (Hfresh _ Hin).
        simpl in *. rewrite lookup_insert_ne in Hfresh; [exact Hfresh|].
        intros <-. apply Hnotin. apply list_elem_of_fmap. now exists (TrimSpace a, x).
      * intros (pairs & H & Hnd & Hfresh & ->).
        inversion H as [|? kv ? pairs' Hp Hrest]; subst.
        unfold piece_pair in Hp. rewrite Hsp in Hp. injection Hp as <-.
        cbn in Hnd. apply NoDup_cons in Hnd as [Hnotin Hnd].
        inversion Hfresh as [|? ? _ Hfresh']; subst.
        exists pairs'. split; [exact Hrest|]. split; [exact Hnd|].
        split; [|reflexivity].
        apply Forall_forall. intros [k x] Hin. simpl.
        rewrite lookup_insert_ne.
        -- rewrite Forall_forall in Hfresh'. exact (Hfresh' _ Hin).
        -- intros <-. apply Hnotin. apply list_elem_of_fmap.
           now exists (TrimSpace a, x).
Qed.

Lemma piece_pair_Some (v k x : string) :
  piece_pair v = Some (k, x) <->
  exists a b, v = a +:+ "=" +:+ b /\ str_forall (not_char "=") a = true
              /\ k = TrimSpace a /\ x = TrimSpace b.
Proof.
  unfold piece_pair. split.
  - destruct (SplitN2 v "=") as [|a [|b [|c l]]] eqn:Hsp; try discriminate.
    intros [= <- <-]. apply SplitN2_inv in Hsp as [-> Ha].
    exists a, b. repeat split; auto.
  - intros (a & b & -> & Ha & -> & ->).
    change (a +:+ "=" +:+ b) with (a +:+ String "=" b).
    now rewrite SplitN2_pair.
Qed.

(** X6. [ParseTags] succeeds exactly when every comma-separated piece has an
    equals sign and the trimmed keys (the text before the first equals sign
    of each piece) are pairwise different. The result then maps each trimmed
    key to its trimmed value, has as many entries as there are pieces, and is
    never empty. *)
Theorem ParseTags_Ok_iff (t : string) (T : TagSet) :
  ParseTags t = Ok T <->
  exists pairs : list (string * string),
    Forall2 (fun v kv =>
               exists a b, v = a +:+ "=" +:+ b
                           /\ str_forall (not_char "=") a = true
                           /\ kv = (TrimSpace a, TrimSpace b))
            (Split t ",") pairs
    /\ NoDup pairs.*1
    /\ T = list_to_map pairs
    /\ size T = length (Split t ",")
    /\ T <> ∅.
Proof.
  unfold ParseTags. rewrite ParseTags_loop_Ok.
  assert (Hconv : forall pairs,
             Forall2 (fun v kv => piece_pair v = Some kv) (Split t ",") pairs <->
             Forall2 (fun v kv =>
                        exists a b, v = a +:+ "=" +:+ b
                                    /\ str_forall (not_char "=") a = true
                                    /\ kv = (TrimSpace a, TrimSpace b))
                     (Split t ",") pairs).
  { intros pairs.
    split; intros H0; (eapply Forall2_impl; [exact H0|]); intros v [k x].
    - intros (a & b & ? & ? & -> & ->)%piece_pair_Some.
      exists a, b. repeat split; auto.
    - intros (a & b & ? & ? & [= -> ->]). apply piece_pair_Some.
      exists a, b. repeat split; auto. }
  assert (Hmap : forall pairs : list (string * string),
             NoDup pairs.*1 -> foldl put_pair ∅ pairs = list_to_map pairs).
  { intros pairs Hnd. apply map_eq. intros k.
    change put_pair with (fun (m : TagSet) (kv : string * string) => <[kv.1 := kv.2]> m).
    rewrite foldl_insert_lookup, lookup_empty by exact Hnd.
    now destruct (list_to_map pairs !! k). }
  split.
  - intros (pairs & H & Hnd & Hfresh & ->). exists pairs.
    assert (Hsz : size (foldl put_pair ∅ pairs) = length (Split t ",")).
    { rewrite foldl_put_size by assumption.
      rewrite map_size_empty, (Forall2_length _ _ _ H). reflexivity. }
    split; [now apply Hconv|]. split; [exact Hnd|].
    split; [now apply Hmap|]. split; [exact Hsz|].
    intros Hempty. rewrite Hempty, map_size_empty in Hsz.
    destruct (Split t ",") eqn:Hs; [now destruct (Split_not_nil t ",")|discriminate].
  - intros (pairs & H & Hnd & -> & _). exists pairs.
    split; [now apply Hconv|]. split; [exact Hnd|].
    split; [|symmetry; now apply Hmap].
    apply Forall_forall. intros kv _. apply lookup_empty.
Qed.

(** X7. When [ParseTags] fails it names a piece of the input: either a piece
    without an equals sign (bad tag), or a piece whose trimmed key an earlier
    piece already had (duplicated tag). *)
Theorem ParseTags_Err (t : string) (e : error) :
  ParseTags t = Err e ->
  exists before v after,
    Split t "," = before ++ v :: after
    /\ ((e = ErrBadTag v /\ piece_pair v = None)
        \/ (e = ErrDuplicatedTag v
            /\ exists k x u, piece_pair v = Some (k, x) /\ u ∈ before
                             /\ exists x', piece_pair u = Some (k, x'))).
Proof.
  unfold ParseTags.
  assert (H : forall pieces done (ts : TagSet),
             (forall k, is_Some (ts !! k) ->
                        exists u x', u ∈ done /\ piece_pair u = Some (k, x')) ->
             ParseTags_loop pieces ts = Err e ->
             exists before v after,
               done ++ pieces = before ++ v :: after
               /\ ((e = ErrBadTag v /\ piece_pair v = None)
                   \/ (e = ErrDuplicatedTag v
                       /\ exists k x u, piece_pair v = Some (k, x) /\ u ∈ before
                                        /\ exists x', piece_pair u = Some (k, x')))).
  { induction pieces as [|v pieces IH]; intros done ts Hts Hloop; [discriminate|].
    cbn [ParseTags_loop] in Hloop.
    destruct (SplitN2 v "=") as [|a [|b [|c l]]] eqn:Hsp.
    1,2,4: injection Hloop as <-; exists done, v, pieces;
      split; [reflexivity|]; left; split; [reflexivity|];
      unfold piece_pair; now rewrite Hsp.
    assert (Hp : piece_pair v = Some (TrimSpace a, TrimSpace b))
      by (unfold piece_pair; now rewrite Hsp).
    destruct (ts !! TrimSpace a) as [x|] eqn:Hlook.
    - injection Hloop as <-. exists done, v, pieces.
      split; [reflexivity|]. right. split; [reflexivity|].
      destruct (Hts (TrimSpace a)) as (u & x' & Hu & Hpu); [eauto|].
      exists (TrimSpace a), (TrimSpace b), u. eauto.
    - assert (Hinv : forall k, is_Some (<[TrimSpace a := TrimSpace b]> ts !! k) ->
                 exists u x', u ∈ done ++ [v] /\ piece_pair u = Some (k, x')).
      { intros k [y Hk]. destruct (decide (TrimSpace a = k)) as [<-|Hne].
        - exists v, (TrimSpace b). split; [|exact Hp].
          apply elem_of_app. right. left.
        - rewrite lookup_insert_ne in Hk by exact Hne.
          destruct (Hts k) as (u & x' & Hu & Hpu); [eauto|].
          exists u, x'. split; [|exact Hpu]. apply elem_of_app. now left. }
      destruct (IH (done ++ [v]) _ Hinv Hloop) as (before & v' & after & Heq & Hcase).
      exists before, v', after. rewrite <- Heq, <- app_assoc. auto. }
  intros Hloop.
  apply (H (Split t ",") [] ∅); [|exact Hloop].
  intros k [x Hk]. rewrite lookup_empty in Hk. discriminate.
Qed.

Lemma ParseTags_Err_witness :
  exists before v after,
    Split "a=1, b=2,a=3" "," = before ++ v :: after
    /\ ((ErrDuplicatedTag "a=3" = ErrBadTag v /\ piece_pair v = None)
        \/ (ErrDuplicatedTag "a=3" = ErrDuplicatedTag v
            /\ exists k x u, piece_pair v = Some (k, x) /\ u ∈ before
                             /\ exists x', piece_pair u = Some (k, x'))).
Proof. exact (ParseTags_Err "a=1, b=2,a=3" (ErrDuplicatedTag "a=3") eq_refl). Defined.

(** ** [ParseQuery] *)

(** An expression that ends with the end-of-text test consumes the whole
    text. *)
Lemma rmatch_sound_whole (r : regex) :
  ends_with_REnd r = true ->
  forall s caps k res,
    rmatch r s caps k = Some res ->
    exists caps', rsem r s caps caps' /\ k "" caps' = Some res.
Proof.
  induction r as [c|r1 _ r2 IH2|p|p|r _|n r _|]; intros Hend s caps k res H;
    try discriminate Hend.
  - simpl in Hend. rewrite rmatch_seq in H.
    apply rmatch_sound in H as (a & s1 & mid & -> & Ha & H).
    apply (IH2 Hend) in H as (caps' & Hb & Hk).
    exists caps'. split; [|exact Hk]. simpl. eauto 6.
  - simpl in H. destruct s; [|discriminate]. exists caps. simpl. auto.
Qed.

Lemma is_empty_app_cons (a b : string) (c : ascii) :
  is_empty (a +:+ String c b) = false.
Proof. now destruct a. Qed.

(** The groups of a match of [qRE] spell the text that was matched. *)
Lemma qRE_match_text (s : string) (m : captures) :
  FindStringSubmatch qRE 5 s = Some m ->
  exists agg ds m3 metric T,
    m = [""; agg; ds; m3; metric; T]
    /\ s = agg +:+ ":" +:+ (with_colon ds +:+ (with_colon m3
           +:+ (metric +:+ tail_text T)))
    /\ (m3 = "" \/ exists y, m3 = "rate" +:+ y).
Proof.
  unfold FindStringSubmatch. intros H.
  apply rmatch_sound_whole in H as (caps' & Hsem & H); [|reflexivity].
  injection H as <-. cbn in Hsem.
  repeat match goal with
         | H : exists _, _ |- _ => destruct H
         | H : _ /\ _ |- _ => destruct H
         | H : _ \/ _ |- _ => destruct H
         end; subst; simpl.
  all: do 5 eexists; (split; [reflexivity|]);
    (split; [|first [now left | right; eexists; reflexivity]]);
    unfold with_colon, tail_text; rewrite ?is_empty_app_cons; cbn [is_empty];
    try match goal with
        | H : ?t <> "" |- context [is_empty ?t] =>
            destruct t; [contradiction|]; cbn [is_empty]
        end;
    rewrite ?str_app_nil_r, ?str_app_assoc; cbn; rewrite ?str_app_assoc;
    reflexivity.
Qed.

Lemma ParseInt_range (s : string) (z : Z) :
  ParseInt s = Ok z -> minInt64 <= z <= maxInt64.
Proof.
  unfold ParseInt. destruct s as [|c s]; [discriminate|].
  destruct (if _ : bool then s else String c s) as [|c' body]; [discriminate|].
  destruct (digits_value 0 (String c' body)) as [un|] eqn:Hd; [|discriminate].
  assert (Hnn : forall t acc v, 0 <= acc -> digits_value acc t = Some v -> 0 <= v).
  { induction t as [|d t IH]; intros acc v Hacc Hv; simpl in Hv.
    - injection Hv as <-. exact Hacc.
    - destruct (is_digit d) eqn:Hdig; [|discriminate].
      refine (IH _ _ _ Hv).
      unfold is_digit, in_range in Hdig. apply andb_prop in Hdig as [H1 _].
      apply Z.leb_le in H1. change (byte_val "0") with 48 in H1. lia. }
  pose proof (Hnn _ _ _ (Z.le_refl 0) Hd) as Hun.
  unfold minInt64, maxInt64.
  destruct (Ascii.eqb c "-"); cbn [negb andb].
  - destruct (Z.ltb_spec (2 ^ 63) un); [discriminate|]. intros [= <-]. lia.
  - destruct (Z.leb_spec (2 ^ 63) un); [discriminate|]. intros [= <-]. lia.
Qed.

Lemma parse_rate_options_range (m3 : string) (ro : RateOptions) :
  parse_rate_options m3 = Ok ro ->
  minInt64 <= CounterMax ro <= maxInt64 /\ minInt64 <= ResetValue ro <= maxInt64.
Proof.
  unfold parse_rate_options.
  assert (H0 : minInt64 <= 0 <= maxInt64) by (unfold minInt64, maxInt64; lia).
  destruct (if (2 <? _)%nat then _ else _) as [cm|] eqn:Hcm; [|discriminate].
  destruct (if (3 <? _)%nat then _ else _) as [rv|] eqn:Hrv; [|discriminate].
  intros [= <-]. cbn [CounterMax ResetValue]. split.
  - destruct (2 <? _)%nat; [|now injection Hcm as <-].
    destruct (negb _); [now apply ParseInt_range in Hcm | now injection Hcm as <-].
  - destruct (3 <? _)%nat; [now apply ParseInt_range in Hrv | now injection Hrv as <-].
Qed.

(** X8. Every query [ParseQuery] returns is well formed: a non-empty
    aggregator of word characters, a non-empty metric of word characters,
    dots and slashes, a downsample that is empty or two runs of word
    characters around a hyphen, rate options that are zero unless the rate
    flag is set and that fit 64 bits, and tags made of tag characters with no
    comma and no equals sign in a key. *)
Theorem ParseQuery_well_formed (s : string) (q : Query) :
  ParseQuery s = Ok q ->
  (Aggregator q <> "" /\ str_forall word_char (Aggregator q) = true)
  /\ (Metric q <> "" /\ str_forall metric_char (Metric q) = true)
  /\ (Downsample q = ""
      \/ exists a b, Downsample q = a +:+ "-" +:+ b
                     /\ a <> "" /\ str_forall word_char a = true
                     /\ b <> "" /\ str_forall word_char b = true)
  /\ (Rate q = false -> Rate_Options q = zero_RateOptions)
  /\ (minInt64 <= CounterMax (Rate_Options q) <= maxInt64
      /\ minInt64 <= ResetValue (Rate_Options q) <= maxInt64)
  /\ (forall k v, Tags q !! k = Some v -> plain_pair (k, v)).
Proof.
  unfold ParseQuery. intros Hparse.
  destruct (FindStringSubmatch qRE 5 s) as [m|] eqn:Hm; [|discriminate].
  apply qRE_match_shape in Hm
    as (agg & ds & m3 & metric & T & -> & Hagg & Hwagg & Hds & _ & Hmet & Hwmet & HT).
  unfold submatch in Hparse. cbn [nth] in Hparse.
  destruct (if HasPrefix m3 "rate" then _ else _) as [ro|] eqn:Hro; [|discriminate].
  destruct (if negb (is_empty T) then _ else _) as [tags|] eqn:Htags; [|discriminate].
  injection Hparse as <-. cbn.
  split; [auto|]. split; [auto|]. split; [exact Hds|].
  split; [intros Hr; rewrite Hr in Hro; now injection Hro as <-|].
  split.
  - destruct (HasPrefix m3 "rate").
    + now apply parse_rate_options_range in Hro.
    + injection Hro as <-. unfold minInt64, maxInt64. cbn. lia.
  - destruct (negb (is_empty T)).
    + now apply (ParseTags_plain T).
    + injection Htags as <-. intros k v H. rewrite lookup_empty in H. discriminate.
Qed.

Lemma ParseQuery_well_formed_witness :
  exists q, ParseQuery "avg:15s-avg:rate,counter,100:cpu.load{host=web01}" = Ok q
            /\ Aggregator q <> "" /\ Metric q <> ""
            /\ minInt64 <= CounterMax (Rate_Options q) <= maxInt64.
Proof.
  eexists. split; [vm_compute; reflexivity|].
  match goal with
  | |- Aggregator ?q <> _ /\ _ =>
      destruct (ParseQuery_well_formed
                  "avg:15s-avg:rate,counter,100:cpu.load{host=web01}" q
                  ltac:(vm_compute; reflexivity))
        as ([Ha _] & [Hm _] & _ & _ & [Hc _] & _)
  end.
  auto.
Defined.

Lemma Join_Split (sep : ascii) (s : string) : Join (Split s sep) sep = s.
Proof.
  induction s as [|c s IH]; [reflexivity|]. cbn [Split].
  pose proof (Split_not_nil s sep) as Hne.
  destruct (Ascii.eqb_spec c sep) as [->|_].
  - destruct (Split s sep) as [|hd tl]; [contradiction|].
    change (Join ("" :: hd :: tl) sep) with ("" +:+ String sep (Join (hd :: tl) sep)).
    now rewrite IH.
  - destruct (Split s sep) as [|hd tl]; [contradiction|].
    destruct tl as [|hd' tl].
    + simpl in IH. simpl. now rewrite IH.
    + change (Join (String c hd :: hd' :: tl) sep)
        with (String c (hd +:+ String sep (Join (hd' :: tl) sep))).
      now rewrite <- IH.
Qed.

(** X9. The text of a parsed query without a rate is recovered by
    [Query.String]: when [ParseQuery] accepts [s] and returns a query whose
    rate flag is off, there is a traversal order of its tags for which
    [String] writes exactly [s]. *)
Theorem ParseQuery_String_text (s : string) (q : Query) :
  ParseQuery s = Ok q -> Rate q = false ->
  exists order, range_order (Tags q) order /\ Query_String q order = s.
Proof.
  unfold ParseQuery. intros Hparse Hrate.
  destruct (FindStringSubmatch qRE 5 s) as [m|] eqn:Hm; [|discriminate].
  pose proof (qRE_match_shape s m Hm)
    as (agg & ds & m3 & metric & T & Hm' & _ & _ & _ & _ & _ & _ & HT).
  apply qRE_match_text in Hm
    as (agg' & ds' & m3' & metric' & T' & -> & Hs & Hm3).
  injection Hm' as <- <- <- <- <-.
  unfold submatch in Hparse. cbn [nth] in Hparse.
  destruct (if HasPrefix m3' "rate" then _ else _) as [ro|]; [|discriminate].
  destruct (if negb (is_empty T') then _ else _) as [tags|] eqn:Htags;
    [|discriminate].
  injection Hparse as <-. cbn [Rate] in Hrate. cbn [Tags].
  assert (Hm3e : m3' = "").
  { destruct Hm3 as [H|[y ->]]; [exact H |]. simpl in Hrate.
    destruct y; discriminate Hrate. }
  subst m3'.
  assert (Horder : exists order, range_order tags order
                                 /\ Join (map pair_text order) "," = T').
  { destruct (is_empty T') eqn:HeT; cbn [negb] in Htags.
    - injection Htags as <-. apply is_empty_true in HeT. subst T'.
      exists []. split; [|reflexivity]. unfold range_order.
      now rewrite map_to_list_empty.
    - unfold ParseTags in Htags.
      apply ParseTags_loop_Ok in Htags as (pairs & Hpairs & Hnd & _ & ->).
      exists pairs. split.
      + unfold range_order.
        replace (foldl put_pair ∅ pairs) with (list_to_map pairs : TagSet).
        * symmetry. now apply map_to_list_to_map.
        * apply map_eq. intros k.
          change put_pair
            with (fun (m : TagSet) (kv : string * string) => <[kv.1 := kv.2]> m).
          rewrite foldl_insert_lookup, lookup_empty by exact Hnd.
          now destruct (list_to_map pairs !! k).
      + transitivity (Join (Split T' ",") ","); [|apply Join_Split]. f_equal.
        pose proof (Split_pieces tag_char "," T' HT) as Hpieces.
        revert Hpieces. clear -Hpairs.
        induction Hpairs as [|v [k x] pieces pairs Hp _ IH]; intros Hpieces;
          [reflexivity|].
        inversion Hpieces as [|? ? [Hv _] Hrest]; subst.
        cbn [map]. rewrite (IH Hrest). f_equal.
        apply piece_pair_Some in Hp as (a & b & -> & _ & -> & ->).
        rewrite str_forall_app in Hv. apply andb_prop in Hv as [Ha Hb].
        simpl in Hb.
        unfold pair_text. cbn [fst snd].
        now rewrite (TrimSpace_tag_chars a Ha), (TrimSpace_tag_chars b Hb). }
  destruct Horder as (order & Hord & HJ). exists order. split; [exact Hord|].
  change (HasPrefix "" "rate") with false.
  rewrite (Query_String_text (mkQuery agg' metric' false ro ds' tags) order Hord).
  cbn [Aggregator Downsample Rate Metric]. rewrite HJ, Hs.
  unfold with_colon. reflexivity.
Qed.

Lemma ParseQuery_String_text_witness :
  exists q order,
    ParseQuery "avg:15s-avg:cpu.load{host=web01,dc=ny}" = Ok q
    /\ range_order (Tags q) order
    /\ Query_String q order = "avg:15s-avg:cpu.load{host=web01,dc=ny}".
Proof.
  eexists.
  match goal with
  | |- exists order, ParseQuery ?s = Ok ?q /\ _ =>
      assert (Hq : ParseQuery s = Ok q) by (vm_compute; reflexivity);
      destruct (ParseQuery_String_text s q Hq eq_refl) as (order & Ho & Ht);
      exists order; auto
  end.
Defined.

(** ** [Query.String] on queries built by hand *)

Lemma Query_String_read_back (q : Query) (order : list (string * string)) :
  well_formed_query q ->
  range_order (Tags q) order ->
  ParseQuery (Query_String q order)
  = Ok (mkQuery (Aggregator q) (Metric q) (Rate q) zero_RateOptions
                (Downsample q) (Tags q)).
Proof.
  destruct q as [agg metric b ro ds tags].
  intros ((Hagg & Hwagg) & (Hmet & Hwmet) & Hds & Htags) Hperm.
  cbn [Aggregator Metric Rate Rate_Options Downsample Tags] in *.
  assert (Hplain : forall k v, tags !! k = Some v -> plain_pair (k, v))
    by (intros k v H; apply (Htags k v H)).
  assert (Hcolon : forall k v, tags !! k = Some v ->
                     str_forall (not_char ":") k = true
                     /\ str_forall (not_char ":") v = true)
    by (intros k v H; apply (Htags k v H)).
  clear Htags.
  assert (Hin : forall kv, kv ∈ order -> tags !! kv.1 = Some kv.2).
  { intros [k v] Hkv. unfold range_order in Hperm. rewrite Hperm in Hkv.
    now apply elem_of_map_to_list in Hkv. }
  assert (Hord : Forall plain_pair order).
  { apply Forall_forall. intros [k v] Hkv. apply Hplain. exact (Hin _ Hkv). }
  set (J := Join (map pair_text order) ",").
  assert (HJtag : str_forall tag_char J = true).
  { apply Join_forall; [reflexivity|]. apply Forall_map.
    eapply Forall_impl; [exact Hord|]. intros kv (Hk & Hv & _).
    now apply pair_text_forall. }
  assert (HJcolon : str_forall (not_char ":") J = true).
  { apply Join_forall; [reflexivity|]. apply Forall_map.
    apply Forall_forall. intros [k v] Hkv.
    destruct (Hcolon k v (Hin _ Hkv)) as [Hk Hv].
    now apply pair_text_forall. }
  set (X := metric +:+ tail_text J).
  assert (HX : str_forall (not_char ":") X = true).
  { unfold X. rewrite str_forall_app.
    rewrite (str_forall_impl metric_char (not_char ":") metric)
      by (exact Hwmet || (intros c Hc; apply metric_char_plain, Hc)).
    unfold tail_text. destruct (is_empty J); [reflexivity|].
    cbn. rewrite str_forall_app, HJcolon. reflexivity. }
  set (rtext := (if b then "rate:" else "") +:+ X).
  assert (Hrate : forall c0 c1 c2,
             rmatch (RSeq re_rate re_metric) rtext [c0; c1; c2; ""; ""; ""] kfin
             = Some [c0; c1; c2; if b then "rate" else ""; metric;
                     if is_empty J then "" else J]).
  { intros c0 c1 c2. unfold rtext. destruct b.
    - apply match_rate_true; [exact HX|]. now apply match_metric.
    - change ("" +:+ X) with X. rewrite match_rate_false by exact HX.
      now apply match_metric. }
  assert (Hnodash : forall x s', rtext = x +:+ s' ->
             str_forall word_char x = true -> forall u, s' <> String "-" u).
  { unfold rtext. destruct b.
    - change ("rate:" +:+ X) with ("rate" +:+ String ":" X).
      now apply no_dash_after_words.
    - change ("" +:+ X) with X. unfold X. apply no_dash_after_words.
      + apply (str_forall_impl metric_char); [|exact Hwmet].
        intros c Hc. apply metric_char_plain, Hc.
      + unfold tail_text. now destruct (is_empty J). }
  assert (Hfind : FindStringSubmatch qRE 5 (Query_String
                      (mkQuery agg metric b ro ds tags) order)
                  = Some [""; agg; ds; if b then "rate" else ""; metric;
                          if is_empty J then "" else J]).
  { rewrite (Query_String_text (mkQuery agg metric b ro ds tags) order Hperm).
    cbn [Aggregator Downsample Rate Metric]. fold J X rtext.
    apply match_aggregator; [exact Hagg | exact Hwagg |].
    destruct Hds as [->|(x & y & -> & Hx & Hwx & Hy & Hwy)].
    - cbn [is_empty]. change ("" +:+ rtext) with rtext.
      rewrite match_downsample_skip by exact Hnodash. apply Hrate.
    - assert (He : is_empty (x +:+ "-" +:+ y) = false).
      { destruct x; [contradiction | reflexivity]. }
      rewrite He, str_app_assoc.
      apply match_downsample; auto. }
  unfold ParseQuery. rewrite Hfind. unfold submatch. cbn [nth].
  assert (Hb : HasPrefix (if b then "rate" else "") "rate" = b) by now destruct b.
  rewrite Hb.
  assert (Hro : (if b then parse_rate_options (if b then "rate" else "")
                 else Ok zero_RateOptions) = Ok zero_RateOptions)
    by now destruct b.
  rewrite Hro.
  destruct (is_empty J) eqn:HeJ.
  - apply Join_pairs_empty in HeJ. subst order.
    unfold range_order in Hperm.
    apply Permutation_nil, map_to_list_empty_iff in Hperm. subst tags.
    reflexivity.
  - rewrite HeJ. cbn [negb]. fold J.
    unfold J. rewrite (ParseTags_Join tags order); auto.
    intros ->. discriminate.
Qed.

(** X10. [ParseQuery] reads back what [Query.String] writes for any
    well-formed query, whether or not a parser produced it, and in whatever
    order the tags are written: the result is the query with its rate options
    set to zero. *)
Theorem Query_String_parse (q : Query) (order : list (string * string)) :
  well_formed_query q ->
  range_order (Tags q) order ->
  ParseQuery (Query_String q order)
  = Ok (mkQuery (Aggregator q) (Metric q) (Rate q) zero_RateOptions
                (Downsample q) (Tags q)).
Proof. exact (Query_String_read_back q order). Qed.

Lemma Query_String_parse_witness :
  let q := mkQuery "avg" "cpu.load" true (mkRateOptions true 5 1) "900s-avg"
                   (<["host" := "web-01"]> ∅) in
  ParseQuery (Query_String q [("host", "web-01")])
  = Ok (mkQuery "avg" "cpu.load" true zero_RateOptions "900s-avg"
                (<["host" := "web-01"]> ∅)).
Proof.
  intros q. apply (Query_String_parse q [("host", "web-01")]).
  - split; [split; [discriminate | reflexivity]|].
    split; [split; [discriminate | reflexivity]|].
    split.
    + right. exists "900s", "avg".
      repeat split; try reflexivity; discriminate.
    + intros k v H. apply elem_of_map_to_list in H.
      change (map_to_list (Tags q)) with [("host", "web-01")] in H.
      apply elem_of_cons in H as [H|H];
        [injection H as -> ->; repeat split; reflexivity|].
      now apply elem_of_nil in H.
  - unfold range_order. reflexivity.
Defined.

(** ** [AutoDownsample] and the query text *)

Lemma string_of_uint_digits (d : Decimal.uint) :
  str_forall is_digit (NilEmpty.string_of_uint d) = true.
Proof. induction d; simpl; auto. Qed.

Lemma format_int_digits (n : Z) :
  0 < n -> str_forall is_digit (format_int n) = true.
Proof.
  intros Hn. destruct n as [|p|p]; try lia.
  unfold format_int. simpl. apply string_of_uint_digits.
Qed.

Lemma is_digit_word_char (c : ascii) : is_digit c = true -> word_char c = true.
Proof. unfold word_char, is_digit. now intros ->. Qed.

Lemma set_Downsample_well_formed (n : Z) (q : Query) :
  0 < n -> well_formed_query q ->
  well_formed_query (set_Downsample (format_int n +:+ "s-avg") q).
Proof.
  intros Hn (Ha & Hm & _ & Ht). unfold well_formed_query. cbn.
  split; [exact Ha|]. split; [exact Hm|]. split; [|exact Ht].
  right. exists (format_int n +:+ "s"), "avg".
  split; [now rewrite str_app_assoc|].
  split; [intros H; apply str_app_empty in H as [_ H]; discriminate|].
  split; [|split; [discriminate | reflexivity]].
  rewrite str_forall_app. apply andb_true_intro. split; [|reflexivity].
  apply (str_forall_impl is_digit word_char).
  - apply is_digit_word_char.
  - now apply format_int_digits.
Qed.

Section DownsampleText.

Variable E : Env.

(** X11. [AutoDownsample] keeps the queries of a request well formed: the
    downsample it writes, a positive whole number of seconds followed by
    [s-avg], has the shape [ParseQuery] accepts, so the rewritten queries
    still survive [String] followed by [ParseQuery]. This holds for every
    target count and whether or not the call fails. *)
Theorem AutoDownsample_well_formed (r : Request) (l : Z) (w : World) :
  Forall well_formed_query (Queries r) ->
  Forall well_formed_query (Queries (snd (fst (AutoDownsample E r l w)))).
Proof.
  intros Hwf. unfold AutoDownsample.
  destruct (l =? 0); [exact Hwf|].
  unfold bind, ret.
  destruct (GetDuration E r w) as [[cd [e|]] w']; [exact Hwf|].
  destruct (Z.ltb_spec (wrap64 (Z.quot cd l)) (Second * 15)) as [_|Hge];
    [exact Hwf|].
  cbn. apply Forall_map. eapply Forall_impl; [exact Hwf|].
  intros q Hq. apply set_Downsample_well_formed; [|exact Hq].
  unfold Duration_whole_seconds.
  assert (15 <= Z.quot (wrap64 (Z.quot cd l)) Second); [|lia].
  unfold Second in *. apply Z.quot_le_lower_bound; lia.
Qed.

End DownsampleText.

Lemma AutoDownsample_well_formed_witness :
  let r := request_of (VInt64 0) (VInt64 3600) in
  Forall well_formed_query
         (Queries (snd (fst (AutoDownsample (sample_Env [0]) r 4 world0)))).
Proof.
  intros r. apply AutoDownsample_well_formed.
  repeat constructor; try discriminate.
Defined.

(** ** What time resolution leaves alone *)

Section Frames.

Variable E : Env.

Lemma ParseTime_world (v : Value) (w : World) : snd (ParseTime E v w) = tick w.
Proof. now rewrite ParseTime_unfold. Qed.

Lemma resolve_end_world (r : Request) (w : World) :
  snd (resolve_end E r w) = tick w.
Proof.
  unfold resolve_end. destruct (negb (Value_is_nil (End_ r)));
    [apply ParseTime_world | reflexivity].
Qed.

(** X12. Resolving times never touches the network and reads the clock a
    bounded number of times: [ParseTime] exactly once, [GetDuration] twice or
    less and not at all when it refuses an empty start, the normalization of
    [DateCache.Query] twice or less. *)
Theorem time_resolution_frame (v : Value) (r : Request) (c : DateCache) (w : World) :
  snd (ParseTime E v w) = tick w
  /\ (posts (snd (GetDuration E r w)) = posts w
      /\ (ticks (snd (GetDuration E r w)) <= ticks w + 2)%nat
      /\ (Start r = VString "" -> snd (GetDuration E r w) = w))
  /\ (posts (snd (DateCache_window E c r w)) = posts w
      /\ (ticks w < ticks (snd (DateCache_window E c r w)) <= ticks w + 2)%nat).
Proof.
  split; [apply ParseTime_world|]. split.
  - rewrite GetDuration_unfold.
    pose proof (ParseTime_world (Start r) w) as H1.
    destruct (ParseTime E (Start r) w) as [[start err] w1]. simpl in H1. subst w1.
    pose proof (resolve_end_world r (tick w)) as H2.
    destruct (resolve_end E r (tick w)) as [[end_ err'] w2]. simpl in H2. subst w2.
    destruct (Start r) as [|[|ch s]|i|b|t]; destruct err as [e|];
      try destruct err' as [e'|]; cbn; repeat split; try lia; try discriminate.
  - rewrite DateCache_window_unfold.
    pose proof (ParseTime_world (Start r) w) as H1.
    destruct (ParseTime E (Start r) w) as [[start err] w1]. simpl in H1. subst w1.
    pose proof (resolve_end_world r (tick w)) as H2.
    destruct (resolve_end E r (tick w)) as [[end_ err'] w2]. simpl in H2. subst w2.
    destruct err as [e|]; try destruct err' as [e'|]; cbn; repeat split; lia.
Qed.

End Frames.

Lemma time_resolution_frame_witness :
  snd (GetDuration (sample_Env [0]) (request_of (VString "") VNil) world0) = world0.
Proof.
  exact (proj2 (proj2 (proj1 (proj2
           (time_resolution_frame (sample_Env [0]) VNil
              (request_of (VString "") VNil) reference_cache world0))))
           eq_refl).
Defined.

Section ClockIndependence.

Variable E : Env.

(** X13. Whether [ParseTime] fails, and with which error, depends on its
    argument only, not on when it is called; and for an integer or a string
    that does not end in [-ago] and is not empty the time it returns does not
    depend on the clock either. *)
Theorem ParseTime_clock_independent (v : Value) (w1 w2 : World) :
  snd (fst (ParseTime E v w1)) = snd (fst (ParseTime E v w2))
  /\ ((forall p, v <> VString (p +:+ "-ago")) -> v <> VString "" ->
      fst (ParseTime E v w1) = fst (ParseTime E v w2)).
Proof.
  rewrite !ParseTime_unfold. cbn [fst snd]. split.
  - destruct v as [|i|i|b|t]; try reflexivity.
    destruct (negb (is_empty i)); [|reflexivity].
    destruct (HasSuffix i "-ago"); [|reflexivity].
    destruct (ParseDuration E (TrimSuffix i "-ago")); reflexivity.
  - intros Hago Hne. destruct v as [|i|i|b|t]; try reflexivity.
    destruct (is_empty i) eqn:He.
    + apply is_empty_true in He. subst. now destruct Hne.
    + cbn [negb]. destruct (HasSuffix i "-ago") eqn:Hs; [|reflexivity].
      apply HasSuffix_inv in Hs as [p ->]. now destruct (Hago p).
Qed.

End ClockIndependence.

Lemma ParseTime_clock_independent_witness :
  fst (ParseTime (sample_Env [5; 77]) (VString "1700000000") world0)
  = fst (ParseTime (sample_Env [5; 77]) (VString "1700000000") (tick world0)).
Proof.
  refine (proj2 (ParseTime_clock_independent (sample_Env [5; 77])
                   (VString "1700000000") world0 (tick world0)) _ _).
  - intros p H. injection H as H.
    apply (f_equal (fun s => HasSuffix s "-ago")) in H.
    rewrite HasSuffix_app in H. discriminate H.
  - discriminate.
Defined.

(** ** [AutoDownsample]: what it changes *)

Section DownsampleFrame.

Variable E : Env.

Lemma GetDuration_posts (r : Request) (w : World) :
  posts (snd (GetDuration E r w)) = posts w.
Proof.
  rewrite GetDuration_unfold.
  pose proof (ParseTime_world E (Start r) w) as H1.
  destruct (ParseTime E (Start r) w) as [[start err] w1]. simpl in H1. subst w1.
  pose proof (resolve_end_world E r (tick w)) as H2.
  destruct (resolve_end E r (tick w)) as [[end_ err'] w2]. simpl in H2. subst w2.
  destruct (Start r) as [|[|ch s]|i|b|t]; destruct err as [e|];
    try destruct err' as [e'|]; reflexivity.
Qed.

(** X14. [AutoDownsample] changes nothing but the downsample of the queries,
    and gives all of them the same one, of at least 15 seconds. Either the
    request comes back as it was (always so when an error is returned), or
    no error is returned and every query got [<n>s-avg] for one [n >= 15].
    The network is not used. *)
Theorem AutoDownsample_changes (r : Request) (l : Z) (w : World) :
  let out := AutoDownsample E r l w in
  posts (snd out) = posts w
  /\ (fst (fst out) <> None -> snd (fst out) = r)
  /\ (snd (fst out) = r
      \/ exists n, 15 <= n
           /\ fst (fst out) = None
           /\ snd (fst out)
              = set_Queries r
                  (map (set_Downsample (format_int n +:+ "s-avg")) (Queries r))).
Proof.
  cbv zeta. unfold AutoDownsample.
  destruct (l =? 0); [cbn; repeat split; auto|].
  unfold bind, ret.
  pose proof (GetDuration_posts r w) as Hp.
  destruct (GetDuration E r w) as [[cd [e|]] w']; simpl in Hp;
    [cbn; repeat split; auto|].
  destruct (Z.ltb_spec (wrap64 (Z.quot cd l)) (Second * 15)) as [_|Hge];
    [cbn; repeat split; auto|].
  cbn. split; [exact Hp|]. split; [intros H; now destruct H|].
  right. exists (Duration_whole_seconds (wrap64 (Z.quot cd l))).
  split; [|auto].
  unfold Duration_whole_seconds, Second in *.
  apply Z.quot_le_lower_bound; lia.
Qed.

End DownsampleFrame.

Lemma AutoDownsample_changes_witness :
  let r := request_of (VString "") VNil in
  snd (fst (AutoDownsample (sample_Env [0]) r 4 world0)) = r.
Proof.
  intros r.
  refine (proj1 (proj2 (AutoDownsample_changes (sample_Env [0]) r 4 world0)) _).
  discriminate.
Defined.

(** ** The cache over a run of queries *)

Section CacheRuns.

Variable E : Env.

(** X15. [Cache.Query] never removes or overwrites an entry and never changes
    the host; the only entry it can add is the one for the serialized
    request, holding the pair it returns. *)
Theorem Cache_Query_grows (c : Cache) (r : Request) (w : World) :
  let out := Cache_Query E c r w in
  host (snd (fst out)) = host c
  /\ (forall k v, cache c !! k = Some v -> cache (snd (fst out)) !! k = Some v)
  /\ (forall k, cache c !! k = None -> is_Some (cache (snd (fst out)) !! k) ->
        json_Marshal E r = Ok k
        /\ cache (snd (fst out)) !! k = Some (fst (fst out))).
Proof.
  cbv zeta. split; [|split].
  - unfold Cache_Query. destruct (json_Marshal E r) as [s|e]; [|reflexivity].
    destruct (cache c !! s); [reflexivity|].
    unfold bind, ret. now destruct (Request_Query E r (host c) w).
  - intros k v. apply Cache_Query_keeps.
  - intros k Hnone Hsome.
    destruct (json_Marshal E r) as [s|e] eqn:Hm.
    + destruct (cache c !! s) as [v|] eqn:Hc.
      * rewrite (Cache_Query_hit E c r s v w Hm Hc) in Hsome. simpl in Hsome.
        rewrite Hnone in Hsome. now destruct Hsome.
      * rewrite (Cache_Query_miss E c r s w Hm Hc) in *. simpl in *.
        destruct (decide (s = k)) as [->|Hne].
        -- split; [reflexivity | apply lookup_insert_eq].
        -- rewrite lookup_insert_ne, Hnone in Hsome by exact Hne.
           now destruct Hsome.
    + rewrite (Cache_Query_marshal_error E c r e w Hm) in Hsome. simpl in Hsome.
      rewrite Hnone in Hsome. now destruct Hsome.
Qed.

Lemma Cache_Query_matches (c : Cache) (r : Request) (w : World) :
  cache_matches_posts c w ->
  cache_matches_posts (snd (fst (Cache_Query E c r w))) (snd (Cache_Query E c r w)).
Proof.
  intros [Hnd Hiff].
  destruct (json_Marshal E r) as [s|e] eqn:Hm.
  - destruct (cache c !! s) as [v|] eqn:Hc.
    + rewrite (Cache_Query_hit E c r s v w Hm Hc). now split.
    + rewrite (Cache_Query_miss E c r s w Hm Hc). cbn [fst snd].
      assert (Hnew : (host c, s) ∉ posts w).
      { intros Hin. apply Hiff in Hin as [_ [x Hx]]. simpl in Hx. congruence. }
      split; cbn [posts host cache].
      * apply NoDup_app. split; [exact Hnd|]. split; [|apply NoDup_singleton].
        intros x Hx Hx'. apply list_elem_of_singleton in Hx'. now subst.
      * intros [h b]. rewrite elem_of_app, list_elem_of_singleton, Hiff. cbn [fst snd].
        split.
        -- intros [[-> [x Hx]]|[= -> ->]].
           ++ split; [reflexivity|]. exists x.
              rewrite lookup_insert_ne; [exact Hx | congruence].
           ++ split; [reflexivity|]. rewrite lookup_insert_eq. eauto.
        -- intros [-> Hsome]. destruct (decide (s = b)) as [->|Hne]; [now right|].
           left. split; [reflexivity|]. now rewrite lookup_insert_ne in Hsome.
  - rewrite (Cache_Query_marshal_error E c r e w Hm). now split.
Qed.

Lemma Cache_Query_all_matches (rs : list Request) :
  forall (c : Cache) (w : World),
    cache_matches_posts c w ->
    cache_matches_posts (fst (Cache_Query_all E c rs w))
                        (snd (Cache_Query_all E c rs w)).
Proof.
  induction rs as [|r rs IH]; intros c w Hinv; [exact Hinv|].
  cbn [Cache_Query_all]. unfold bind.
  pose proof (Cache_Query_matches c r w Hinv) as Hstep.
  destruct (Cache_Query E c r w) as [[res c'] w']. now apply IH.
Qed.

(** X16. A cache that starts empty never asks the remote end twice for the
    same request text, whether the first answer was a response set or an
    error: after any run of queries, from a world in which nothing was posted
    yet, the posts are pairwise different, all go to the cache's host, and
    their texts are exactly the keys of the cache. *)
Theorem Cache_never_repeats (h : string) (rs : list Request) (w : World) :
  posts w = [] ->
  let out := Cache_Query_all E (NewCache h) rs w in
  NoDup (posts (snd out))
  /\ forall hb : string * string,
       hb ∈ posts (snd out) <-> hb.1 = h /\ is_Some (cache (fst out) !! hb.2).
Proof.
  intros Hw. cbv zeta.
  assert (Hinv : cache_matches_posts (NewCache h) w).
  { split; rewrite Hw; [constructor|].
    intros hb. split; [intros H; now apply elem_of_nil in H|].
    intros [_ [x Hx]]. simpl in Hx. rewrite lookup_empty in Hx. discriminate. }
  pose proof (Cache_Query_all_matches rs _ _ Hinv) as [Hnd Hiff].
  split; [exact Hnd|]. intros hb. rewrite Hiff.
  assert (Hhost : forall rs c w, host (fst (Cache_Query_all E c rs w)) = host c).
  { clear. induction rs as [|r rs IH]; intros c w; [reflexivity|].
    cbn [Cache_Query_all]. unfold bind.
    assert (Hh : host (snd (fst (Cache_Query E c r w))) = host c).
    { unfold Cache_Query. destruct (json_Marshal E r) as [s|e]; [|reflexivity].
      destruct (cache c !! s); [reflexivity|].
      unfold bind, ret. now destruct (Request_Query E r (host c) w). }
    destruct (Cache_Query E c r w) as [[res c'] w']. simpl in Hh.
    now rewrite IH, Hh. }
  now rewrite Hhost.
Qed.

End CacheRuns.

Lemma Cache_Query_grows_witness :
  let E := sample_Env [0] in
  let r := request_of (VInt64 0) (VInt64 60) in
  let c := mkCache "h" (<["k" := mkCacheResult [] None]> ∅) in
  cache (snd (fst (Cache_Query E c r world0))) !! "k" = Some (mkCacheResult [] None).
Proof.
  intros E r c.
  exact (proj1 (proj2 (Cache_Query_grows E c r world0)) "k" _ eq_refl).
Defined.

Lemma Cache_never_repeats_witness :
  let E := sample_Env [0] in
  let r := request_of (VInt64 0) (VInt64 60) in
  NoDup (posts (snd (Cache_Query_all E (NewCache "h") [r; r; r] world0))).
Proof.
  intros E r.
  exact (proj1 (Cache_never_repeats E "h" [r; r; r] world0 eq_refl)).
Defined.

(** ** The date cache *)

Section DateCacheRuns.

Variable E : Env.

Lemma DateCache_window_posts (c : DateCache) (r : Request) (w : World) :
  posts (snd (DateCache_window E c r w)) = posts w.
Proof.
  rewrite DateCache_window_unfold.
  pose proof (ParseTime_world E (Start r) w) as H1.
  destruct (ParseTime E (Start r) w) as [[st [e|]] w1]; simpl in H1; subst w1;
    [reflexivity|].
  pose proof (resolve_end_world E r (tick w)) as H2.
  destruct (resolve_end E r (tick w)) as [[en [e|]] w2]; simpl in H2; subst w2;
    reflexivity.
Qed.

(** X17. When the start or the end of the window does not resolve,
    [DateCache.Query] returns that error with no responses, leaves the cache
    as it was and posts nothing. The start is resolved first; the end is not
    looked at when the start fails. *)
Theorem DateCache_Query_resolver_error (c : DateCache) (r : Request) (w : World)
    (e : error) :
  snd (fst (ParseTime E (Start r) w)) = Some e
  \/ (snd (fst (ParseTime E (Start r) w)) = None
      /\ snd (fst (resolve_end E r (tick w))) = Some e) ->
  fst (DateCache_Query E c r w) = (mkCacheResult [] (Some e), c)
  /\ posts (snd (DateCache_Query E c r w)) = posts w.
Proof.
  intros H.
  assert (Hwin : fst (DateCache_window E c r w) = Err e).
  { rewrite DateCache_window_unfold.
    pose proof (ParseTime_world E (Start r) w) as H1.
    destruct (ParseTime E (Start r) w) as [[st err] w1]; simpl in *; subst w1.
    destruct H as [->|[-> H]]; [reflexivity|].
    destruct (resolve_end E r (tick w)) as [[en err'] w2]; simpl in *.
    now subst err'. }
  pose proof (DateCache_window_posts c r w) as Hp.
  unfold DateCache_Query, bind.
  destruct (DateCache_window E c r w) as [nr w']; simpl in *. subst nr.
  now split.
Qed.

Lemma DateCache_window_int64 (c : DateCache) (r : Request) (w : World) (s e : Z) :
  Start r = VInt64 s -> End_ r = VInt64 e ->
  minInt64 <= UnixNano (now c) - e * Second <= maxInt64 ->
  DateCache_window E c r w =
    (Ok (set_window r (VInt64 (Time_Unix (now c) - (e - s)))
                      (VInt64 (Time_Unix (now c)))),
     tick (tick w)).
Proof.
  intros HS HE Hfit.
  rewrite DateCache_window_unfold, ParseTime_unfold, HS.
  unfold resolve_end. rewrite HE. cbn [Value_is_nil negb].
  rewrite ParseTime_unfold.
  rewrite Time_Sub_exact by exact Hfit.
  unfold Time_Unix, Time_Add, time_Unix. cbn [UnixNano].
  do 3 f_equal; f_equal.
  - replace (s * Second + (UnixNano (now c) - e * Second))
      with (UnixNano (now c) + (- (e - s)) * Second) by lia.
    rewrite Z.div_add by (unfold Second; lia). lia.
  - f_equal. lia.
Qed.

(** X18. A window given as two epoch-second integers is moved as a whole:
    when the shift from its end to the reference instant fits a [Duration],
    the request handed to the cache ends at the reference instant, in epoch
    seconds, and has exactly the length of the window asked for, whatever the
    clock reads. *)
Theorem DateCache_window_absolute (c : DateCache) (r : Request) (w : World)
    (s e : Z) :
  Start r = VInt64 s -> End_ r = VInt64 e ->
  minInt64 <= UnixNano (now c) - e * Second <= maxInt64 ->
  exists s' e' : Z,
    fst (DateCache_window E c r w) = Ok (set_window r (VInt64 s') (VInt64 e'))
    /\ e' = Time_Unix (now c)
    /\ e' - s' = e - s.
Proof.
  intros HS HE Hfit.
  exists (Time_Unix (now c) - (e - s)), (Time_Unix (now c)).
  rewrite (DateCache_window_int64 c r w s e HS HE Hfit).
  repeat split. lia.
Qed.

(** X19. Two windows of the same length, given as epoch-second integers, are
    one entry of a date cache: after a query for the first, a query for the
    second that differs only in where the window lies returns the same pair
    and posts nothing. *)
Theorem DateCache_Query_same_length (c : DateCache) (r : Request) (w : World)
    (s1 e1 s2 e2 : Z) :
  Start r = VInt64 s1 -> End_ r = VInt64 e1 ->
  e1 - s1 = e2 - s2 ->
  minInt64 <= UnixNano (now c) - e1 * Second <= maxInt64 ->
  minInt64 <= UnixNano (now c) - e2 * Second <= maxInt64 ->
  let o1 := DateCache_Query E c r w in
  let o2 := DateCache_Query E (snd (fst o1))
              (set_window r (VInt64 s2) (VInt64 e2)) (snd o1) in
  fst (fst o2) = fst (fst o1)
  /\ snd (fst o2) = snd (fst o1)
  /\ posts (snd o2) = posts (snd o1).
Proof.
  intros HS HE Hlen Hfit1 Hfit2. cbv zeta.
  set (r' := set_window r (VInt64 (Time_Unix (now c) - (e1 - s1)))
                          (VInt64 (Time_Unix (now c)))).
  assert (H1 : DateCache_Query E c r w =
               let '((res, cc), w') := Cache_Query E (dc_Cache c) r' (tick (tick w)) in
               ((res, mkDateCache cc (now c)), w')).
  { unfold DateCache_Query, bind.
    rewrite (DateCache_window_int64 c r w s1 e1 HS HE Hfit1). fold r'.
    now destruct (Cache_Query E (dc_Cache c) r' (tick (tick w))) as [[res cc] w']. }
  assert (H2 : forall (c' : DateCache) (w' : World), now c' = now c ->
             DateCache_Query E c' (set_window r (VInt64 s2) (VInt64 e2)) w' =
             let '((res, cc), w'') :=
               Cache_Query E (dc_Cache c') r' (tick (tick w')) in
             ((res, mkDateCache cc (now c)), w'')).
  { intros c' w' Hnow. unfold DateCache_Query, bind.
    rewrite (DateCache_window_int64 c' (set_window r (VInt64 s2) (VInt64 e2)) w'
               s2 e2 eq_refl eq_refl)
      by (rewrite Hnow; exact Hfit2).
    rewrite Hnow, <- Hlen. change (set_window (set_window r _ _) ?a ?b)
      with (set_window r a b). fold r'.
    now destruct (Cache_Query E (dc_Cache c') r' (tick (tick w'))) as [[res cc] w'']. }
  rewrite H1.
  destruct (json_Marshal E r') as [b|err] eqn:Hm.
  - destruct (cache (dc_Cache c) !! b) as [v|] eqn:Hc.
    + rewrite (Cache_Query_hit E _ r' b v _ Hm Hc). cbn [fst snd].
      rewrite H2 by reflexivity. cbn [dc_Cache].
      rewrite (Cache_Query_hit E _ r' b v _ Hm Hc). now repeat split.
    + rewrite (Cache_Query_miss E _ r' b _ Hm Hc). cbn [fst snd].
      rewrite H2 by reflexivity. cbn [dc_Cache].
      set (res := transport E _ _ _).
      rewrite (Cache_Query_hit E _ r' b res _ Hm)
        by (cbn [cache]; apply lookup_insert_eq).
      now repeat split.
  - rewrite (Cache_Query_marshal_error E _ r' err _ Hm). cbn [fst snd].
    rewrite H2 by reflexivity. cbn [dc_Cache].
    rewrite (Cache_Query_marshal_error E _ r' err _ Hm). now repeat split.
Qed.

End DateCacheRuns.

Lemma DateCache_Query_resolver_error_witness :
  let E := sample_Env [0] in
  let r := request_of (VFloat64 0) VNil in
  fst (DateCache_Query E reference_cache r world0)
    = (mkCacheResult [] (Some ErrTimeType), reference_cache)
  /\ posts (snd (DateCache_Query E reference_cache r world0)) = posts world0.
Proof.
  intros E r.
  apply (DateCache_Query_resolver_error E reference_cache r world0 ErrTimeType).
  left. reflexivity.
Defined.

Lemma DateCache_window_absolute_witness :
  let E := sample_Env [0] in
  let r := request_of (VInt64 100) (VInt64 160) in
  exists s' e' : Z,
    fst (DateCache_window E reference_cache r world0)
      = Ok (set_window r (VInt64 s') (VInt64 e'))
    /\ e' = Time_Unix (now reference_cache)
    /\ e' - s' = 160 - 100.
Proof.
  intros E r.
  apply (DateCache_window_absolute E reference_cache r world0 100 160);
    [reflexivity | reflexivity | vm_compute; split; discriminate].
Defined.

Lemma DateCache_Query_same_length_witness :
  let E := sample_Env [0] in
  let r := request_of (VInt64 100) (VInt64 160) in
  let o1 := DateCache_Query E reference_cache r world0 in
  let o2 := DateCache_Query E (snd (fst o1))
              (set_window r (VInt64 500) (VInt64 560)) (snd o1) in
  fst (fst o2) = fst (fst o1)
  /\ snd (fst o2) = snd (fst o1)
  /\ posts (snd o2) = posts (snd o1).
Proof.
  intros E r.
  apply (DateCache_Query_same_length E reference_cache r world0 100 160 500 560);
    [reflexivity | reflexivity | reflexivity
    | vm_compute; split; discriminate | vm_compute; split; discriminate].
Defined.

(** ** [ParseRequest] *)

Lemma parse_queries_Ok (ms : list string) :
  forall acc qs : list Query,
    parse_queries ms acc = Ok qs <->
    exists qs', qs = acc ++ qs'
                /\ Forall2 (fun m q => ParseQuery m = Ok q) ms qs'.
Proof.
  induction ms as [|m ms IH]; intros acc qs; cbn [parse_queries].
  - split.
    + intros [= <-]. exists []. now rewrite app_nil_r.
    + intros (qs' & -> & H). inversion H. now rewrite app_nil_r.
  - destruct (ParseQuery m) as [q|e] eqn:Hq.
    + rewrite IH. split.
      * intros (qs' & -> & H). exists (q :: qs'). rewrite <- app_assoc.
        split; [reflexivity|]. now constructor.
      * intros (qs' & -> & H). inversion H as [|? q' ? qs'' Hm Hrest]; subst.
        assert (q' = q) by congruence. subst q'.
        exists qs''. now rewrite <- app_assoc.
    + split; [discriminate|].
      intros (qs' & _ & H). inversion H; subst. congruence.
Qed.

Lemma parse_queries_Err (pre : list string) :
  forall (acc : list Query) (m : string) (post : list string) (e : error),
    Forall (fun x => is_ok (ParseQuery x) = true) pre ->
    ParseQuery m = Err e ->
    parse_queries (pre ++ m :: post) acc = Err e.
Proof.
  induction pre as [|x pre IH]; intros acc m post e Hpre Hm; cbn [parse_queries app].
  - now rewrite Hm.
  - inversion Hpre as [|? ? Hx Hrest]; subst.
    destruct (ParseQuery x) as [q|e']; [|discriminate Hx].
    now apply IH.
Qed.

Section Requests.

Variable url_ParseQuery : string -> result Values.

(** X20. [ParseRequest] returns a request exactly when the query string
    decodes, has a non-empty first [start] value and at least one [m] value,
    and every [m] value parses as a query. The request then holds that start
    as a string, the parsed queries in the order of the [m] values, no end
    and no flag: an [end] given in the query string is not read. *)
Theorem ParseRequest_Ok_iff (req : string) (r : Request) :
  ParseRequest url_ParseQuery req = inl r <->
  exists v : Values,
    url_ParseQuery req = Ok v
    /\ Values_Get v "start" <> ""
    /\ default [] (v !! "m") <> []
    /\ Forall2 (fun m q => ParseQuery m = Ok q) (default [] (v !! "m")) (Queries r)
    /\ r = mkRequest (VString (Values_Get v "start")) VNil (Queries r)
                     false false false false.
Proof.
  unfold ParseRequest. split.
  - destruct (url_ParseQuery req) as [v|e]; [|discriminate].
    destruct (is_empty (Values_Get v "start")) eqn:Hs; [discriminate|].
    destruct (parse_queries (default [] (v !! "m")) []) as [qs|e] eqn:Hq;
      [|discriminate].
    destruct (length qs =? 0)%nat eqn:Hl; [discriminate|].
    intros [= <-]. exists v. cbn [Queries].
    apply parse_queries_Ok in Hq as (qs' & -> & H). cbn [app] in *.
    repeat split; auto.
    + intros Hn. rewrite Hn in Hs. discriminate.
    + intros Hn. rewrite Hn in H. inversion H. now subst.
  - intros (v & -> & Hs & Hm & H & ->). cbn [Queries] in *.
    destruct (Values_Get v "start") as [|a s] eqn:Hg; [congruence|].
    cbn [is_empty].
    assert (Hq : parse_queries (default [] (v !! "m")) [] = Ok (Queries r)).
    { apply parse_queries_Ok. now exists (Queries r). }
    rewrite Hq.
    destruct (Queries r) as [|q qs]; [|reflexivity].
    inversion H as [Hnil|]. congruence.
Qed.

(** X21. The checks of [ParseRequest] come in a fixed order. A missing or
    empty [start] is reported before any [m] value is parsed; with a start,
    the error returned is that of the first [m] value that does not parse,
    whatever follows it. *)
Theorem ParseRequest_first_error (req : string) (v : Values) :
  url_ParseQuery req = Ok v ->
  (Values_Get v "start" = "" ->
     ParseRequest url_ParseQuery req = inr (ErrMissingStart req))
  /\ (forall (pre post : list string) (m : string) (e : error),
        Values_Get v "start" <> "" ->
        v !! "m" = Some (pre ++ m :: post) ->
        Forall (fun x => is_ok (ParseQuery x) = true) pre ->
        ParseQuery m = Err e ->
        ParseRequest url_ParseQuery req = inr (ErrPassed e)).
Proof.
  intros Hv. unfold ParseRequest. rewrite Hv. split.
  - now intros ->.
  - intros pre post m e Hs Hm Hpre He.
    destruct (Values_Get v "start") as [|a s]; [congruence|]. cbn [is_empty].
    rewrite Hm. change (default [] (Some (pre ++ m :: post))) with (pre ++ m :: post).
    now rewrite (parse_queries_Err pre [] m post e Hpre He).
Qed.

(** X22. [GetDuration] of a request that [ParseRequest] returned never stops
    at its missing-start test, and measures up to the time of the call: when
    the start resolves, the duration is what lies between it and the second
    reading of the clock. *)
Theorem ParseRequest_GetDuration (E : Env) (req : string) (r : Request)
    (w w1 : World) (st : Time) :
  ParseRequest url_ParseQuery req = inl r ->
  ParseTime E (Start r) w = ((st, None), w1) ->
  GetDuration E r w
    = ((Time_Sub (clock E (S (ticks w))) st, None), tick (tick w)).
Proof.
  intros Hr Hst.
  assert (Hshape : exists a s, Start r = VString (String a s) /\ End_ r = VNil).
  { unfold ParseRequest in Hr.
    destruct (url_ParseQuery req) as [v|e]; [|discriminate].
    destruct (Values_Get v "start") as [|a s]; [discriminate|]. cbn [is_empty] in Hr.
    destruct (parse_queries _ _) as [qs|e]; [|discriminate].
    destruct (length qs =? 0)%nat; [discriminate|].
    injection Hr as <-. now exists a, s. }
  destruct Hshape as (a & s & HS & HE).
  pose proof (ParseTime_world E (Start r) w) as Hw. rewrite Hst in Hw.
  simpl in Hw. subst w1.
  rewrite GetDuration_unfold, Hst. rewrite HS.
  unfold resolve_end. rewrite HE. reflexivity.
Qed.

End Requests.

Lemma ParseRequest_first_error_witness :
  ParseRequest sample_url_ParseQuery "start=1h-ago&m=sum:cpu&m=cpu&m=:"
    = inr (ErrPassed (ErrBadQueryFormat "cpu")).
Proof.
  refine (proj2 (ParseRequest_first_error sample_url_ParseQuery
                   "start=1h-ago&m=sum:cpu&m=cpu&m=:" _ eq_refl)
                ["sum:cpu"] [":"] "cpu" _ _ _ _ _).
  - vm_compute. discriminate.
  - reflexivity.
  - repeat constructor.
  - reflexivity.
Defined.

Lemma ParseRequest_GetDuration_witness :
  let E := sample_Env [7200 * Second; 7200 * Second + 5] in
  exists r : Request,
    ParseRequest sample_url_ParseQuery "start=1h-ago&m=sum:cpu" = inl r
    /\ GetDuration E r world0 = ((3600 * Second + 5, None), tick (tick world0)).
Proof.
  intros E. eexists. split; [reflexivity|].
  refine (ParseRequest_GetDuration sample_url_ParseQuery E
            "start=1h-ago&m=sum:cpu" _ world0 (tick world0)
            (mkTime (3600 * Second)) eq_refl _).
  reflexivity.
Defined.

(** ** UTF-8: what [Clean] writes is read back as written *)

Lemma byte_val_range (c : ascii) : 0 <= byte_val c < 256.
Proof. unfold byte_val. pose proof (N_ascii_bounded c). lia. Qed.

Lemma byte_of_val (c : ascii) : byte_of (byte_val c) = c.
Proof. unfold byte_of, byte_val. now rewrite N2Z.id, ascii_N_embedding. Qed.

Lemma lor_disjoint (a b k : Z) :
  0 <= k -> 0 <= b < 2 ^ k -> Z.lor (a * 2 ^ k) b = a * 2 ^ k + b.
Proof.
  intros Hk Hb. rewrite <- Z.add_lor_land.
  assert (H0 : Z.land (a * 2 ^ k) b = 0).
  { rewrite <- (Z.mod_small b (2 ^ k)) by lia.
    rewrite <- Z.land_ones by lia.
    rewrite (Z.land_comm b), Z.land_assoc, Z.land_ones by lia.
    rewrite Z.mod_mul by lia. apply Z.land_0_l. }
  lia.
Qed.

Lemma lor_sum (a b p k : Z) :
  p = 2 ^ k -> 0 <= k -> 0 <= b < p -> Z.lor (a * p) b = a * p + b.
Proof. intros -> Hk Hb. now apply lor_disjoint. Qed.

Lemma land_low (a k m p : Z) :
  0 <= k -> m = Z.ones k -> p = 2 ^ k -> Z.land a m = a mod p.
Proof. intros Hk -> ->. now apply Z.land_ones. Qed.

Lemma shiftl_times (a k p : Z) : 0 <= k -> p = 2 ^ k -> Z.shiftl a k = a * p.
Proof. intros Hk ->. now apply Z.shiftl_mul_pow2. Qed.

Lemma shiftr_over (a k p : Z) : 0 <= k -> p = 2 ^ k -> Z.shiftr a k = a / p.
Proof. intros Hk ->. now apply Z.shiftr_div_pow2. Qed.

(** The bit operations of the decoder, as arithmetic. *)
Lemma decode2_value (s0 s1 : Z) :
  192 <= s0 < 224 -> 128 <= s1 <= 191 ->
  Z.lor (Z.shiftl (Z.land s0 31) 6) (Z.land s1 63)
  = (s0 - 192) * 64 + (s1 - 128).
Proof.
  intros H0 H1.
  rewrite (land_low s0 5 31 32), (land_low s1 6 63 64) by (reflexivity || lia).
  rewrite (shiftl_times _ 6 64) by (reflexivity || lia).
  assert (E0 : s0 mod 32 = s0 - 192) by (Z.div_mod_to_equations; lia).
  assert (E1 : s1 mod 64 = s1 - 128) by (Z.div_mod_to_equations; lia).
  rewrite E0, E1.
  now rewrite (lor_sum _ _ 64 6) by (reflexivity || lia).
Qed.

Lemma decode3_value (s0 s1 s2 : Z) :
  224 <= s0 < 240 -> 128 <= s1 <= 191 -> 128 <= s2 <= 191 ->
  Z.lor (Z.lor (Z.shiftl (Z.land s0 15) 12) (Z.shiftl (Z.land s1 63) 6))
        (Z.land s2 63)
  = (s0 - 224) * 4096 + (s1 - 128) * 64 + (s2 - 128).
Proof.
  intros H0 H1 H2.
  rewrite (land_low s0 4 15 16), (land_low s1 6 63 64), (land_low s2 6 63 64)
    by (reflexivity || lia).
  rewrite (shiftl_times _ 12 4096), (shiftl_times _ 6 64) by (reflexivity || lia).
  assert (E0 : s0 mod 16 = s0 - 224) by (Z.div_mod_to_equations; lia).
  assert (E1 : s1 mod 64 = s1 - 128) by (Z.div_mod_to_equations; lia).
  assert (E2 : s2 mod 64 = s2 - 128) by (Z.div_mod_to_equations; lia).
  rewrite E0, E1, E2.
  rewrite (lor_sum _ _ 4096 12) by (reflexivity || lia).
  replace ((s0 - 224) * 4096 + (s1 - 128) * 64)
    with (((s0 - 224) * 64 + (s1 - 128)) * 64) by lia.
  rewrite (lor_sum _ _ 64 6) by (reflexivity || lia). lia.
Qed.

Lemma decode4_value (s0 s1 s2 s3 : Z) :
  240 <= s0 < 248 -> 128 <= s1 <= 191 -> 128 <= s2 <= 191 -> 128 <= s3 <= 191 ->
  Z.lor (Z.lor (Z.lor (Z.shiftl (Z.land s0 7) 18) (Z.shiftl (Z.land s1 63) 12))
               (Z.shiftl (Z.land s2 63) 6))
        (Z.land s3 63)
  = (s0 - 240) * 262144 + (s1 - 128) * 4096 + (s2 - 128) * 64 + (s3 - 128).
Proof.
  intros H0 H1 H2 H3.
  rewrite (land_low s0 3 7 8), (land_low s1 6 63 64), (land_low s2 6 63 64),
    (land_low s3 6 63 64) by (reflexivity || lia).
  rewrite (shiftl_times _ 18 262144), (shiftl_times _ 12 4096),
    (shiftl_times _ 6 64) by (reflexivity || lia).
  assert (E0 : s0 mod 8 = s0 - 240) by (Z.div_mod_to_equations; lia).
  assert (E1 : s1 mod 64 = s1 - 128) by (Z.div_mod_to_equations; lia).
  assert (E2 : s2 mod 64 = s2 - 128) by (Z.div_mod_to_equations; lia).
  assert (E3 : s3 mod 64 = s3 - 128) by (Z.div_mod_to_equations; lia).
  rewrite E0, E1, E2, E3.
  rewrite (lor_sum _ _ 262144 18) by (reflexivity || lia).
  replace ((s0 - 240) * 262144 + (s1 - 128) * 4096)
    with (((s0 - 240) * 64 + (s1 - 128)) * 4096) by lia.
  rewrite (lor_sum _ _ 4096 12) by (reflexivity || lia).
  replace (((s0 - 240) * 64 + (s1 - 128)) * 4096 + (s2 - 128) * 64)
    with ((((s0 - 240) * 64 + (s1 - 128)) * 64 + (s2 - 128)) * 64) by lia.
  rewrite (lor_sum _ _ 64 6) by (reflexivity || lia). lia.
Qed.

(** A lead byte or a continuation byte put together by the encoder: the tag
    bits [q * p] and the payload [x] below them. *)
Lemma encode_byte (tag x q p k : Z) :
  tag = q * p -> p = 2 ^ k -> 0 <= k -> 0 <= x < p -> Z.lor tag x = tag + x.
Proof. intros -> Hp Hk Hx. now apply (lor_sum q x p k). Qed.

Lemma byte_str_val (c : ascii) (z : Z) : byte_val c = z -> byte_str z = String c "".
Proof. intros <-. unfold byte_str. now rewrite byte_of_val. Qed.

(** [string(r)] for a code point of each width, byte by byte. *)
Lemma encode1 (r : Z) (c0 : ascii) :
  byte_val c0 = r -> r < 128 -> string_of_rune r = String c0 "".
Proof.
  intros H0 Hr. pose proof (byte_val_range c0).
  unfold string_of_rune. split_tests. cbn [andb]. now apply byte_str_val.
Qed.

Lemma encode2 (r : Z) (c0 c1 : ascii) :
  128 <= r < 2048 ->
  byte_val c0 = 192 + r / 64 -> byte_val c1 = 128 + r mod 64 ->
  string_of_rune r = String c0 (String c1 "").
Proof.
  intros Hr H0 H1. unfold string_of_rune. split_tests. cbn [andb].
  rewrite (shiftr_over r 6 64), (land_low r 6 63 64) by (reflexivity || lia).
  rewrite (encode_byte 192 (r / 64) 6 32 5), (encode_byte 128 (r mod 64) 2 64 6)
    by (reflexivity || (Z.div_mod_to_equations; lia)).
  now rewrite (byte_str_val c0), (byte_str_val c1).
Qed.

Lemma encode3 (r : Z) (c0 c1 c2 : ascii) :
  2048 <= r < 65536 -> ~ 55296 <= r <= 57343 ->
  byte_val c0 = 224 + r / 4096 ->
  byte_val c1 = 128 + (r / 64) mod 64 ->
  byte_val c2 = 128 + r mod 64 ->
  string_of_rune r = String c0 (String c1 (String c2 "")).
Proof.
  intros Hr Hs H0 H1 H2. unfold string_of_rune. split_tests; cbn [andb orb].
  all: rewrite (shiftr_over r 12 4096), (shiftr_over r 6 64),
         (land_low (r / 64) 6 63 64), (land_low r 6 63 64) by (reflexivity || lia).
  all: rewrite (encode_byte 224 (r / 4096) 14 16 4),
         (encode_byte 128 ((r / 64) mod 64) 2 64 6),
         (encode_byte 128 (r mod 64) 2 64 6)
         by (reflexivity || (Z.div_mod_to_equations; lia)).
  all: now rewrite (byte_str_val c0), (byte_str_val c1), (byte_str_val c2).
Qed.

Lemma encode4 (r : Z) (c0 c1 c2 c3 : ascii) :
  65536 <= r <= 1114111 ->
  byte_val c0 = 240 + r / 262144 ->
  byte_val c1 = 128 + (r / 4096) mod 64 ->
  byte_val c2 = 128 + (r / 64) mod 64 ->
  byte_val c3 = 128 + r mod 64 ->
  string_of_rune r = String c0 (String c1 (String c2 (String c3 ""))).
Proof.
  intros Hr H0 H1 H2 H3. unfold string_of_rune. split_tests; cbn [andb orb].
  all: rewrite (shiftr_over r 18 262144), (shiftr_over r 12 4096),
         (shiftr_over r 6 64), (land_low (r / 4096) 6 63 64),
         (land_low (r / 64) 6 63 64), (land_low r 6 63 64) by (reflexivity || lia).
  all: rewrite (encode_byte 240 (r / 262144) 30 8 3),
         (encode_byte 128 ((r / 4096) mod 64) 2 64 6),
         (encode_byte 128 ((r / 64) mod 64) 2 64 6),
         (encode_byte 128 (r mod 64) 2 64 6)
         by (reflexivity || (Z.div_mod_to_equations; lia)).
  all: now rewrite (byte_str_val c0), (byte_str_val c1), (byte_str_val c2),
         (byte_str_val c3).
Qed.

Lemma encode_code (p : string) (r : Z) : utf8_code p r -> string_of_rune r = p.
Proof.
  intros [c0 H0|c0 c1 H0 H1|c0 c1 c2 H0 H1 Hlo Hhi H2
         |c0 c1 c2 c3 H0 H1 Hlo Hhi H2 H3].
  - now apply encode1.
  - apply encode2; Z.div_mod_to_equations; lia.
  - apply encode3; Z.div_mod_to_equations; lia.
  - apply encode4; Z.div_mod_to_equations; lia.
Qed.

Lemma Decode_code (p : string) (r : Z) :
  utf8_code p r ->
  forall t, DecodeRuneInString (p +:+ t) = (r, String.length p).
Proof.
  intros [c0 H0|c0 c1 H0 H1|c0 c1 c2 H0 H1 Hlo Hhi H2
         |c0 c1 c2 c3 H0 H1 Hlo Hhi H2 H3] t;
    cbn [String.append String.length]; unfold DecodeRuneInString, is_cont;
    cbv zeta.
  - split_all_tests. reflexivity.
  - split_all_tests. cbn. now rewrite decode2_value by lia.
  - split_all_tests; cbn; now rewrite decode3_value by lia.
  - split_all_tests; cbn; now rewrite decode4_value by lia.
Qed.

(** What the decoder returns is the replacement character for one byte (or
    for no byte), or the code point of a shortest-form encoding the string
    starts with. *)
Lemma Decode_inv (s : string) :
  (fst (DecodeRuneInString s) = RuneError
   /\ (snd (DecodeRuneInString s) <= 1)%nat)
  \/ exists p t, s = p +:+ t /\ utf8_code p (fst (DecodeRuneInString s)).
Proof.
  destruct s as [|c0 t0]; [left; split; [reflexivity | simpl; lia]|].
  pose proof (byte_val_range c0) as R0.
  unfold DecodeRuneInString, is_cont. cbv zeta.
  destruct (Z.ltb_spec (byte_val c0) 128).
  { right. exists (String c0 ""), t0. split; [reflexivity | now apply code1]. }
  destruct t0 as [|c1 [|c2 [|c3 t3]]]; split_all_tests; cbn;
    try (left; split; [reflexivity | lia]).
  all: right.
  all: first
    [ exists (String c0 (String c1 "")); eexists; split; [reflexivity|];
      rewrite decode2_value by lia; apply code2; lia
    | exists (String c0 (String c1 (String c2 ""))); eexists;
      split; [reflexivity|];
      rewrite decode3_value by lia; apply code3; lia
    | exists (String c0 (String c1 (String c2 (String c3 "")))); eexists;
      split; [reflexivity|];
      rewrite decode4_value by lia; apply code4; lia ].
Qed.

Lemma RuneError_code : utf8_code (string_of_rune RuneError) RuneError.
Proof.
  apply (code3 (byte_of 239) (byte_of 191) (byte_of 189));
    unfold byte_val, byte_of; simpl; lia.
Qed.

(** Every code point the decoder returns is encoded by [string(r)] in
    shortest form. *)
Lemma Decode_rune_code (s : string) :
  utf8_code (string_of_rune (fst (DecodeRuneInString s)))
            (fst (DecodeRuneInString s)).
Proof.
  destruct (Decode_inv s) as [[-> _]|(p & t & _ & Hc)].
  - apply RuneError_code.
  - now rewrite (encode_code _ _ Hc).
Qed.

Lemma runes_of_codes (fuel : nat) :
  forall s, Forall (fun r => utf8_code (string_of_rune r) r) (runes_of fuel s).
Proof.
  induction fuel as [|fuel IH]; intros s; cbn [runes_of]; [constructor|].
  destruct (is_empty s); [constructor|].
  pose proof (Decode_rune_code s) as Hc.
  destruct (DecodeRuneInString s) as [r size]. constructor; [exact Hc | apply IH].
Qed.

(** Reading back what was encoded gives the code points that were encoded. *)
Lemma runes_encode_runes (l : list Z) :
  Forall (fun r => utf8_code (string_of_rune r) r) l ->
  runes (encode_runes l) = l.
Proof.
  induction l as [|r l IH]; intros H; [reflexivity|].
  inversion H as [|? ? Hr Hl]; subst. cbn [encode_runes fold_right].
  fold (encode_runes l).
  pose proof (Decode_code _ _ Hr (encode_runes l)) as Hd.
  pose proof (string_of_rune_not_empty r) as Hne.
  destruct (string_of_rune r +:+ encode_runes l) as [|c s] eqn:Hs.
  { apply str_app_empty in Hs as [Hs _]. now rewrite Hs in Hne. }
  rewrite runes_cons, Hd. cbn [fst snd]. f_equal.
  rewrite <- Hs, str_drop_app. now apply IH.
Qed.

Lemma Clean_text (U : UnicodeTables) (s : string) :
  fst (Clean U s) = encode_runes (List.filter (clean_keeps U) (runes s)).
Proof.
  unfold Clean. rewrite str_length_zero.
  destruct (is_empty s) eqn:Hs.
  - apply is_empty_true in Hs. now subst.
  - rewrite Clean_loop_filter. cbn [String.append]. fold (runes s).
    now destruct (String.length _ =? 0)%nat.
Qed.

Lemma kept_codes (U : UnicodeTables) (s : string) :
  Forall (fun r => utf8_code (string_of_rune r) r)
         (List.filter (clean_keeps U) (runes s)).
Proof.
  apply List.Forall_forall. intros r Hr. apply List.filter_In in Hr as [Hr _].
  pose proof (runes_of_codes (String.length s) s) as H.
  rewrite List.Forall_forall in H. now apply H.
Qed.

Lemma filter_filter_same {A} (p : A -> bool) (l : list A) :
  List.filter p (List.filter p l) = List.filter p l.
Proof.
  induction l as [|x l IH]; [reflexivity|]. cbn [List.filter].
  destruct (p x) eqn:Hx; [|exact IH]. cbn [List.filter]. now rewrite Hx, IH.
Qed.

(** X23. The text [Clean] returns holds the kept code points and nothing
    else: read back as UTF-8 it is, code point for code point, the letters,
    digits and [- _ . /] of the input, in their order. The text is well
    formed, whatever the input was: encoding again what is read from it
    gives the same bytes. *)
Theorem Clean_output_runes (U : UnicodeTables) (s : string) :
  runes (fst (Clean U s)) = List.filter (clean_keeps U) (runes s)
  /\ encode_runes (runes (fst (Clean U s))) = fst (Clean U s).
Proof.
  assert (H : runes (fst (Clean U s)) = List.filter (clean_keeps U) (runes s)).
  { rewrite Clean_text. apply runes_encode_runes, kept_codes. }
  split; [exact H|]. rewrite H. symmetry. apply Clean_text.
Qed.

(** X24. Cleaning is idempotent: a cleaned string is left as it is by a
    second cleaning, and a successful cleaning is followed by a successful
    one with the same result. *)
Theorem Clean_idempotent (U : UnicodeTables) (s : string) :
  fst (Clean U (fst (Clean U s))) = fst (Clean U s)
  /\ (snd (Clean U s) = None -> Clean U (fst (Clean U s)) = Clean U s).
Proof.
  assert (Hfst : fst (Clean U (fst (Clean U s))) = fst (Clean U s)).
  { rewrite (Clean_text U (fst (Clean U s))), (Clean_text U s).
    rewrite runes_encode_runes by apply kept_codes.
    now rewrite filter_filter_same. }
  split; [exact Hfst|].
  intros Hok.
  assert (Hne : is_empty (fst (Clean U s)) = false).
  { revert Hok. unfold Clean. rewrite !str_length_zero.
    destruct (is_empty s); [discriminate|].
    destruct (is_empty (Clean_loop U _ s "")) eqn:He; [discriminate|].
    intros _. exact He. }
  destruct (Clean U s) as [c e] eqn:Hc. cbn [fst snd] in *. subst e.
  revert Hfst. unfold Clean. rewrite !str_length_zero, Hne.
  destruct (is_empty (Clean_loop U _ c "")) eqn:He; cbn [fst]; intros Hfst.
  - rewrite Hfst in He. congruence.
  - now rewrite Hfst.
Qed.

Lemma ascii_keeps_rune (U : UnicodeTables) (c : ascii) :
  is_ascii c = true -> clean_keeps U (byte_val c) = ascii_keeps c.
Proof.
  destruct c as [[] [] [] [] [] [] [] []]; try discriminate; intros _; reflexivity.
Qed.

Lemma Clean_loop_ascii (U : UnicodeTables) (s : string) :
  forall (fuel : nat) (c : string),
    str_forall is_ascii s = true -> (String.length s <= fuel)%nat ->
    Clean_loop U fuel s c = c +:+ str_filter ascii_keeps s.
Proof.
  induction s as [|a s IH]; intros fuel c Hs Hf.
  - destruct fuel; cbn; now rewrite str_app_nil_r.
  - destruct fuel as [|fuel]; [simpl in Hf; lia|].
    cbn [str_forall] in Hs. apply andb_true_iff in Hs as [Ha Hs].
    cbn [Clean_loop is_empty].
    assert (Hd : DecodeRuneInString (String a s) = (byte_val a, 1%nat)).
    { unfold DecodeRuneInString. unfold is_ascii in Ha. now rewrite Ha. }
    rewrite Hd. cbn [str_drop]. rewrite (ascii_keeps_rune U a Ha).
    rewrite IH by (auto; simpl in Hf; lia).
    cbn [str_filter]. destruct (ascii_keeps a); [|reflexivity].
    rewrite (encode1 (byte_val a) a eq_refl)
      by (unfold is_ascii in Ha; now apply Z.ltb_lt in Ha).
    now rewrite str_app_assoc.
Qed.

(** X25. On ASCII input [Clean] is a filter on bytes, the same whatever the
    Unicode tables hold: it returns the input without the bytes that are
    not a letter [A-Z a-z], a digit or one of [- _ . /]. *)
Theorem Clean_ascii (U : UnicodeTables) (s : string) :
  str_forall is_ascii s = true ->
  fst (Clean U s) = str_filter ascii_keeps s.
Proof.
  intros Hs. unfold Clean. rewrite str_length_zero.
  destruct (is_empty s) eqn:He.
  - apply is_empty_true in He. now subst.
  - assert (Hl : Clean_loop U (String.length s) s "" = str_filter ascii_keeps s).
    { now rewrite Clean_loop_ascii by auto. }
    rewrite Hl. now destruct (String.length _ =? 0)%nat.
Qed.

Lemma Clean_ascii_witness :
  fst (Clean (Build_UnicodeTables (fun _ => true) (fun _ => true)) "os.cpu{host=a b}")
    = "os.cpuhostab".
Proof.
  exact (Clean_ascii (Build_UnicodeTables (fun _ => true) (fun _ => true))
           "os.cpu{host=a b}" eq_refl).
Defined.

(** ** [RequestFromJSON] and [Request.String] *)

Section JSON.

Variable json_Unmarshal : string -> result Request.
Variable int64_of_float64 : Z -> Z.
Variable E : Env.

(** X26. [RequestFromJSON] is what makes a window given as JSON numbers
    usable. As decoded, with both ends held as [float64], the request has no
    duration: [GetDuration] stops at the type of the start. As
    [RequestFromJSON] returns it, both ends are epoch seconds and
    [GetDuration] is the time between them, without a reading of the clock
    being used. *)
Theorem RequestFromJSON_numbers (b : string) (r0 : Request) (x y : Z) (w : World) :
  json_Unmarshal b = Ok r0 ->
  Start r0 = VFloat64 x -> End_ r0 = VFloat64 y ->
  fst (GetDuration E r0 w) = (0, Some ErrTimeType)
  /\ exists r,
       RequestFromJSON json_Unmarshal int64_of_float64 b = Ok r
       /\ GetDuration E r w
          = ((Time_Sub (time_Unix (int64_of_float64 y))
                       (time_Unix (int64_of_float64 x)), None),
             tick (tick w)).
Proof.
  intros Hb HS HE. split.
  - now rewrite GetDuration_unfold, HS, ParseTime_unfold.
  - unfold RequestFromJSON. rewrite Hb, HS, HE. eexists. split; [reflexivity|].
    rewrite GetDuration_unfold. unfold resolve_end.
    cbn [Start End_ set_window float_field Value_is_nil negb].
    now rewrite !ParseTime_unfold.
Qed.

End JSON.

Lemma RequestFromJSON_numbers_witness :
  let E := sample_Env [0] in
  let um := fun _ : string => Ok (request_of (VFloat64 100) (VFloat64 160)) in
  fst (GetDuration E (request_of (VFloat64 100) (VFloat64 160)) world0)
    = (0, Some ErrTimeType)
  /\ exists r,
       RequestFromJSON um (fun bits => bits) "{}" = Ok r
       /\ GetDuration E r world0
          = ((Time_Sub (time_Unix 160) (time_Unix 100), None), tick (tick world0)).
Proof.
  intros E um.
  exact (RequestFromJSON_numbers um (fun bits => bits) E "{}" _ 100 160 world0
           eq_refl eq_refl eq_refl).
Defined.

Lemma add_queries_other (qs : list Query) :
  forall (orders : list (list (string * string))) (v : Values) (k : string),
    k <> "m" -> add_queries v qs orders !! k = v !! k.
Proof.
  induction qs as [|q qs IH]; intros orders v k Hk; [reflexivity|].
  cbn [add_queries]. rewrite IH by exact Hk.
  unfold Values_Add. now rewrite lookup_insert_ne by congruence.
Qed.

(** The texts [Request.String] writes for its queries. *)
Lemma add_queries_m (qs : list Query) :
  forall (orders : list (list (string * string))) (v : Values),
    Forall2 (fun q o => range_order (Tags q) o) qs orders ->
    Forall well_formed_query qs ->
    exists texts : list string,
      default [] (add_queries v qs orders !! "m") = default [] (v !! "m") ++ texts
      /\ Forall2 (fun m q => ParseQuery m = Ok q) texts (map clear_rate_options qs).
Proof.
  induction qs as [|q qs IH]; intros orders v Hord Hwf.
  - exists []. cbn [add_queries]. rewrite app_nil_r. split; [reflexivity|constructor].
  - inversion Hord as [|? o ? orders' Ho Hrest]; subst.
    inversion Hwf as [|? ? Hq Hqs]; subst.
    cbn [add_queries tail].
    destruct (IH orders' (Values_Add v "m" (Query_String q o)) Hrest Hqs)
      as (texts & Hm & Hp).
    exists (Query_String q o :: texts). split.
    + rewrite Hm. unfold Values_Add. rewrite lookup_insert_eq.
      change (default [] (Some ?l)) with l. now rewrite <- app_assoc.
    + cbn [map]. constructor; [|exact Hp].
      now apply Query_String_read_back.
Qed.

Section RequestText.

Variable url_ParseQuery : string -> result Values.
Variable url_Encode : Values -> string.
Variable other : Value -> string.

(** X27. What [ParseRequest] reads back from [Request.String]. For a request
    with a non-empty string as start and at least one query, all well formed,
    and as long as the library decodes what it encoded, the result holds the
    same start and the same queries in the same order; the end of the window,
    the four flags and the rate options of the queries are gone. *)
Theorem Request_String_parse (r : Request) (s : string)
    (orders : list (list (string * string))) :
  Start r = VString s -> s <> "" ->
  Queries r <> [] ->
  Forall well_formed_query (Queries r) ->
  Forall2 (fun q o => range_order (Tags q) o) (Queries r) orders ->
  url_ParseQuery (url_Encode (Request_values other r orders))
    = Ok (Request_values other r orders) ->
  ParseRequest url_ParseQuery (Request_String url_Encode other r orders)
  = inl (mkRequest (VString s) VNil (map clear_rate_options (Queries r))
                   false false false false).
Proof.
  intros HS Hs Hqs Hwf Hord Hlib.
  unfold ParseRequest, Request_String. rewrite Hlib.
  destruct (add_queries_m (Queries r) orders ∅ Hord Hwf) as (texts & Hm & Hp).
  rewrite lookup_empty in Hm. change (default [] None ++ texts) with texts in Hm.
  set (v1 := Values_Add (add_queries ∅ (Queries r) orders) "start" s).
  assert (Hstart : forall v, Values_Get v "start" = s ->
            Values_Get (if negb (Value_is_nil (End_ r))
                           && negb (is_empty (fmt_Sprint other (End_ r)))
                        then Values_Add v "end" (fmt_Sprint other (End_ r))
                        else v) "start" = s).
  { intros v Hv. destruct (_ && _); [|exact Hv].
    unfold Values_Get, Values_Add in *. now rewrite lookup_insert_ne by discriminate. }
  assert (Hmm : forall v, default [] (v !! "m") = texts ->
            default [] ((if negb (Value_is_nil (End_ r))
                            && negb (is_empty (fmt_Sprint other (End_ r)))
                         then Values_Add v "end" (fmt_Sprint other (End_ r))
                         else v) !! "m") = texts).
  { intros v Hv. destruct (_ && _); [|exact Hv].
    unfold Values_Add. now rewrite lookup_insert_ne by discriminate. }
  unfold Request_values. rewrite HS. cbn [fmt_Sprint]. fold v1.
  rewrite Hstart, Hmm.
  - destruct s as [|a s]; [congruence|]. cbn [is_empty].
    assert (Hq : parse_queries texts [] = Ok (map clear_rate_options (Queries r))).
    { apply parse_queries_Ok. now exists (map clear_rate_options (Queries r)). }
    rewrite Hq. destruct (Queries r); [congruence | reflexivity].
  - unfold v1, Values_Add. rewrite lookup_insert_ne by discriminate. exact Hm.
  - unfold v1, Values_Get, Values_Add. rewrite lookup_insert_eq.
    rewrite add_queries_other by discriminate. now rewrite lookup_empty.
Qed.

End RequestText.

Lemma Request_String_parse_witness :
  let r := mkRequest (VString "1h-ago") (VInt64 7) [cpu_query; cpu_query]
                     true false false false in
  ParseRequest sample_url_ParseQuery
    (Request_String sample_url_Encode (fun _ => "") r
       [map_to_list (Tags cpu_query); map_to_list (Tags cpu_query)])
  = inl (mkRequest (VString "1h-ago") VNil
                   (map clear_rate_options [cpu_query; cpu_query])
                   false false false false).
Proof.
  intros r.
  apply (Request_String_parse sample_url_ParseQuery sample_url_Encode
           (fun _ => "") r "1h-ago").
  - reflexivity.
  - discriminate.
  - discriminate.
  - repeat constructor; try discriminate; try reflexivity.
  - repeat constructor.
  - vm_compute. reflexivity.
Defined.
